(** * Blackjack reward-distribution engine: a shallow embedding

    The development follows the two Cython modules of the repository,
    [bbwrl/bot/reward_distribution.pyx] (the recursive memoized solver) and
    [bbwrl/bot/bettors/kelly_bettor.pyx] (the Kelly bettor), and the claims
    made about them in the specification.

    Modelling conventions.
    - A C [int] is a [Z] wrapped to 32 bits by [int_wrap]; the [int128] of
      the state hash is a [Z] wrapped to 128 bits by [int128_wrap]; a C
      [long] is wrapped to 64 bits by [long_wrap].
    - A C [double] is an exact rational ([Q]).  The engine is specified as
      numerically exact, so rounding is not modelled.  Division follows
      [Qdiv], for which [x / 0 = 0]; IEEE division yields NaN for [0/0].
      On a shoe of non-negative counts a zero denominator only ever meets
      a zero numerator, and the draw loops test such a quotient with
      [p > 0], which is false for NaN as it is for [0].  The one quotient
      used untested is the share [p] of [distr_blackjack]: on an empty
      shoe the code stores seventeen NaN, which the rationals cannot
      hold; what is stated about the values of that function, or of a
      caller through it, is stated on a shoe that holds a card.
    - A [double[17]] and the shoe [int[14]] are lists read with [nth] and
      updated in place with list insertion.
    - The solver object is a record threaded through a state monad whose
      failure is the exhaustion of the recursion fuel; each of the three
      recursive methods spends one unit of fuel per call.
    - The constant distributions and the cached ones are never written
      after they are built, so a [double*] is modelled by the list it
      points to. *)

From Stdlib Require Import ZArith QArith Qround List Lia ZifyBool Bool String.
From stdpp Require Import gmap list.
Import ListNotations.

Local Open Scope Z_scope.

(** ** Machine integers *)

Definition wrap_bits (w : Z) (x : Z) : Z :=
  (x + 2 ^ (w - 1)) mod 2 ^ w - 2 ^ (w - 1).

Definition int_wrap (x : Z) : Z := wrap_bits 32 x.
Definition long_wrap (x : Z) : Z := wrap_bits 64 x.
Definition int128_wrap (x : Z) : Z := wrap_bits 128 x.

Definition int_range (x : Z) : Prop := - 2 ^ 31 <= x < 2 ^ 31.
Definition int128_range (x : Z) : Prop := - 2 ^ 127 <= x < 2 ^ 127.

Definition int_add (a b : Z) : Z := int_wrap (a + b).
Definition int_sub (a b : Z) : Z := int_wrap (a - b).

(** ** Doubles as rationals *)

Definition Qlt_bool (x y : Q) : bool := negb (Qle_bool y x).

(** Python's [int(x)]: truncation towards zero. *)
Definition Qtrunc (x : Q) : Z := Z.quot (Qnum x) (Zpos (Qden x)).

(** ** Payout distributions: [double[17]] *)

Definition DISTR_SIZE : nat := 17.

Definition dget (distr : list Q) (i : nat) : Q := nth i distr 0%Q.

(** Sum of the 17 entries of a distribution. *)
Definition dsum (distr : list Q) : Q :=
  fold_left (fun q i => (q + dget distr i)%Q) (seq 0 17) 0%Q.

(** ** State monad with fuel exhaustion *)

Definition M (S A : Type) : Type := S -> option (A * S).

Definition ret {S A} (a : A) : M S A := fun st => Some (a, st).

Definition bind {S A B} (m : M S A) (k : A -> M S B) : M S B :=
  fun st => match m st with
            | Some (a, st') => k a st'
            | None => None
            end.

Definition out_of_fuel {S A} : M S A := fun _ => None.

Definition gets {S A} (f : S -> A) : M S A := fun st => Some (f st, st).

Definition modify {S} (f : S -> S) : M S unit := fun st => Some (tt, f st).

Notation "x <- m ;; k" := (bind m (fun x => k))
  (at level 100, m at next level, right associativity).
Notation "m ;;; k" := (bind m (fun _ => k))
  (at level 100, right associativity).

(** [for x in xs: acc = body(x, acc)] *)
Fixpoint for_each {S A B} (xs : list B) (body : B -> A -> M S A) (acc : A)
  : M S A :=
  match xs with
  | [] => ret acc
  | x :: xs => acc' <- body x acc ;; for_each xs body acc'
  end.

(** Python's [range(lo, hi)] over C ints. *)
Definition range (lo hi : Z) : list Z :=
  map (fun i => lo + Z.of_nat i) (seq 0 (Z.to_nat (hi - lo))).

(** Outcome of a Python call that may raise. *)
Inductive outcome (A : Type) : Type :=
| Returned (a : A)
| Raised (message : string).
Arguments Returned {A} a.
Arguments Raised {A} message.

(** ** Shoe access *)

Definition shoe_get (shoe : list Z) (card : Z) : Z :=
  nth (Z.to_nat card) shoe 0.

Definition shoe_set (shoe : list Z) (card : Z) (v : Z) : list Z :=
  <[Z.to_nat card := v]> shoe.

(** ** The solver: [bbwrl/bot/reward_distribution.pyx] *)

Module rd_pyx.

(** [get_value(card)] *)
Definition get_value (card : Z) : Z :=
  if card =? 1 then 11
  else if card <? 10 then card
  else 10.

(** [is_ace(card_value)]: the argument is a card _value_. *)
Definition is_ace (card_value : Z) : Z :=
  if card_value =? 11 then 1 else 0.

(** [add(distr1, distr2, scalar)]: in-place [distr1[i] += scalar*distr2[i]]. *)
Definition add (distr1 distr2 : list Q) (scalar : Q) : list Q :=
  fold_left
    (fun d i => <[i := (dget d i + scalar * dget distr2 i)%Q]> d)
    (seq 0 17) distr1.

(** [empty_distr()] *)
Definition empty_distr : list Q :=
  fold_left (fun d i => <[i := 0%Q]> d) (seq 0 17) (repeat 0%Q 17).

(** [constant_distr(value)] *)
Definition constant_distr (value : Q) : list Q :=
  <[Z.to_nat (Qtrunc (value * 2 + 8)) := 1%Q]> empty_distr.

(** [double_distr(distr)] *)
Definition double_distr (distr : list Q) : list Q :=
  let tmp := fold_left (fun t i => <[i := 0%Q]> t) (seq 0 17) (repeat 0%Q 17) in
  let tmp := fold_left (fun t i => <[2 * i - 8 := dget distr i]> t)%nat
                       (seq 4 9) tmp in
  fold_left (fun d i => <[i := dget tmp i]> d) (seq 0 17) distr.

(** [double_variable(distr)] *)
Definition double_variable (distr : list Q) : list Q :=
  let tmp := fold_left (fun t i => <[i := 0%Q]> t) (seq 0 17) (repeat 0%Q 17) in
  let tmp :=
    fold_left
      (fun t i =>
         fold_left
           (fun t j =>
              if ((i + j <? 25) && (8 <=? i + j))%nat
              then <[(i + j - 8)%nat := (dget t (i + j - 8) + dget distr i * dget distr j)%Q]> t
              else t)
           (seq 0 17) t)
      (seq 0 17) tmp in
  fold_left (fun d i => <[i := dget tmp i]> d) (seq 0 17) distr.

(** *** Rule configuration *)

(** Modelled from the spec: the module [bbwrl.environments.rule_variation],
    a process-wide record of rule flags read by the solver and the bettor
    (section 4.B).  It is taken as a parameter of every function below. *)
Record rule_variation : Type := {
  HIT_SOFT_17 : bool;
  DEALER_PEEKS : bool;
  DOUBLE_AFTER_SPLIT : bool;
  HIT_AFTER_SPLIT_ACES : bool;
  BLACKJACK_WITH_SPLIT_ACES : bool;
  SPLIT_UNEVEN : bool;
  BLACKJACK_PAYOUT : Q;
  SHOE_SIZE : Z
}.

(** *** The solver object *)

Record RewardDistribution : Type := {
  utility : list Q;                    (* double utility[17] *)
  card_distr : list Z;                 (* int card_distr[14] *)
  precomp_distr : gmap Z (list Q);     (* unordered_map[int128, double*] *)
  CONSTANT_TIE : list Q;
  CONSTANT_LOSE : list Q;
  CONSTANT_WIN : list Q;
  CONSTANT_BLACKJACK : list Q
}.

Definition with_card_distr (self : RewardDistribution) (v : list Z) :=
  {| utility := utility self; card_distr := v;
     precomp_distr := precomp_distr self;
     CONSTANT_TIE := CONSTANT_TIE self; CONSTANT_LOSE := CONSTANT_LOSE self;
     CONSTANT_WIN := CONSTANT_WIN self;
     CONSTANT_BLACKJACK := CONSTANT_BLACKJACK self |}.

Definition with_precomp_distr (self : RewardDistribution) (v : gmap Z (list Q)) :=
  {| utility := utility self; card_distr := card_distr self;
     precomp_distr := v;
     CONSTANT_TIE := CONSTANT_TIE self; CONSTANT_LOSE := CONSTANT_LOSE self;
     CONSTANT_WIN := CONSTANT_WIN self;
     CONSTANT_BLACKJACK := CONSTANT_BLACKJACK self |}.

(** [RewardDistribution.__cinit__(utility_function)]: the text printed and
    the outcome of the construction.  Each of the three checks prints and
    then executes [pass]; no branch raises. *)
Definition __cinit__ (rules : rule_variation) (utility_function : Q -> Q)
  : list string * outcome RewardDistribution :=
  let utility :=
    map (fun i => utility_function ((inject_Z (Z.of_nat i) - 8) / 2)%Q) (seq 0 17) in
  let out := [] in
  let out := if negb (Qeq_bool (BLACKJACK_PAYOUT rules) 1.5)
             then out ++ ["blackjakc_payout_exception"%string] else out in
  let out := if SHOE_SIZE rules >=? 25
             then out ++ ["shoe_size_exception"%string] else out in
  let out := if negb (DEALER_PEEKS rules)
             then out ++ ["dealer_peeks_exception"%string] else out in
  (out,
   Returned {| utility := utility;
               card_distr := repeat 0 14;
               precomp_distr := ∅;
               CONSTANT_TIE := constant_distr 0;
               CONSTANT_WIN := constant_distr 1;
               CONSTANT_BLACKJACK := constant_distr 1.5;
               CONSTANT_LOSE := constant_distr (-1) |}).

(** [self.card_distr[card] -= 1] and [self.card_distr[card] += 1] *)
Definition card_distr_decr (card : Z) : M RewardDistribution unit :=
  modify (fun self =>
    with_card_distr self
      (shoe_set (card_distr self) card (int_sub (shoe_get (card_distr self) card) 1))).

Definition card_distr_incr (card : Z) : M RewardDistribution unit :=
  modify (fun self =>
    with_card_distr self
      (shoe_set (card_distr self) card (int_add (shoe_get (card_distr self) card) 1))).

(** The conversion that Cython generates for the assignment of a Python
    sequence [o] to a C array [int[length]]: it succeeds on a sequence of
    exactly [length] items, each within the C [int], and raises on any
    other (IndexError on the length, OverflowError on an item). *)
Definition carray_from_py_int (o : list Z) (length : nat) : option (list Z) :=
  if (List.length o =? length)%nat
     && forallb (fun item => (- 2 ^ 31 <=? item) && (item <? 2 ^ 31)) o
  then Some o else None.

(** [set_card_distribution(card_distribution)]: the body is
    [self.card_distr = card_distribution], the assignment of a Python
    object to [int card_distr[14]].  The method is [cdef void] without an
    [except] clause: an exception raised by the conversion is reported
    and dropped, the method returns, and the shoe stays as it was. *)
Definition set_card_distribution (card_distribution : list Z)
  : M RewardDistribution unit :=
  modify (fun self =>
    match carray_from_py_int card_distribution 14 with
    | Some card_distr => with_card_distr self card_distr
    | None => self
    end).

(** *** Pure queries on the solver *)

(** [distribution_value(distr)] *)
Definition distribution_value (self : RewardDistribution) (distr : list Q) : Q :=
  fold_left (fun q i => (q + dget distr i * dget (utility self) i)%Q)
            (seq 0 17) 0%Q.

(** [get_state_hash(player_total, aces, dealer_total, mode)], every
    operation on the [int128] accumulators wrapped. *)
Definition get_state_hash (self : RewardDistribution)
    (player_total aces dealer_total mode : Z) : Z :=
  let k := 10 in
  let hash := mode in
  let '(hash, k) :=
    fold_left
      (fun '(hash, k) i =>
         (int128_wrap (hash + int128_wrap (k * shoe_get (card_distr self) i)),
          int128_wrap (k * 100)))
      (range 1 14) (hash, k) in
  let hash := int128_wrap (hash + int128_wrap (k * player_total)) in
  let k := int128_wrap (k * 100) in
  let hash := int128_wrap (hash + int128_wrap (k * dealer_total)) in
  let k := int128_wrap (k * 100) in
  let hash := int128_wrap (hash + int128_wrap (k * aces)) in
  hash.

(** [precomputed_distr(hash)] *)
Definition precomputed_distr (self : RewardDistribution) (hash : Z) : bool :=
  match precomp_distr self !! hash with
  | Some _ => true
  | None => false
  end.

(** [self.precomp_distr[hash]], read after [precomputed_distr] answered
    true. *)
Definition precomp_distr_at (self : RewardDistribution) (hash : Z) : list Q :=
  default [] (precomp_distr self !! hash).

(** [self.precomp_distr[state_hash] = distr] *)
Definition precomp_distr_store (hash : Z) (distr : list Q)
  : M RewardDistribution unit :=
  modify (fun self =>
    with_precomp_distr self (<[hash := distr]> (precomp_distr self))).

(** The local array [valid_card_distr] of [card_probability]. *)
Definition valid_card_distr (self : RewardDistribution) (banned_value : Z)
    (i : Z) : Q :=
  if banned_value =? get_value i then 0%Q
  else inject_Z (shoe_get (card_distr self) i).

(** The local [cards_left] of [card_probability]. *)
Definition cards_left (self : RewardDistribution) (banned_value : Z) : Q :=
  fold_left (fun q i => (q + valid_card_distr self banned_value i)%Q)
            (range 1 14) 0%Q.

(** [card_probability(card, banned_value=0)] *)
Definition card_probability (self : RewardDistribution) (card : Z)
    (banned_value : Z) : Q :=
  (valid_card_distr self banned_value card / cards_left self banned_value)%Q.

(** The local [banned_value] of [distr_stand]. *)
Definition banned_value_of (first_call : bool) (dealer_total : Z) : Z :=
  let banned_value := 0 in
  if first_call then
    let banned_value := if dealer_total =? 10 then 11 else banned_value in
    let banned_value := if dealer_total =? 11 then 10 else banned_value in
    banned_value
  else banned_value.

(** [free_mem()] *)
Definition free_mem : M RewardDistribution unit :=
  modify (fun self => with_precomp_distr self ∅).

Section Solver.

Variable rules : rule_variation.

Local Abbreviation Solver := (M RewardDistribution (list Q)).

(** [distr_stand(player_total, dealer_aces, dealer_total, first_call)] *)
Fixpoint distr_stand (fuel : nat)
    (player_total dealer_aces dealer_total : Z) (first_call : bool)
  : Solver :=
  match fuel with
  | O => out_of_fuel
  | S fuel =>
    if player_total >? 21 then gets CONSTANT_LOSE
    else if dealer_total >? 21 then
      if dealer_aces >? 0 then
        distr_stand fuel player_total (int_sub dealer_aces 1)
                    (int_sub dealer_total 10) false
      else gets CONSTANT_WIN
    else if (dealer_total >? 17)
            || ((dealer_total =? 17)
                && ((dealer_aces =? 0) || negb (HIT_SOFT_17 rules))) then
      if dealer_total =? player_total then gets CONSTANT_TIE
      else if dealer_total >? player_total then gets CONSTANT_LOSE
      else gets CONSTANT_WIN
    else
      state_hash <- gets (fun self =>
        get_state_hash self player_total dealer_aces dealer_total
                       (if first_call then 3 else 4)) ;;
      hit <- gets (fun self => precomputed_distr self state_hash) ;;
      if (hit : bool) then gets (fun self => precomp_distr_at self state_hash)
      else
        let banned_value := banned_value_of first_call dealer_total in
        distr <-
          for_each (range 1 14)
            (fun card distr =>
               p <- gets (fun self => card_probability self card banned_value) ;;
               if Qlt_bool 0 p then
                 card_distr_decr card ;;;
                 d <- distr_stand fuel player_total
                        (int_add dealer_aces (is_ace (get_value card)))
                        (int_add dealer_total (get_value card)) false ;;
                 let distr := add distr d p in
                 card_distr_incr card ;;;
                 ret distr
               else ret distr)
            empty_distr ;;
        precomp_distr_store state_hash distr ;;;
        ret distr
  end.

(** [distr_hit(player_total, player_aces, dealer_total)] and
    [distr_hit_stand(player_total, player_aces, dealer_total)] *)
Fixpoint distr_hit (fuel : nat) (player_total player_aces dealer_total : Z)
  : Solver :=
  match fuel with
  | O => out_of_fuel
  | S fuel =>
    if player_total >? 21 then
      if player_aces >? 0 then
        distr_hit fuel (int_sub player_total 10) (int_sub player_aces 1)
                  dealer_total
      else gets CONSTANT_LOSE
    else
      state_hash <- gets (fun self =>
        get_state_hash self player_total player_aces dealer_total 2) ;;
      hit <- gets (fun self => precomputed_distr self state_hash) ;;
      if (hit : bool) then gets (fun self => precomp_distr_at self state_hash)
      else
        distr <-
          for_each (range 1 14)
            (fun card distr =>
               p <- gets (fun self => card_probability self card 0) ;;
               if Qlt_bool 0 p then
                 card_distr_decr card ;;;
                 d <- distr_hit_stand fuel
                        (int_add player_total (get_value card))
                        (int_add player_aces (is_ace (get_value card)))
                        dealer_total ;;
                 let distr := add distr d p in
                 card_distr_incr card ;;;
                 ret distr
               else ret distr)
            empty_distr ;;
        precomp_distr_store state_hash distr ;;;
        ret distr
  end
with distr_hit_stand (fuel : nat)
    (player_total player_aces dealer_total : Z) : Solver :=
  match fuel with
  | O => out_of_fuel
  | S fuel =>
    let '(player_total, player_aces) :=
      if (player_total >? 21) && (player_aces >? 0)
      then (int_sub player_total 10, int_sub player_aces 1)
      else (player_total, player_aces) in
    distr_hit' <- distr_hit fuel player_total player_aces dealer_total ;;
    distr_stand' <- distr_stand fuel player_total (is_ace dealer_total)
                      dealer_total true ;;
    self <- gets (fun self => self) ;;
    ret (if Qlt_bool (distribution_value self distr_stand')
                     (distribution_value self distr_hit')
         then distr_hit' else distr_stand')
  end.

(** [distr_double(player_total, player_aces, dealer_total)] *)
Definition distr_double (fuel : nat)
    (player_total player_aces dealer_total : Z) : Solver :=
  state_hash <- gets (fun self =>
    get_state_hash self player_total player_aces dealer_total 1) ;;
  hit <- gets (fun self => precomputed_distr self state_hash) ;;
  if (hit : bool) then gets (fun self => precomp_distr_at self state_hash)
  else
    distr <-
      for_each (range 1 14)
        (fun card distr =>
           p <- gets (fun self => card_probability self card 0) ;;
           if Qlt_bool 0 p then
             card_distr_decr card ;;;
             let player_total_with_card := int_add player_total (get_value card) in
             let player_total_with_card :=
               if (player_total_with_card >? 21)
                  && (int_add player_aces (is_ace (get_value card)) >? 0)
               then int_sub player_total_with_card 10
               else player_total_with_card in
             d <- distr_stand fuel player_total_with_card (is_ace dealer_total)
                    dealer_total true ;;
             let distr := add distr d p in
             card_distr_incr card ;;;
             ret distr
           else ret distr)
        empty_distr ;;
    let distr := double_distr distr in
    precomp_distr_store state_hash distr ;;;
    ret distr.

(** [distr_blackjack(dealer_total)].  The share [p] is used as it comes,
    without the test [p > 0] of the draw loops: on an empty shoe the code
    has [p = 0.0 / 0.0] and stores seventeen NaN, where this definition
    has [p = 0]. *)
Definition distr_blackjack (dealer_total : Z) : Solver :=
  if dealer_total <? 10 then gets CONSTANT_BLACKJACK
  else
    state_hash <- gets (fun self => get_state_hash self 21 1 dealer_total 5) ;;
    hit <- gets (fun self => precomputed_distr self state_hash) ;;
    if (hit : bool) then gets (fun self => precomp_distr_at self state_hash)
    else
      let distr := empty_distr in
      p <- gets (fun self =>
             if dealer_total =? 10 then card_probability self 1 0
             else (card_probability self 10 0 + card_probability self 11 0
                   + card_probability self 12 0 + card_probability self 13 0)%Q) ;;
      tie <- gets CONSTANT_TIE ;;
      let distr := add distr tie p in
      blackjack <- gets CONSTANT_BLACKJACK ;;
      let distr := add distr blackjack (1 - p)%Q in
      precomp_distr_store state_hash distr ;;;
      ret distr.

(** [distr_hit_stand_double(player_total, player_aces, dealer_total)] *)
Definition distr_hit_stand_double (fuel : nat)
    (player_total player_aces dealer_total : Z) : Solver :=
  let '(player_total, player_aces) :=
    if (player_total >? 21) && (player_aces >? 0)
    then (int_sub player_total 10, int_sub player_aces 1)
    else (player_total, player_aces) in
  if player_total =? 21 then distr_blackjack dealer_total
  else
    distr_hit_stand' <- distr_hit_stand fuel player_total player_aces
                          dealer_total ;;
    distr_double' <- distr_double fuel player_total player_aces dealer_total ;;
    self <- gets (fun self => self) ;;
    ret (if Qlt_bool (distribution_value self distr_double')
                     (distribution_value self distr_hit_stand')
         then distr_hit_stand' else distr_double').

(** [distr_split_general(player_card, dealer_total)] *)
Definition distr_split_general (fuel : nat) (player_card dealer_total : Z)
  : Solver :=
  state_hash <- gets (fun self =>
    get_state_hash self player_card 0 dealer_total 0) ;;
  hit <- gets (fun self => precomputed_distr self state_hash) ;;
  if (hit : bool) then gets (fun self => precomp_distr_at self state_hash)
  else
    distr <-
      for_each (range 1 14)
        (fun card distr =>
           p <- gets (fun self => card_probability self card 0) ;;
           if Qlt_bool 0 p then
             card_distr_decr card ;;;
             d <- (if DOUBLE_AFTER_SPLIT rules
                   then distr_hit_stand_double fuel
                          (int_add player_card (get_value card))
                          (is_ace (get_value card)) dealer_total
                   else distr_hit_stand fuel
                          (int_add player_card (get_value card))
                          (is_ace (get_value card)) dealer_total) ;;
             let distr := add distr d p in
             card_distr_incr card ;;;
             ret distr
           else ret distr)
        empty_distr ;;
    let distr := double_variable distr in
    precomp_distr_store state_hash distr ;;;
    ret distr.

(** [distr_split_tens(dealer_total)] *)
Definition distr_split_tens (fuel : nat) (dealer_total : Z) : Solver :=
  state_hash <- gets (fun self => get_state_hash self 10 0 dealer_total 0) ;;
  hit <- gets (fun self => precomputed_distr self state_hash) ;;
  if (hit : bool) then gets (fun self => precomp_distr_at self state_hash)
  else
    distr <-
      for_each (range 2 14)
        (fun card distr =>
           p <- gets (fun self => card_probability self card 0) ;;
           if Qlt_bool 0 p then
             card_distr_decr card ;;;
             d <- (if DOUBLE_AFTER_SPLIT rules
                   then distr_hit_stand_double fuel
                          (int_add 10 (get_value card)) 0 dealer_total
                   else distr_hit_stand fuel
                          (int_add 10 (get_value card)) 0 dealer_total) ;;
             let distr := add distr d p in
             card_distr_incr card ;;;
             ret distr
           else ret distr)
        empty_distr ;;
    p <- gets (fun self => card_probability self 1 0) ;;
    blackjack <- gets CONSTANT_BLACKJACK ;;
    let distr := if Qlt_bool 0 p then add distr blackjack p else distr in
    let distr := double_variable distr in
    precomp_distr_store state_hash distr ;;;
    ret distr.

(** [distr_split_aces(dealer_total)] *)
Definition distr_split_aces (fuel : nat) (dealer_total : Z) : Solver :=
  state_hash <- gets (fun self => get_state_hash self 11 1 dealer_total 0) ;;
  hit <- gets (fun self => precomputed_distr self state_hash) ;;
  if (hit : bool) then gets (fun self => precomp_distr_at self state_hash)
  else
    distr <-
      for_each (range 1 10)
        (fun card distr =>
           p <- gets (fun self => card_probability self card 0) ;;
           if Qlt_bool 0 p then
             card_distr_decr card ;;;
             d <- (if HIT_AFTER_SPLIT_ACES rules then
                     if DOUBLE_AFTER_SPLIT rules
                     then distr_hit_stand_double fuel (int_add 11 card) 1
                            dealer_total
                     else distr_hit_stand fuel (int_add 11 card) 1
                            dealer_total
                   else distr_stand fuel (int_add 11 card)
                          (is_ace dealer_total) dealer_total true) ;;
             let distr := add distr d p in
             card_distr_incr card ;;;
             ret distr
           else ret distr)
        empty_distr ;;
    distr <-
      for_each (range 10 14)
        (fun card distr =>
           p <- gets (fun self => card_probability self card 0) ;;
           if Qlt_bool 0 p then
             if BLACKJACK_WITH_SPLIT_ACES rules then
               blackjack <- gets CONSTANT_BLACKJACK ;;
               ret (add distr blackjack p)
             else
               card_distr_decr card ;;;
               d <- distr_stand fuel 21 (is_ace dealer_total) dealer_total
                      true ;;
               let distr := add distr d p in
               card_distr_incr card ;;;
               ret distr
           else ret distr)
        distr ;;
    let distr := double_variable distr in
    precomp_distr_store state_hash distr ;;;
    ret distr.

(** [distr_split(player_total, player_aces, dealer_total)].  The three
    arguments are untyped (Python integers): [player_total / 2] is a true
    division, and its result is converted to the C [int] that
    [distr_split_general] takes, which truncates towards zero. *)
Definition distr_split (fuel : nat)
    (player_total player_aces dealer_total : Z) : Solver :=
  if player_aces >? 0 then distr_split_aces fuel dealer_total
  else if player_total =? 20 then distr_split_tens fuel dealer_total
  else distr_split_general fuel (Z.quot player_total 2) dealer_total.

(** The public entry points of the solver, as data. *)
Inductive entry_point : Type :=
| Distr_hit (player_total player_aces dealer_total : Z)
| Distr_stand (player_total dealer_aces dealer_total : Z) (first_call : bool)
| Distr_double (player_total player_aces dealer_total : Z)
| Distr_split_general (player_card dealer_total : Z)
| Distr_split_tens (dealer_total : Z)
| Distr_split_aces (dealer_total : Z)
| Distr_split (player_total player_aces dealer_total : Z)
| Distr_hit_stand (player_total player_aces dealer_total : Z)
| Distr_hit_stand_double (player_total player_aces dealer_total : Z)
| Distr_blackjack (dealer_total : Z).

Definition call (fuel : nat) (e : entry_point) : Solver :=
  match e with
  | Distr_hit pt pa dt => distr_hit fuel pt pa dt
  | Distr_stand pt da dt fc => distr_stand fuel pt da dt fc
  | Distr_double pt pa dt => distr_double fuel pt pa dt
  | Distr_split_general pc dt => distr_split_general fuel pc dt
  | Distr_split_tens dt => distr_split_tens fuel dt
  | Distr_split_aces dt => distr_split_aces fuel dt
  | Distr_split pt pa dt => distr_split fuel pt pa dt
  | Distr_hit_stand pt pa dt => distr_hit_stand fuel pt pa dt
  | Distr_hit_stand_double pt pa dt => distr_hit_stand_double fuel pt pa dt
  | Distr_blackjack dt => distr_blackjack dt
  end.

End Solver.

End rd_pyx.

(** ** The bettor: [bbwrl/bot/bettors/kelly_bettor.pyx] *)

Module kelly_pyx.

(** [get_value(card)] *)
Definition get_value (card : Z) : Z :=
  if card =? 1 then 11
  else if card <? 10 then card
  else 10.

(** [is_ace(card)]: the argument is a _card_. *)
Definition is_ace (card : Z) : Z :=
  if card =? 1 then 1 else 0.

(** [add(distr1, distr2, scalar)] *)
Definition add (distr1 distr2 : list Q) (scalar : Q) : list Q :=
  fold_left
    (fun d i => <[i := (dget d i + scalar * dget distr2 i)%Q]> d)
    (seq 0 17) distr1.

(** The local [cards_left] of [get_probability] and of
    [get_dealer_blackjack_probability]. *)
Definition cards_left (distr : list Z) : Q :=
  fold_left (fun q i => (q + inject_Z (shoe_get distr i))%Q) (range 1 14) 0%Q.

(** [get_probability(distr, card1, card2, card3)]: the probability and the
    caller's memoryview [long[:] distr] as the call leaves it. *)
Definition get_probability (card1 card2 card3 : Z) : M (list Z) Q :=
  fun distr =>
    let cards_left := cards_left distr in
    if Qlt_bool cards_left 3 then Some (0%Q, distr)
    else
      let p := (inject_Z (shoe_get distr card1) / cards_left)%Q in
      let distr := shoe_set distr card1 (long_wrap (shoe_get distr card1 - 1)) in
      let p := (p * (inject_Z (shoe_get distr card2) / (cards_left - 1)))%Q in
      let distr := shoe_set distr card2 (long_wrap (shoe_get distr card2 - 1)) in
      let p := (p * (inject_Z (shoe_get distr card3) / (cards_left - 2)))%Q in
      let distr := shoe_set distr card1 (long_wrap (shoe_get distr card1 + 1)) in
      let distr := shoe_set distr card2 (long_wrap (shoe_get distr card2 + 1)) in
      Some (p, distr).

(** [get_player(player_first, player_second)] *)
Definition get_player (player_first player_second : Z) : Z * Z :=
  let player_total := int_add (get_value player_first) (get_value player_second) in
  let player_aces := int_add (is_ace player_first) (is_ace player_second) in
  if player_total >? 21
  then (int_sub player_total 10, int_sub player_aces 1)
  else (player_total, player_aces).

(** [remove_cards(distr, card1, card2, card3)].  The function fills the
    C array [modified_card_distr] in its own frame and returns a [long[:]]
    memoryview of it, which does not copy.  The frame is gone when the
    call returns, so the view dangles: the fourteen longs a caller reads
    through it are whatever that part of the stack holds by then.  They
    are the argument [stale], which the statements leave arbitrary; the
    array the function filled is lost. *)
Definition remove_cards (stale : list Z) (distr : list Z) (card1 card2 card3 : Z)
  : list Z :=
  let modified_card_distr :=
    fold_left (fun m i => <[i := nth i distr 0]> m) (seq 0 14) (repeat 0 14) in
  let modified_card_distr :=
    shoe_set modified_card_distr card1
             (long_wrap (shoe_get modified_card_distr card1 - 1)) in
  let modified_card_distr :=
    shoe_set modified_card_distr card2
             (long_wrap (shoe_get modified_card_distr card2 - 1)) in
  let modified_card_distr :=
    shoe_set modified_card_distr card3
             (long_wrap (shoe_get modified_card_distr card3 - 1)) in
  map (fun i => long_wrap (nth i stale 0)) (seq 0 14).

(** [get_dealer_blackjack_probability(card_distr, dealer_total)] *)
Definition get_dealer_blackjack_probability (card_distr : list Z)
    (dealer_total : Z) : Q :=
  let cards_left := cards_left card_distr in
  if dealer_total =? 10 then (inject_Z (shoe_get card_distr 1) / cards_left)%Q
  else (inject_Z (shoe_get card_distr 10 + shoe_get card_distr 11
                  + shoe_get card_distr 12 + shoe_get card_distr 13)
        / cards_left)%Q.

(** [matching_cards(card1, card2)] *)
Definition matching_cards (rules : rd_pyx.rule_variation) (card1 card2 : Z)
  : bool :=
  if rd_pyx.SPLIT_UNEVEN rules then get_value card1 =? get_value card2
  else card1 =? card2.

Record KellyBettor : Type := {
  reward_distribution : rd_pyx.RewardDistribution
}.

(** [KellyBettor.__init__()]: the solver is built on the identity utility. *)
Definition __init__ (rules : rd_pyx.rule_variation)
  : list string * outcome KellyBettor :=
  match rd_pyx.__cinit__ rules (fun x => x) with
  | (out, Returned rd) => (out, Returned {| reward_distribution := rd |})
  | (out, Raised e) => (out, Raised e)
  end.

(** State of one run of [get_distr]: the caller's memoryview [card_distr]
    and the solver [rd]. *)
Record run_state : Type := {
  card_distr : list Z;
  rd : rd_pyx.RewardDistribution
}.

Definition on_card_distr {A} (m : M (list Z) A) : M run_state A :=
  fun f => match m (card_distr f) with
           | Some (a, c) => Some (a, {| card_distr := c; rd := rd f |})
           | None => None
           end.

Definition on_rd {A} (m : M rd_pyx.RewardDistribution A) : M run_state A :=
  fun f => match m (rd f) with
           | Some (a, r) => Some (a, {| card_distr := card_distr f; rd := r |})
           | None => None
           end.

Section Bettor.

Variable rules : rd_pyx.rule_variation.

(** What the stack holds where the array of [remove_cards] was, when the
    view returned for the deal [(player_first, player_second,
    dealer_shown)] is read. *)
Variable stale : Z -> Z -> Z -> list Z.

(** The body of the innermost loop of [get_distr].  The solver is handed
    the view that [remove_cards] returned; it installs what it reads when
    that is fourteen C ints, and keeps the shoe it had otherwise. *)
Definition deal (fuel : nat) (player_first player_second dealer_shown : Z)
    (distr : list Q) : M run_state (list Q) :=
  p <- on_card_distr (get_probability player_first player_second dealer_shown) ;;
  if Qeq_bool p 0 then ret distr
  else
    let '(player_total, player_aces) := get_player player_first player_second in
    let dealer_total := get_value dealer_shown in
    modified_card_distr <- gets (fun f =>
      remove_cards (stale player_first player_second dealer_shown)
                   (card_distr f) player_first player_second dealer_shown) ;;
    on_rd (rd_pyx.set_card_distribution modified_card_distr) ;;;
    current_distr <- on_rd (rd_pyx.distr_hit_stand_double rules fuel
                              player_total player_aces dealer_total) ;;
    q <- gets (fun f =>
           if dealer_total <? 10 then 0%Q
           else get_dealer_blackjack_probability (card_distr f) dealer_total) ;;
    current_distr <-
      (if matching_cards rules player_first player_second then
         split_distr <- on_rd (rd_pyx.distr_split rules fuel
                                 player_total player_aces dealer_total) ;;
         f <- gets (fun f => f) ;;
         ret (if Qlt_bool (rd_pyx.distribution_value (rd f) current_distr)
                          (rd_pyx.distribution_value (rd f) split_distr)
              then split_distr else current_distr)
       else ret current_distr) ;;
    let distr := add distr current_distr (p * (1 - q))%Q in
    f <- gets (fun f => f) ;;
    let distr :=
      add distr
          (if player_total =? 21 then rd_pyx.CONSTANT_TIE (rd f)
           else rd_pyx.CONSTANT_LOSE (rd f))
          (p * q)%Q in
    ret distr.

(** [KellyBettor.get_distr(card_distr)] *)
Definition get_distr (fuel : nat) : M run_state (list Q) :=
  let distr := fold_left (fun d i => <[i := 0%Q]> d) (seq 0 17) (repeat 0%Q 17) in
  distr <-
    for_each (range 1 14)
      (fun player_first distr =>
         for_each (range 1 14)
           (fun player_second distr =>
              for_each (range 1 14)
                (fun dealer_shown distr =>
                   deal fuel player_first player_second dealer_shown distr)
                distr)
           distr)
      distr ;;
  on_rd rd_pyx.free_mem ;;;
  ret distr.

End Bettor.

End kelly_pyx.

(** ** The strategist: [bbwrl/bot/strategists/optimal_strategist.pyx] *)

Module strategist_pyx.

Record OptimalStrategist : Type := {
  reward_distribution : rd_pyx.RewardDistribution
}.

(** [OptimalStrategist.__init__(utility_function)] *)
Definition __init__ (rules : rd_pyx.rule_variation) (utility_function : Q -> Q)
  : list string * outcome OptimalStrategist :=
  match rd_pyx.__cinit__ rules utility_function with
  | (out, Returned rd) => (out, Returned {| reward_distribution := rd |})
  | (out, Raised e) => (out, Raised e)
  end.

(** A method of the solver run on [self.reward_distribution]. *)
Definition on_reward_distribution {A} (m : M rd_pyx.RewardDistribution A)
  : M OptimalStrategist A :=
  fun self => match m (reward_distribution self) with
              | Some (a, rd) => Some (a, {| reward_distribution := rd |})
              | None => None
              end.

Section Strategist.

Variable rules : rd_pyx.rule_variation.

(** [should_split(player_total, player_aces, dealer_total, card_distribution)] *)
Definition should_split (fuel : nat)
    (player_total player_aces dealer_total : Z) (card_distribution : list Z)
  : M OptimalStrategist bool :=
  on_reward_distribution
    (rd_pyx.set_card_distribution card_distribution ;;;
     distr_split <- rd_pyx.distr_split rules fuel player_total player_aces
                      dealer_total ;;
     distr_hit_stand_double <-
       rd_pyx.distr_hit_stand_double rules fuel player_total player_aces
         dealer_total ;;
     rd <- gets (fun rd => rd) ;;
     ret (Qlt_bool (rd_pyx.distribution_value rd distr_hit_stand_double)
                   (rd_pyx.distribution_value rd distr_split))).

(** [should_double(player_total, player_aces, dealer_total, card_distribution)] *)
Definition should_double (fuel : nat)
    (player_total player_aces dealer_total : Z) (card_distribution : list Z)
  : M OptimalStrategist bool :=
  on_reward_distribution
    (rd_pyx.set_card_distribution card_distribution ;;;
     distr_double <- rd_pyx.distr_double rules fuel player_total player_aces
                       dealer_total ;;
     distr_hit_stand <- rd_pyx.distr_hit_stand rules fuel player_total
                          player_aces dealer_total ;;
     rd <- gets (fun rd => rd) ;;
     ret (Qlt_bool (rd_pyx.distribution_value rd distr_hit_stand)
                   (rd_pyx.distribution_value rd distr_double))).

(** [should_hit(player_total, player_aces, dealer_total, card_distribution)] *)
Definition should_hit (fuel : nat)
    (player_total player_aces dealer_total : Z) (card_distribution : list Z)
  : M OptimalStrategist bool :=
  on_reward_distribution
    (rd_pyx.set_card_distribution card_distribution ;;;
     distr_hit <- rd_pyx.distr_hit rules fuel player_total player_aces
                    dealer_total ;;
     distr_stand <- rd_pyx.distr_stand rules fuel player_total
                      (if dealer_total =? 11 then 1 else 0) dealer_total true ;;
     rd <- gets (fun rd => rd) ;;
     ret (Qlt_bool (rd_pyx.distribution_value rd distr_stand)
                   (rd_pyx.distribution_value rd distr_hit))).

End Strategist.

(** [OptimalStrategist.free_mem()] *)
Definition free_mem : M OptimalStrategist unit :=
  on_reward_distribution rd_pyx.free_mem.

(** *** The test wrapper [WrappedRewardDistribution] of the same file *)

Record WrappedRewardDistribution : Type := {
  reward_distr : rd_pyx.RewardDistribution
}.

(** [WrappedRewardDistribution.free_mem()]: the body is [self.free_mem()],
    a call of the method itself, not of the solver's [free_mem]. *)
Fixpoint wrapped_free_mem (fuel : nat) : M WrappedRewardDistribution unit :=
  match fuel with
  | O => out_of_fuel
  | S fuel => wrapped_free_mem fuel
  end.

End strategist_pyx.

(** ** The contracts of the distribution algebra, in the words of the
    specification *)

(** Self-convolution: bucket [k] collects [d[i] * d[j]] over the pairs
    [i, j] of [0..16] with [i + j - 8 = k]. *)
Definition self_convolve_bucket (d : list Q) (k : nat) : Q :=
  fold_left
    (fun q i =>
       fold_left
         (fun q j => if (i + j =? k + 8)%nat then (q + dget d i * dget d j)%Q else q)
         (seq 0 17) q)
    (seq 0 17) 0%Q.

(** ** Predicates used by the statements *)

(** A well-formed shoe: fourteen counts, those of the ranks [1..13]
    non-negative C ints. *)
Definition shoe_wf (shoe : list Z) : Prop :=
  length shoe = 14%nat /\
  forall card, 1 <= card <= 13 -> 0 <= shoe_get shoe card < 2 ^ 31.

(** Number of cards in the shoe. *)
Definition shoe_total (shoe : list Z) : Z :=
  fold_left (fun n card => n + shoe_get shoe card) (range 1 14) 0.

(** Count of [card] once the cards of value [banned_value] are set aside. *)
Definition valid_count (shoe : list Z) (banned_value card : Z) : Z :=
  if banned_value =? rd_pyx.get_value card then 0 else shoe_get shoe card.

(** Number of cards in the shoe whose value is not [banned_value]. *)
Definition drawable (shoe : list Z) (banned_value : Z) : Z :=
  fold_left (fun n card => n + valid_count shoe banned_value card) (range 1 14) 0.

(** [frame st st']: the solver [st'] differs from [st] in its memoization
    cache only; shoe, utility table and constants are the same. *)
Definition frame (st st' : rd_pyx.RewardDistribution) : Prop :=
  rd_pyx.with_precomp_distr st (rd_pyx.precomp_distr st') = st'.

(** The solver with one [card] taken out of its shoe. *)
Definition take (card : Z) (st : rd_pyx.RewardDistribution)
  : rd_pyx.RewardDistribution :=
  rd_pyx.with_card_distr st
    (shoe_set (rd_pyx.card_distr st) card
              (int_sub (shoe_get (rd_pyx.card_distr st) card) 1)).

(** Every cached distribution, and each of the constants WIN, LOSE and
    TIE, has total mass one.  A fresh or freed cache qualifies. *)
Definition unit_mass (st : rd_pyx.RewardDistribution) : Prop :=
  (forall k d, rd_pyx.precomp_distr st !! k = Some d -> (dsum d == 1)%Q) /\
  (dsum (rd_pyx.CONSTANT_TIE st) == 1)%Q /\
  (dsum (rd_pyx.CONSTANT_LOSE st) == 1)%Q /\
  (dsum (rd_pyx.CONSTANT_WIN st) == 1)%Q.

(** The weight a draw loop gives to [card]: its probability when the test
    [p > 0] passes, nothing otherwise. *)
Definition draw_weight (st : rd_pyx.RewardDistribution) (banned_value card : Z) : Q :=
  let p := rd_pyx.card_probability st card banned_value in
  if Qlt_bool 0 p then p else 0%Q.

Definition draw_weights (st : rd_pyx.RewardDistribution) (banned_value : Z)
    (cards : list Z) : Q :=
  fold_left (fun q card => (q + draw_weight st banned_value card)%Q) cards 0%Q.

(** A hand whose hard total (every soft ace counted as one) is not negative. *)
Definition hand_ok (total aces : Z) : Prop :=
  0 <= aces /\ 10 * aces <= total /\ total < 2 ^ 31.

(** The dealer cannot run out of cards before standing or busting: each
    draw raises the hard total by at least one, and the dealer stops above
    a hard total of seventeen. *)
Definition stand_enough (shoe : list Z) (dealer_aces dealer_total : Z)
    (first_call : bool) : Prop :=
  hand_ok dealer_total dealer_aces /\
  18 - (dealer_total - 10 * dealer_aces)
  <= drawable shoe (rd_pyx.banned_value_of first_call dealer_total).

(** The player can be dealt cards until busting, and the dealer can then
    still draw to completion. *)
Definition hit_enough (shoe : list Z) (player_total player_aces dealer_total : Z)
  : Prop :=
  hand_ok player_total player_aces /\
  2 <= dealer_total <= 11 /\
  (22 - (player_total - 10 * player_aces))
  + (18 - (dealer_total - 10 * rd_pyx.is_ace dealer_total))
  <= drawable shoe (rd_pyx.banned_value_of true dealer_total).

(** What a call of [distr_hit] or [distr_hit_stand] guarantees. *)
Definition hit_post (st : rd_pyx.RewardDistribution)
    (player_total player_aces dealer_total : Z)
    (d : list Q) (st' : rd_pyx.RewardDistribution) : Prop :=
  frame st st' /\
  (unit_mass st ->
   hit_enough (rd_pyx.card_distr st) player_total player_aces dealer_total ->
   unit_mass st' /\ (dsum d == 1)%Q).

(** What a call of [distr_stand] guarantees. *)
Definition stand_post (st : rd_pyx.RewardDistribution)
    (player_total dealer_aces dealer_total : Z) (first_call : bool)
    (d : list Q) (st' : rd_pyx.RewardDistribution) : Prop :=
  frame st st' /\
  (unit_mass st ->
   21 < player_total
   \/ stand_enough (rd_pyx.card_distr st) dealer_aces dealer_total first_call ->
   unit_mass st' /\ (dsum d == 1)%Q).

(** The body shared by the draw loops of the solver: weigh [card], take it
    out, run [sub], accumulate, put it back. *)
Definition draw_body (banned_value : Z)
    (sub : Z -> M rd_pyx.RewardDistribution (list Q)) (card : Z) (distr : list Q)
  : M rd_pyx.RewardDistribution (list Q) :=
  p <- gets (fun self => rd_pyx.card_probability self card banned_value) ;;
  if Qlt_bool 0 p then
    rd_pyx.card_distr_decr card ;;;
    d <- sub card ;;
    let distr := rd_pyx.add distr d p in
    rd_pyx.card_distr_incr card ;;;
    ret distr
  else ret distr.

(** Total-correctness weakest precondition of a monadic computation. *)
Definition wp {S A} (m : M S A) (st : S) (post : A -> S -> Prop) : Prop :=
  exists a st', m st = Some (a, st') /\ post a st'.

(** [frames m st]: run from [st], the computation [m] returns and leaves
    a solver that differs from [st] in its cache only. *)
Definition frames {A} (m : M rd_pyx.RewardDistribution A)
    (st : rd_pyx.RewardDistribution) : Prop :=
  wp m st (fun _ st' => frame st st').

(** The soft-ace argument of an entry point, when it has one. *)
Definition entry_aces (e : rd_pyx.entry_point) : Z :=
  match e with
  | rd_pyx.Distr_hit _ pa _ => pa
  | rd_pyx.Distr_stand _ da _ _ => da
  | rd_pyx.Distr_hit_stand _ pa _ => pa
  | rd_pyx.Distr_hit_stand_double _ pa _ => pa
  | _ => 0
  end.

(** [distr[card] -= 1] and [distr[card] += 1] on a [long[:]] memoryview. *)
Definition long_decr (distr : list Z) (card : Z) : list Z :=
  shoe_set distr card (long_wrap (shoe_get distr card - 1)).

Definition long_incr (distr : list Z) (card : Z) : list Z :=
  shoe_set distr card (long_wrap (shoe_get distr card + 1)).

(** The demotion of a soft ace that opens [distr_hit_stand] and
    [distr_hit_stand_double]. *)
Definition demote (player_total player_aces : Z) : Z * Z :=
  if (player_total >? 21) && (player_aces >? 0)
  then (int_sub player_total 10, int_sub player_aces 1)
  else (player_total, player_aces).

(** [chosen st a b r]: [r] is the outcome of comparing the first operand
    [a] with the second operand [b] on their utility: the one of larger
    value, and the second operand on a tie. *)
Definition chosen (st : rd_pyx.RewardDistribution) (a b r : list Q) : Prop :=
  ((rd_pyx.distribution_value st b < rd_pyx.distribution_value st a)%Q -> r = a) /\
  ((rd_pyx.distribution_value st a < rd_pyx.distribution_value st b)%Q -> r = b) /\
  ((rd_pyx.distribution_value st a == rd_pyx.distribution_value st b)%Q -> r = b).

(** The dealer-blackjack probability of the bettor, in the words of the
    specification: nothing below a ten, the share of ten-valued cards
    behind an ace, the share of aces behind a ten-valued card; shares are
    taken in the shoe as [get_distr] received it. *)
Definition shoe_size (shoe : list Z) : Q :=
  fold_left (fun q i => (q + inject_Z (shoe_get shoe i))%Q) (range 1 14) 0%Q.

Definition dealer_blackjack_q (shoe : list Z) (dealer_shown : Z) : Q :=
  let v := kelly_pyx.get_value dealer_shown in
  if v <? 10 then 0%Q
  else if v =? 11 then
    (inject_Z (shoe_get shoe 10 + shoe_get shoe 11 + shoe_get shoe 12
               + shoe_get shoe 13) / shoe_size shoe)%Q
  else (inject_Z (shoe_get shoe 1) / shoe_size shoe)%Q.

(** The state hash in the words of the specification: positional decimal
    packing, [mode] in the lowest digit, then two digits per shoe count,
    then [player_total], [dealer_total] and [aces]. *)
Definition packed (shoe : list Z) (player_total aces dealer_total mode : Z) : Z :=
  mode
  + 10 * fold_right (fun i rest => shoe_get shoe i + 100 * rest)
                    (player_total + 100 * (dealer_total + 100 * aces))
                    (range 1 14).

(** The tuples on which the packing is read back digit by digit and the
    128-bit accumulator does not wrap. *)
Definition hash_domain (shoe : list Z) (player_total aces dealer_total mode : Z)
  : Prop :=
  (forall i, 1 <= i <= 13 -> 0 <= shoe_get shoe i < 100) /\
  0 <= mode <= 5 /\
  0 <= player_total <= 31 /\
  2 <= dealer_total <= 11 /\
  0 <= aces <= 17014118.

(** Two shoes for the hash collision: an empty one and a loaded one. *)
Definition empty_shoe : list Z := [0; 0; 0; 0; 0; 0; 0; 0; 0; 0; 0; 0; 0; 0].

Definition loaded_shoe : list Z :=
  [0; 7; 51; 32; 1; 87; 33; 10; 30; 61; 97; 74; 99; 79].

(** The banned value of the dealer's draw, in the words of the
    specification. *)
Definition banned_value_spec (first_call : bool) (dealer_total : Z) : Z :=
  if first_call && (dealer_total =? 10) then 11
  else if first_call && (dealer_total =? 11) then 10
  else 0.

(** Sum of the draw probabilities of the thirteen ranks. *)
Definition probability_sum (st : rd_pyx.RewardDistribution) (banned_value : Z) : Q :=
  fold_left (fun q card => (q + rd_pyx.card_probability st card banned_value)%Q)
            (range 1 14) 0%Q.

(** The payout carried by bucket [i]: [(i - 8) / 2]. *)
Definition payout (i : nat) : Q := ((inject_Z (Z.of_nat i) - 8) / 2)%Q.

(** Mean payout of a distribution: its value under the identity utility. *)
Definition payout_mean (d : list Q) : Q :=
  fold_left (fun q i => (q + dget d i * payout i)%Q) (seq 0 17) 0%Q.

(** [within_two d]: no mass outside the payouts [-2 .. +2] (buckets 4..12). *)
Definition within_two (d : list Q) : Prop :=
  forall i, (i < 4 \/ 12 < i)%nat -> (dget d i == 0)%Q.

(** The value of a card with the ace counted as one. *)
Definition hard_value (card : Z) : Z :=
  if card =? 1 then 1 else kelly_pyx.get_value card.

(** The entry points that consult the cache themselves. *)
Definition memoised (e : rd_pyx.entry_point) : bool :=
  match e with
  | rd_pyx.Distr_hit_stand _ _ _ | rd_pyx.Distr_hit_stand_double _ _ _ => false
  | _ => true
  end.

(** The probability [get_probability] gives to a deal, and its sum over
    the [13 * 13 * 13] deals that [get_distr] enumerates. *)
Definition deal_probability (distr : list Z) (card1 card2 card3 : Z) : Q :=
  match kelly_pyx.get_probability card1 card2 card3 distr with
  | Some (p, _) => p
  | None => 0%Q
  end.

Definition deal_probability_sum (distr : list Z) : Q :=
  fold_left
    (fun q card1 =>
       fold_left
         (fun q card2 =>
            fold_left
              (fun q card3 => (q + deal_probability distr card1 card2 card3)%Q)
              (range 1 14) q)
         (range 1 14) q)
    (range 1 14) 0%Q.

(** Partial correctness of a monadic computation: every result it
    returns satisfies [post]. *)
Definition pc {S A} (m : M S A) (st : S) (post : A -> S -> Prop) : Prop :=
  forall a st', m st = Some (a, st') -> post a st'.

(** [supported buckets d]: a 17-entry array of non-negative entries with
    no mass outside [buckets]. *)
Definition supported (buckets : list nat) (d : list Q) : Prop :=
  length d = 17%nat /\
  forall i, (i < 17)%nat ->
    (0 <= dget d i)%Q /\ (~ In i buckets -> (dget d i == 0)%Q).

(** The buckets of the payouts -1, 0 and +1, and of -2, 0 and +2. *)
Definition outcome_buckets : list nat := [6; 8; 10]%nat.
Definition doubled_buckets : list nat := [4; 8; 12]%nat.

(** Every cached distribution and the constants LOSE, TIE and WIN live on
    the three outcome buckets. *)
Definition outcomes_only (st : rd_pyx.RewardDistribution) : Prop :=
  (forall k d, rd_pyx.precomp_distr st !! k = Some d -> supported outcome_buckets d) /\
  supported outcome_buckets (rd_pyx.CONSTANT_TIE st) /\
  supported outcome_buckets (rd_pyx.CONSTANT_LOSE st) /\
  supported outcome_buckets (rd_pyx.CONSTANT_WIN st).

(** The entry points that play one hand by drawing cards: hit, stand and
    the better of the two. *)
Definition single_hand (e : rd_pyx.entry_point) : bool :=
  match e with
  | rd_pyx.Distr_hit _ _ _ | rd_pyx.Distr_stand _ _ _ _
  | rd_pyx.Distr_hit_stand _ _ _ => true
  | _ => false
  end.

(** After the one card of a double the dealer can still draw to
    completion. *)
Definition double_enough (shoe : list Z) (dealer_total : Z) : Prop :=
  2 <= dealer_total <= 11 /\
  19 - (dealer_total - 10 * rd_pyx.is_ace dealer_total)
  <= drawable shoe (rd_pyx.banned_value_of true dealer_total).

(** [within_one d]: no mass outside the payouts [-1 .. +1] (buckets 6..10). *)
Definition within_one (d : list Q) : Prop :=
  forall i, (i < 6 \/ 10 < i)%nat -> (dget d i == 0)%Q.

(** The cache keeps the actions apart by the last digit of the key, the
    mode: what is stored for hit and stand (modes 2, 3, 4) has no mass
    outside -1 .. +1, what is stored for double and blackjack (modes 1, 5)
    none outside -2 .. +2; the constants are where they belong. *)
Definition cache_modes (st : rd_pyx.RewardDistribution) : Prop :=
  (forall k d, rd_pyx.precomp_distr st !! k = Some d ->
     (k mod 10 <> 0 -> within_two d) /\ (2 <= k mod 10 <= 4 -> within_one d)) /\
  within_one (rd_pyx.CONSTANT_TIE st) /\
  within_one (rd_pyx.CONSTANT_LOSE st) /\
  within_one (rd_pyx.CONSTANT_WIN st) /\
  within_two (rd_pyx.CONSTANT_BLACKJACK st) /\
  (dsum (rd_pyx.CONSTANT_BLACKJACK st) == 1)%Q.

(** No entry is negative. *)
Definition nonneg (d : list Q) : Prop := forall i, (0 <= dget d i)%Q.

(** Non-negative mass within one stake, within two stakes. *)
Definition sub_one (d : list Q) : Prop := nonneg d /\ within_one d.
Definition sub_two (d : list Q) : Prop := nonneg d /\ within_two d.

(** Nothing stored is negative anywhere. *)
Definition cache_nonneg (st : rd_pyx.RewardDistribution) : Prop :=
  (forall k d, rd_pyx.precomp_distr st !! k = Some d -> nonneg d) /\
  nonneg (rd_pyx.CONSTANT_TIE st) /\
  nonneg (rd_pyx.CONSTANT_LOSE st) /\
  nonneg (rd_pyx.CONSTANT_WIN st) /\
  nonneg (rd_pyx.CONSTANT_BLACKJACK st).

(** A solver in good order: masses are one, the modes are kept apart and
    nothing is negative. *)
Definition good (st : rd_pyx.RewardDistribution) : Prop :=
  unit_mass st /\ cache_modes st /\ cache_nonneg st.

(** Enough cards to hit, stand or double the hand, on a shoe that is not
    empty. *)
Definition hit_stand_double_enough (shoe : list Z)
    (player_total player_aces dealer_total : Z) : Prop :=
  hit_enough shoe player_total player_aces dealer_total /\
  double_enough shoe dealer_total /\
  player_total <= 31.

(** Enough cards to play out each hand of a split. *)
Definition split_enough (shoe : list Z) (dealer_total : Z) : Prop :=
  2 <= dealer_total <= 11 /\
  39 <= drawable shoe (rd_pyx.banned_value_of true dealer_total).

(** [returns m st]: run from [st], the computation [m] returns. *)
Definition returns {S A} (m : M S A) (st : S) : Prop :=
  wp m st (fun _ _ => True).

(** Fuel that lets the dealer draw to completion from the hand
    [(dealer_total, dealer_aces)], whatever the shoe holds: a draw raises
    the hard total by one at least and the dealer stops above seventeen,
    a demotion spends a soft ace. *)
Definition stand_fuel (dealer_aces dealer_total : Z) : nat :=
  (2 * Z.to_nat (22 - (dealer_total - 10 * dealer_aces))
   + Z.to_nat dealer_aces + 1)%nat.

(** Fuel that lets the player hit from the hand [(player_total,
    player_aces)] until the hand is bust, whatever the shoe holds. *)
Definition hit_fuel (player_aces player_total : Z) : nat :=
  (3 * Z.to_nat (22 - (player_total - 10 * player_aces))
   + Z.to_nat player_aces + 1)%nat.

(** Fuel that suffices for every call that [get_distr] makes: the hands
    it deals have a hard total of two at least and one soft ace at most,
    against a dealer card. *)
Definition hand_fuel : nat := 120.


(** Two decks. *)
Definition double_deck : list Z := [0; 8; 8; 8; 8; 8; 8; 8; 8; 8; 8; 8; 8; 8].

(** A probability distribution over the 17 payout buckets. *)
Definition probabilities (d : list Q) : Prop :=
  (dsum d == 1)%Q /\ forall i, (i < 17)%nat -> (0 <= dget d i <= 1)%Q.

(** A rule set outside the supported envelope on all three counts. *)
Definition unsupported_rules : rd_pyx.rule_variation :=
  {| rd_pyx.HIT_SOFT_17 := false; rd_pyx.DEALER_PEEKS := false;
     rd_pyx.DOUBLE_AFTER_SPLIT := true; rd_pyx.HIT_AFTER_SPLIT_ACES := false;
     rd_pyx.BLACKJACK_WITH_SPLIT_ACES := false; rd_pyx.SPLIT_UNEVEN := false;
     rd_pyx.BLACKJACK_PAYOUT := 2; rd_pyx.SHOE_SIZE := 30 |}.

(** Concrete objects for the examples: the common rule set, a solver on
    the identity utility, a single deck, and two short shoes. *)
Definition example_rules : rd_pyx.rule_variation :=
  {| rd_pyx.HIT_SOFT_17 := false; rd_pyx.DEALER_PEEKS := true;
     rd_pyx.DOUBLE_AFTER_SPLIT := true; rd_pyx.HIT_AFTER_SPLIT_ACES := false;
     rd_pyx.BLACKJACK_WITH_SPLIT_ACES := false; rd_pyx.SPLIT_UNEVEN := false;
     rd_pyx.BLACKJACK_PAYOUT := 1.5; rd_pyx.SHOE_SIZE := 1 |}.

Definition example_solver (shoe : list Z) : rd_pyx.RewardDistribution :=
  {| rd_pyx.utility := map (fun i => ((inject_Z (Z.of_nat i) - 8) / 2)%Q) (seq 0 17);
     rd_pyx.card_distr := shoe;
     rd_pyx.precomp_distr := ∅;
     rd_pyx.CONSTANT_TIE := rd_pyx.constant_distr 0;
     rd_pyx.CONSTANT_LOSE := rd_pyx.constant_distr (-1);
     rd_pyx.CONSTANT_WIN := rd_pyx.constant_distr 1;
     rd_pyx.CONSTANT_BLACKJACK := rd_pyx.constant_distr 1.5 |}.

Definition single_deck : list Z := [0; 4; 4; 4; 4; 4; 4; 4; 4; 4; 4; 4; 4; 4].

(** One ace and one eight. *)
Definition ace_eight : list Z := [0; 1; 0; 0; 0; 0; 0; 0; 1; 0; 0; 0; 0; 0].

(** A single five. *)
Definition lone_five : list Z := [0; 0; 0; 0; 0; 1; 0; 0; 0; 0; 0; 0; 0; 0].

(** A single ace. *)
Definition lone_ace : list Z := [0; 1; 0; 0; 0; 0; 0; 0; 0; 0; 0; 0; 0; 0].

(** Fuel that suffices for a call on a shoe of [shoe_total] cards with
    [aces] soft aces in the hand. *)
Definition fuel_for (shoe : list Z) (aces : Z) : nat :=
  (3 * Z.to_nat (shoe_total shoe) + Z.to_nat aces + 4)%nat.

Import rd_pyx.

Lemma list17 {A} (l : list A) :
  length l = 17%nat ->
  exists a0 a1 a2 a3 a4 a5 a6 a7 a8 a9 a10 a11 a12 a13 a14 a15 a16,
    l = [a0; a1; a2; a3; a4; a5; a6; a7; a8; a9; a10; a11; a12; a13; a14; a15; a16].
Proof.
  intros H.
  do 17 (destruct l as [|? l]; [discriminate H|]).
  destruct l; [|discriminate H].
  repeat eexists.
Qed.

(** ** Machine integers *)

Lemma wrap_bits_id w x :
  0 < w -> - 2 ^ (w - 1) <= x < 2 ^ (w - 1) -> wrap_bits w x = x.
Proof.
  intros Hw Hx. unfold wrap_bits.
  assert (E : 2 ^ w = 2 * 2 ^ (w - 1)).
  { replace w with (Z.succ (w - 1)) at 1 by lia. apply Z.pow_succ_r. lia. }
  rewrite Z.mod_small; lia.
Qed.

Lemma int_wrap_id x : int_range x -> int_wrap x = x.
Proof. intros H. apply wrap_bits_id; [lia|exact H]. Qed.

Lemma long_wrap_id x : - 2 ^ 63 <= x < 2 ^ 63 -> long_wrap x = x.
Proof. intros H. apply wrap_bits_id; [lia|exact H]. Qed.

Lemma int128_wrap_id x : int128_range x -> int128_wrap x = x.
Proof. intros H. apply wrap_bits_id; [lia|exact H]. Qed.

Lemma int_wrap_range x : int_range (int_wrap x).
Proof.
  unfold int_range, int_wrap, wrap_bits.
  pose proof (Z.mod_pos_bound (x + 2 ^ (32 - 1)) (2 ^ 32) ltac:(lia)).
  change (2 ^ (32 - 1)) with (2 ^ 31) in *.
  change (2 ^ 32) with (2 * 2 ^ 31) in *. lia.
Qed.

Lemma int_wrap_le x : - 2 ^ 31 <= x -> int_wrap x <= x.
Proof.
  intros H. unfold int_wrap, wrap_bits.
  change (2 ^ (32 - 1)) with (2 ^ 31).
  pose proof (Z.mod_le (x + 2 ^ 31) (2 ^ 32) ltac:(lia) ltac:(lia)). lia.
Qed.

(** ** The state monad *)

Lemma wp_ret {S A} (a : A) (st : S) post : post a st -> wp (ret a) st post.
Proof. intros H. exists a, st. split; [reflexivity|exact H]. Qed.

Lemma wp_gets {S A} (f : S -> A) (st : S) post :
  post (f st) st -> wp (gets f) st post.
Proof. intros H. exists (f st), st. split; [reflexivity|exact H]. Qed.

Lemma wp_modify {S} (f : S -> S) (st : S) post :
  post tt (f st) -> wp (modify f) st post.
Proof. intros H. exists tt, (f st). split; [reflexivity|exact H]. Qed.

Lemma wp_bind {S A B} (m : M S A) (k : A -> M S B) (st : S) post :
  wp m st (fun a st' => wp (k a) st' post) -> wp (bind m k) st post.
Proof.
  intros (a & st' & Hm & b & st'' & Hk & Hpost).
  exists b, st''. split; [|exact Hpost].
  unfold bind. rewrite Hm. exact Hk.
Qed.

Lemma wp_mono {S A} (m : M S A) (st : S) (post post' : A -> S -> Prop) :
  wp m st post -> (forall a st', post a st' -> post' a st') -> wp m st post'.
Proof.
  intros (a & st' & Hm & Hp) Himp. exists a, st'. split; [exact Hm|auto].
Qed.

Lemma wp_inv {S A} (m : M S A) (st : S) post a st' :
  wp m st post -> m st = Some (a, st') -> post a st'.
Proof.
  intros (a0 & st0 & Hm & Hp) E. rewrite E in Hm. injection Hm as -> ->. exact Hp.
Qed.

(** Loop rule: the invariant is indexed by the elements still to visit. *)
Lemma wp_for_each {S A B} (inv : list B -> A -> S -> Prop)
    (xs : list B) (body : B -> A -> M S A) (acc : A) (st : S) post :
  inv xs acc st ->
  (forall x rest acc st,
      inv (x :: rest) acc st ->
      wp (body x acc) st (fun acc' st' => inv rest acc' st')) ->
  (forall acc st, inv [] acc st -> post acc st) ->
  wp (for_each xs body acc) st post.
Proof.
  intros Hinv Hbody Hpost.
  revert acc st Hinv. induction xs as [|x xs IH]; intros acc st Hinv; simpl.
  - apply wp_ret. auto.
  - apply wp_bind. eapply wp_mono; [apply Hbody; exact Hinv|].
    intros acc' st' H. apply IH. exact H.
Qed.

(** ** Shoes *)

Lemma list14 {A} (l : list A) :
  length l = 14%nat ->
  exists a0 a1 a2 a3 a4 a5 a6 a7 a8 a9 a10 a11 a12 a13,
    l = [a0; a1; a2; a3; a4; a5; a6; a7; a8; a9; a10; a11; a12; a13].
Proof.
  intros H.
  do 14 (destruct l as [|? l]; [discriminate H|]).
  destruct l; [|discriminate H].
  repeat eexists.
Qed.

Lemma card_cases card :
  1 <= card <= 13 ->
  card = 1 \/ card = 2 \/ card = 3 \/ card = 4 \/ card = 5 \/ card = 6 \/
  card = 7 \/ card = 8 \/ card = 9 \/ card = 10 \/ card = 11 \/ card = 12 \/
  card = 13.
Proof. lia. Qed.

Ltac each_card H :=
  let E := fresh "E" in
  pose proof (card_cases _ H) as E;
  repeat (destruct E as [E|E]; [subst|]); [..|subst].

Lemma range_1_14 : range 1 14 = [1; 2; 3; 4; 5; 6; 7; 8; 9; 10; 11; 12; 13].
Proof. reflexivity. Qed.

Lemma in_range lo hi card : In card (range lo hi) -> lo <= card < hi.
Proof.
  unfold range. intros H. apply in_map_iff in H as (i & <- & Hi).
  apply in_seq in Hi. lia.
Qed.

Ltac shoe_cbv :=
  unfold shoe_total, drawable in *;
  rewrite ?range_1_14 in *;
  cbv [shoe_total drawable shoe_get shoe_set fold_left nth Z.to_nat Pos.to_nat
       Pos.iter_op Nat.add insert list_insert] in *.

Lemma shoe_wf_total_nonneg shoe : shoe_wf shoe -> 0 <= shoe_total shoe.
Proof.
  intros [Hlen Hc].
  destruct (list14 shoe Hlen) as (a0&a1&a2&a3&a4&a5&a6&a7&a8&a9&a10&a11&a12&a13&->).
  pose proof (Hc 1 ltac:(lia)). pose proof (Hc 2 ltac:(lia)).
  pose proof (Hc 3 ltac:(lia)). pose proof (Hc 4 ltac:(lia)).
  pose proof (Hc 5 ltac:(lia)). pose proof (Hc 6 ltac:(lia)).
  pose proof (Hc 7 ltac:(lia)). pose proof (Hc 8 ltac:(lia)).
  pose proof (Hc 9 ltac:(lia)). pose proof (Hc 10 ltac:(lia)).
  pose proof (Hc 11 ltac:(lia)). pose proof (Hc 12 ltac:(lia)).
  pose proof (Hc 13 ltac:(lia)).
  clear Hc Hlen. shoe_cbv. lia.
Qed.

(** Taking one card out and putting it back. *)
Lemma shoe_restore shoe card :
  shoe_wf shoe -> 1 <= card <= 13 -> 1 <= shoe_get shoe card ->
  let shoe' := shoe_set shoe card (int_sub (shoe_get shoe card) 1) in
  shoe_set shoe' card (int_add (shoe_get shoe' card) 1) = shoe.
Proof.
  intros [Hlen Hc] Hcard Hpos. specialize (Hc card Hcard).
  unfold int_sub, int_add. rewrite int_wrap_id by (unfold int_range; lia).
  cbv zeta. unfold shoe_set, shoe_get in *.
  assert (Hi : (Z.to_nat card < length shoe)%nat) by lia.
  rewrite nth_lookup, list_lookup_insert_eq by exact Hi. simpl.
  rewrite int_wrap_id by (unfold int_range; lia).
  rewrite list_insert_insert_eq.
  apply list_insert_id.
  replace (nth (Z.to_nat card) shoe 0 - 1 + 1) with (nth (Z.to_nat card) shoe 0) by lia.
  rewrite nth_lookup. destruct (lookup_lt_is_Some_2 shoe _ Hi) as [v ->].
  reflexivity.
Qed.

Lemma shoe_take_wf shoe card :
  shoe_wf shoe -> 1 <= card <= 13 -> 1 <= shoe_get shoe card ->
  shoe_wf (shoe_set shoe card (int_sub (shoe_get shoe card) 1)).
Proof.
  intros [Hlen Hc] Hcard Hpos.
  unfold int_sub. rewrite int_wrap_id
    by (pose proof (Hc card Hcard); unfold int_range; lia).
  split.
  - unfold shoe_set. rewrite length_insert. exact Hlen.
  - intros c Hcr. unfold shoe_set, shoe_get.
    destruct (decide (Z.to_nat card = Z.to_nat c)) as [E|E].
    + rewrite E, nth_lookup, list_lookup_insert_eq by lia. simpl.
      assert (c = card) by lia. subst c.
      specialize (Hc card Hcard). unfold shoe_get in *. lia.
    + rewrite nth_lookup, list_lookup_insert_ne by exact E.
      rewrite <- nth_lookup. apply (Hc c Hcr).
Qed.

Lemma shoe_take_total shoe card :
  shoe_wf shoe -> 1 <= card <= 13 -> 1 <= shoe_get shoe card ->
  shoe_total (shoe_set shoe card (int_sub (shoe_get shoe card) 1))
  = shoe_total shoe - 1.
Proof.
  intros [Hlen Hc] Hcard Hpos.
  unfold int_sub. rewrite int_wrap_id
    by (pose proof (Hc card Hcard); unfold int_range; lia).
  destruct (list14 shoe Hlen) as (a0&a1&a2&a3&a4&a5&a6&a7&a8&a9&a10&a11&a12&a13&->).
  clear Hc Hpos Hlen.
  each_card Hcard; shoe_cbv; lia.
Qed.

(** ** Draw probabilities *)

Lemma Qlt_bool_iff x y : Qlt_bool x y = true <-> (x < y)%Q.
Proof.
  unfold Qlt_bool. rewrite negb_true_iff.
  split.
  - intros H. apply Qnot_le_lt. intros Hle.
    apply Qle_bool_iff in Hle. congruence.
  - intros H. destruct (Qle_bool y x) eqn:E; [|reflexivity].
    apply Qle_bool_iff in E. exfalso. exact (Qlt_not_le _ _ H E).
Qed.

Lemma Zsum_shift (f : Z -> Z) l n :
  fold_left (fun n c => n + f c) l n = n + fold_left (fun n c => n + f c) l 0.
Proof.
  revert n. induction l as [|x l IH]; intros n; simpl; [lia|].
  rewrite IH, (IH (0 + f x)). lia.
Qed.

Lemma Zsum_nonneg (f : Z -> Z) l :
  (forall c, In c l -> 0 <= f c) -> 0 <= fold_left (fun n c => n + f c) l 0.
Proof.
  induction l as [|x l IH]; intros H; simpl; [lia|].
  rewrite Zsum_shift.
  pose proof (H x (or_introl eq_refl)).
  pose proof (IH (fun c Hc => H c (or_intror Hc))). lia.
Qed.

Lemma Zsum_ge_term (f : Z -> Z) l c :
  (forall c, In c l -> 0 <= f c) -> In c l ->
  f c <= fold_left (fun n c => n + f c) l 0.
Proof.
  induction l as [|x l IH]; intros H Hin; simpl; [destruct Hin|].
  rewrite Zsum_shift.
  pose proof (H x (or_introl eq_refl)).
  pose proof (Zsum_nonneg f l (fun c Hc => H c (or_intror Hc))).
  destruct Hin as [->|Hin]; [lia|].
  pose proof (IH (fun c Hc => H c (or_intror Hc)) Hin). lia.
Qed.

Lemma Zsum_le (f g : Z -> Z) l :
  (forall c, In c l -> f c <= g c) ->
  fold_left (fun n c => n + f c) l 0 <= fold_left (fun n c => n + g c) l 0.
Proof.
  induction l as [|x l IH]; intros H; simpl; [lia|].
  rewrite (Zsum_shift f), (Zsum_shift g).
  pose proof (H x (or_introl eq_refl)).
  pose proof (IH (fun c Hc => H c (or_intror Hc))). lia.
Qed.

Lemma get_value_bounds card : 1 <= card -> 2 <= get_value card <= 11.
Proof.
  intros H. unfold get_value.
  destruct (card =? 1) eqn:E1; [lia|].
  destruct (card <? 10) eqn:E2; lia.
Qed.

Lemma valid_count_bounds shoe b card :
  shoe_wf shoe -> 1 <= card <= 13 ->
  0 <= valid_count shoe b card <= shoe_get shoe card.
Proof.
  intros [_ Hc] Hcard. specialize (Hc card Hcard).
  unfold valid_count. destruct (b =? get_value card); lia.
Qed.

Lemma valid_count_0 shoe card :
  1 <= card -> valid_count shoe 0 card = shoe_get shoe card.
Proof.
  intros H. unfold valid_count.
  pose proof (get_value_bounds card H).
  destruct (0 =? get_value card) eqn:E; [lia|reflexivity].
Qed.

Lemma drawable_nonneg shoe b : shoe_wf shoe -> 0 <= drawable shoe b.
Proof.
  intros H. apply Zsum_nonneg. intros c Hc.
  apply in_range in Hc. apply valid_count_bounds; [exact H|lia].
Qed.

Lemma drawable_ge_count shoe b card :
  shoe_wf shoe -> 1 <= card <= 13 -> valid_count shoe b card <= drawable shoe b.
Proof.
  intros H Hc. apply (Zsum_ge_term (valid_count shoe b)).
  - intros c Hin. apply in_range in Hin.
    apply valid_count_bounds; [exact H|lia].
  - rewrite range_1_14. each_card Hc; simpl; tauto.
Qed.

Lemma drawable_le_total shoe b : shoe_wf shoe -> drawable shoe b <= shoe_total shoe.
Proof.
  intros H. apply (Zsum_le (valid_count shoe b) (shoe_get shoe)).
  intros c Hin. apply in_range in Hin.
  apply valid_count_bounds; [exact H|lia].
Qed.

Lemma drawable_0 shoe : drawable shoe 0 = shoe_total shoe.
Proof.
  unfold drawable, shoe_total. rewrite range_1_14. simpl.
  rewrite !valid_count_0 by lia. reflexivity.
Qed.

Lemma shoe_total_ge_count shoe card :
  shoe_wf shoe -> 1 <= card <= 13 -> shoe_get shoe card <= shoe_total shoe.
Proof.
  intros Hwf Hc. rewrite <- drawable_0, <- (valid_count_0 shoe card) by lia.
  apply drawable_ge_count; assumption.
Qed.

Lemma valid_card_distr_count st b card :
  (valid_card_distr st b card == inject_Z (valid_count (rd_pyx.card_distr st) b card))%Q.
Proof.
  unfold valid_card_distr, valid_count.
  destruct (b =? get_value card); reflexivity.
Qed.

Lemma cards_left_drawable st b :
  (cards_left st b == inject_Z (drawable (rd_pyx.card_distr st) b))%Q.
Proof.
  unfold cards_left, drawable.
  assert (G : forall l q n, (q == inject_Z n)%Q ->
    (fold_left (fun q i => q + valid_card_distr st b i) l q
     == inject_Z (fold_left (fun n c => (n + valid_count (rd_pyx.card_distr st) b c)%Z) l n))%Q).
  { induction l as [|x l IH]; intros q n E; simpl; [exact E|].
    apply IH. rewrite inject_Z_plus, E, valid_card_distr_count. reflexivity. }
  apply G. reflexivity.
Qed.

Lemma card_probability_count st b card :
  (card_probability st card b
   == inject_Z (valid_count (rd_pyx.card_distr st) b card)
      / inject_Z (drawable (rd_pyx.card_distr st) b))%Q.
Proof.
  unfold card_probability.
  rewrite valid_card_distr_count, cards_left_drawable. reflexivity.
Qed.

Lemma card_probability_pos st b card :
  shoe_wf (rd_pyx.card_distr st) -> 1 <= card <= 13 ->
  ((0 < card_probability st card b)%Q
   <-> 1 <= valid_count (rd_pyx.card_distr st) b card).
Proof.
  intros Hwf Hc.
  pose proof (valid_count_bounds _ b card Hwf Hc) as Hv.
  pose proof (drawable_ge_count _ b card Hwf Hc) as Hd.
  rewrite card_probability_count.
  split.
  - intros Hp.
    destruct (Z.eq_dec (valid_count (rd_pyx.card_distr st) b card) 0) as [E|E]; [|lia].
    rewrite E in Hp. exfalso. revert Hp.
    unfold Qdiv. rewrite Qmult_0_l. apply Qlt_irrefl.
  - intros H1. apply Qlt_shift_div_l.
    + change 0%Q with (inject_Z 0). rewrite <- Zlt_Qlt. lia.
    + rewrite Qmult_0_l. change 0%Q with (inject_Z 0). rewrite <- Zlt_Qlt. lia.
Qed.

Lemma card_probability_nonneg st b card :
  shoe_wf (rd_pyx.card_distr st) -> 1 <= card <= 13 ->
  (0 <= card_probability st card b)%Q.
Proof.
  intros Hwf Hc.
  pose proof (valid_count_bounds _ b card Hwf Hc) as Hv.
  destruct (Z.eq_dec (valid_count (rd_pyx.card_distr st) b card) 0) as [E|E].
  - rewrite card_probability_count, E. unfold Qdiv. rewrite Qmult_0_l.
    apply Qle_refl.
  - apply Qlt_le_weak. apply card_probability_pos; [exact Hwf|exact Hc|lia].
Qed.

Lemma draw_weight_eq st b card :
  shoe_wf (rd_pyx.card_distr st) -> 1 <= card <= 13 ->
  (draw_weight st b card == card_probability st card b)%Q.
Proof.
  intros Hwf Hc. unfold draw_weight. cbv zeta.
  destruct (Qlt_bool 0 (card_probability st card b)) eqn:E; [reflexivity|].
  apply Qle_antisym; [apply card_probability_nonneg; assumption|].
  apply Qnot_lt_le. intros H. apply Qlt_bool_iff in H. congruence.
Qed.

Lemma drawable_unfold shoe b :
  drawable shoe b
  = fold_left (fun n c => n + valid_count shoe b c) (range 1 14) 0.
Proof. unfold drawable. reflexivity. Qed.

Lemma draw_weights_count st b l q n :
  shoe_wf (rd_pyx.card_distr st) ->
  (forall c, In c l -> 1 <= c <= 13) ->
  1 <= drawable (rd_pyx.card_distr st) b ->
  (q == inject_Z n / inject_Z (drawable (rd_pyx.card_distr st) b))%Q ->
  (fold_left (fun q c => q + draw_weight st b c) l q
   == inject_Z (fold_left (fun n c => (n + valid_count (rd_pyx.card_distr st) b c)%Z) l n)
      / inject_Z (drawable (rd_pyx.card_distr st) b))%Q.
Proof.
  intros Hwf Hl Hd. revert q n.
  assert (HD0 : ~ (inject_Z (drawable (rd_pyx.card_distr st) b) == 0)%Q).
  { change 0%Q with (inject_Z 0). rewrite inject_Z_injective. lia. }
  induction l as [|x l IH]; intros q n E; simpl; [exact E|].
  apply IH; [intros c Hc; apply Hl; right; exact Hc|].
  rewrite E, draw_weight_eq, card_probability_count, inject_Z_plus
    by (try exact Hwf; apply Hl; left; reflexivity).
  field. exact HD0.
Qed.

(** The weights of a full round of draws add up to one as soon as one
    card can be drawn. *)
Lemma draw_weights_full st b :
  shoe_wf (rd_pyx.card_distr st) ->
  1 <= drawable (rd_pyx.card_distr st) b ->
  (draw_weights st b (range 1 14) == 1)%Q.
Proof.
  intros Hwf Hd. unfold draw_weights.
  rewrite (draw_weights_count st b (range 1 14) 0%Q 0 Hwf).
  - rewrite <- drawable_unfold.
    apply Qmult_inv_r.
    change 0%Q with (inject_Z 0). rewrite inject_Z_injective. lia.
  - intros c Hc. apply in_range in Hc. lia.
  - exact Hd.
  - unfold Qdiv. rewrite Qmult_0_l. reflexivity.
Qed.

(** ** Distributions *)

Lemma fold_insert_length {A} (f : list A -> nat -> A) (idx : list nat) (d : list A) :
  length (fold_left (fun d i => <[i := f d i]> d) idx d) = length d.
Proof.
  revert d. induction idx as [|i idx IH]; intros d; simpl; [reflexivity|].
  rewrite IH. apply length_insert.
Qed.

Lemma add_length d1 d2 s : length (add d1 d2 s) = length d1.
Proof.
  unfold add.
  apply (fold_insert_length (fun d i => (dget d i + s * dget d2 i)%Q)).
Qed.

Lemma dsum_add d1 d2 s :
  length d1 = 17%nat -> (dsum (add d1 d2 s) == dsum d1 + s * dsum d2)%Q.
Proof.
  intros Hlen.
  destruct (list17 d1 Hlen)
    as (a0&a1&a2&a3&a4&a5&a6&a7&a8&a9&a10&a11&a12&a13&a14&a15&a16&->).
  unfold add, dsum. generalize (dget d2). intros g.
  cbv [fold_left seq dget nth insert list_insert]. ring.
Qed.

Lemma empty_distr_length : length empty_distr = 17%nat.
Proof. reflexivity. Qed.

Lemma dsum_empty_distr : (dsum empty_distr == 0)%Q.
Proof. reflexivity. Qed.

(** ** Frames *)

Lemma frame_refl st : frame st st.
Proof. destruct st; reflexivity. Qed.

Lemma frame_trans st1 st2 st3 : frame st1 st2 -> frame st2 st3 -> frame st1 st3.
Proof. unfold frame. intros <- <-. reflexivity. Qed.

Lemma frame_card_distr st st' :
  frame st st' -> rd_pyx.card_distr st' = rd_pyx.card_distr st.
Proof. intros <-. reflexivity. Qed.

Lemma frame_store st st' h d :
  frame st st' ->
  frame st (with_precomp_distr st' (<[h := d]> (precomp_distr st'))).
Proof. intros <-. reflexivity. Qed.

Lemma frame_take_back st st' card :
  shoe_wf (rd_pyx.card_distr st) -> 1 <= card <= 13 ->
  1 <= shoe_get (rd_pyx.card_distr st) card ->
  frame (take card st) st' ->
  frame st
    (with_card_distr st'
       (shoe_set (rd_pyx.card_distr st') card
                 (int_add (shoe_get (rd_pyx.card_distr st') card) 1))).
Proof.
  intros Hwf Hc Hpos <-. unfold take, frame. simpl.
  rewrite (shoe_restore _ _ Hwf Hc Hpos).
  destruct st; reflexivity.
Qed.

Lemma card_probability_frame st st' card b :
  frame st st' -> card_probability st' card b = card_probability st card b.
Proof. intros <-. reflexivity. Qed.

Lemma take_wf st card :
  shoe_wf (rd_pyx.card_distr st) -> 1 <= card <= 13 ->
  1 <= shoe_get (rd_pyx.card_distr st) card ->
  shoe_wf (rd_pyx.card_distr (take card st)).
Proof. intros. apply shoe_take_wf; assumption. Qed.

Lemma draw_weights_snoc st b done x :
  draw_weights st b (done ++ [x]) = (draw_weights st b done + draw_weight st b x)%Q.
Proof. unfold draw_weights. rewrite fold_left_app. reflexivity. Qed.

(** ** The draw loop *)

Section DrawLoop.

Variable J : rd_pyx.RewardDistribution -> Prop.
Hypothesis J_shoe : forall st v, J st -> J (with_card_distr st v).

Variable b : Z.
Variable sub : Z -> M rd_pyx.RewardDistribution (list Q).

Lemma draw_loop_spec cards acc st :
  shoe_wf (rd_pyx.card_distr st) ->
  (forall c, In c cards -> 1 <= c <= 13) ->
  length acc = 17%nat ->
  (forall c st_i,
      In c cards -> frame st st_i ->
      1 <= valid_count (rd_pyx.card_distr st) b c ->
      wp (sub c) (take c st_i)
         (fun d st' => frame (take c st_i) st' /\ (J st_i -> J st' /\ (dsum d == 1)%Q))) ->
  wp (for_each cards (draw_body b sub) acc) st
     (fun acc' st' =>
        frame st st' /\ length acc' = 17%nat /\
        (J st -> J st' /\ (dsum acc' == dsum acc + draw_weights st b cards)%Q)).
Proof.
  intros Hwf Hcards Hlen Hsub.
  apply (wp_for_each
    (fun rest acc_i st_i =>
       exists done, cards = done ++ rest /\ frame st st_i /\
         length acc_i = 17%nat /\
         (J st -> J st_i /\ (dsum acc_i == dsum acc + draw_weights st b done)%Q))).
  - exists []. split; [reflexivity|]. split; [apply frame_refl|].
    split; [exact Hlen|]. intros HJ. split; [exact HJ|].
    unfold draw_weights. simpl. ring.
  - intros x rest acc_i st_i (done & Hsplit & Hfr & Hlen_i & HJ).
    assert (Hx : In x cards).
    { rewrite Hsplit. apply in_or_app. right. left. reflexivity. }
    assert (Hsnoc : cards = (done ++ [x]) ++ rest).
    { rewrite <- app_assoc. exact Hsplit. }
    pose proof (Hcards x Hx) as Hxr.
    unfold draw_body. apply wp_bind, wp_gets.
    rewrite (card_probability_frame _ _ _ _ Hfr).
    destruct (Qlt_bool 0 (card_probability st x b)) eqn:Ep.
    + assert (Hv : 1 <= valid_count (rd_pyx.card_distr st) b x).
      { apply card_probability_pos; [exact Hwf|exact Hxr|].
        apply Qlt_bool_iff. exact Ep. }
      assert (Hg : 1 <= shoe_get (rd_pyx.card_distr st_i) x).
      { rewrite (frame_card_distr _ _ Hfr).
        pose proof (valid_count_bounds _ b x Hwf Hxr). lia. }
      assert (Hwf_i : shoe_wf (rd_pyx.card_distr st_i)).
      { rewrite (frame_card_distr _ _ Hfr). exact Hwf. }
      apply wp_bind, wp_modify. fold (take x st_i).
      apply wp_bind. eapply wp_mono; [apply (Hsub x st_i Hx Hfr Hv)|].
      intros d st' [Hfr' Hd]. cbv zeta.
      apply wp_bind, wp_modify, wp_ret.
      exists (done ++ [x]). split; [exact Hsnoc|].
      split.
      { eapply frame_trans; [exact Hfr|].
        apply frame_take_back; assumption. }
      split; [rewrite add_length; exact Hlen_i|].
      intros HJ0. destruct (HJ HJ0) as [HJi Hsum].
      destruct (Hd HJi) as [HJ' Hd1].
      split; [apply J_shoe; exact HJ'|].
      rewrite dsum_add by exact Hlen_i.
      rewrite draw_weights_snoc, Hsum, Hd1.
      unfold draw_weight. cbv zeta. rewrite Ep. ring.
    + apply wp_ret. exists (done ++ [x]). split; [exact Hsnoc|].
      split; [exact Hfr|]. split; [exact Hlen_i|].
      intros HJ0. destruct (HJ HJ0) as [HJi Hsum].
      split; [exact HJi|].
      rewrite draw_weights_snoc, Hsum.
      unfold draw_weight. cbv zeta. rewrite Ep. ring.
  - intros acc' st' (done & Hsplit & Hfr & Hlen' & HJ).
    rewrite app_nil_r in Hsplit. subst done. auto.
Qed.

End DrawLoop.

(** ** [distr_stand] *)

Section SolverProofs.

Variable rules : rule_variation.

Lemma distr_stand_S fuel player_total dealer_aces dealer_total first_call :
  distr_stand rules (S fuel) player_total dealer_aces dealer_total first_call
  = if player_total >? 21 then gets CONSTANT_LOSE
    else if dealer_total >? 21 then
      if dealer_aces >? 0 then
        distr_stand rules fuel player_total (int_sub dealer_aces 1)
                    (int_sub dealer_total 10) false
      else gets CONSTANT_WIN
    else if (dealer_total >? 17)
            || ((dealer_total =? 17)
                && ((dealer_aces =? 0) || negb (HIT_SOFT_17 rules))) then
      if dealer_total =? player_total then gets CONSTANT_TIE
      else if dealer_total >? player_total then gets CONSTANT_LOSE
      else gets CONSTANT_WIN
    else
      state_hash <- gets (fun self =>
        get_state_hash self player_total dealer_aces dealer_total
                       (if first_call then 3 else 4)) ;;
      hit <- gets (fun self => precomputed_distr self state_hash) ;;
      if (hit : bool) then gets (fun self => precomp_distr_at self state_hash)
      else
        distr <-
          for_each (range 1 14)
            (draw_body (banned_value_of first_call dealer_total)
               (fun card =>
                  distr_stand rules fuel player_total
                    (int_add dealer_aces (is_ace (get_value card)))
                    (int_add dealer_total (get_value card)) false))
            empty_distr ;;
        precomp_distr_store state_hash distr ;;;
        ret distr.
Proof. reflexivity. Qed.

Lemma unit_mass_shoe st v : unit_mass st -> unit_mass (with_card_distr st v).
Proof. intros H. exact H. Qed.

Lemma unit_mass_store st h d :
  unit_mass st -> (dsum d == 1)%Q ->
  unit_mass (with_precomp_distr st (<[h := d]> (precomp_distr st))).
Proof.
  intros (Hc & Ht & Hl & Hw) Hd. split; [|auto].
  intros k d0. simpl. rewrite lookup_insert.
  destruct (decide (h = k)) as [->|Hne].
  - intros [= <-]. exact Hd.
  - apply Hc.
Qed.

Lemma is_ace_get_value card :
  1 <= card <= 13 ->
  (card = 1 /\ get_value card = 11 /\ is_ace (get_value card) = 1) \/
  (card <> 1 /\ 2 <= get_value card <= 10 /\ is_ace (get_value card) = 0).
Proof.
  intros H. unfold is_ace, get_value.
  destruct (card =? 1) eqn:E1; [left; split; [lia|split; reflexivity]|].
  right. destruct (card <? 10) eqn:E2.
  - destruct (card =? 11) eqn:E3; lia.
  - simpl. lia.
Qed.

Lemma drawable_take shoe b card :
  shoe_wf shoe -> 1 <= card <= 13 -> 1 <= valid_count shoe b card ->
  drawable shoe b - 1
  <= drawable (shoe_set shoe card (int_sub (shoe_get shoe card) 1)) 0.
Proof.
  intros Hwf Hc Hv.
  pose proof (valid_count_bounds shoe b card Hwf Hc).
  rewrite drawable_0, shoe_take_total by (try assumption; lia).
  pose proof (drawable_le_total shoe b Hwf). lia.
Qed.

Lemma stand_enough_draw shoe da dt fc card :
  shoe_wf shoe -> 1 <= card <= 13 ->
  1 <= valid_count shoe (banned_value_of fc dt) card ->
  dt <= 17 ->
  stand_enough shoe da dt fc ->
  stand_enough (shoe_set shoe card (int_sub (shoe_get shoe card) 1))
               (int_add da (is_ace (get_value card)))
               (int_add dt (get_value card)) false.
Proof.
  intros Hwf Hc Hv Hdt [(Ha & Hh & Hr) He].
  pose proof (drawable_take shoe _ card Hwf Hc Hv) as Hd.
  unfold stand_enough, hand_ok, int_add. simpl banned_value_of.
  destruct (is_ace_get_value card Hc) as [(_ & Hg & Hi)|(_ & Hg & Hi)];
    rewrite Hi in *; rewrite !int_wrap_id by (unfold int_range; lia); lia.
Qed.

Lemma stand_enough_soft shoe da dt fc :
  shoe_wf shoe -> 21 < dt -> 0 < da ->
  stand_enough shoe da dt fc ->
  stand_enough shoe (int_sub da 1) (int_sub dt 10) false.
Proof.
  intros Hwf Hdt Hda [(Ha & Hh & Hr) He].
  pose proof (drawable_le_total shoe (banned_value_of fc dt) Hwf).
  unfold stand_enough, hand_ok, int_sub. simpl banned_value_of.
  rewrite drawable_0.
  rewrite !int_wrap_id by (unfold int_range; lia). lia.
Qed.

Lemma to_nat_int_add a x :
  int_range a -> 0 <= x <= 1 ->
  (Z.to_nat (int_add a x) <= Z.to_nat a + 1)%nat.
Proof.
  intros Ha Hx. unfold int_add.
  pose proof (int_wrap_le (a + x) ltac:(unfold int_range in Ha; lia)). lia.
Qed.

Lemma is_ace_01 v : 0 <= is_ace v <= 1.
Proof. unfold is_ace. destruct (v =? 11); lia. Qed.

Lemma distr_stand_spec fuel :
  forall player_total dealer_aces dealer_total first_call st,
    shoe_wf (card_distr st) -> int_range dealer_aces ->
    (2 * Z.to_nat (shoe_total (card_distr st)) + Z.to_nat dealer_aces + 1
     <= fuel)%nat ->
    wp (distr_stand rules fuel player_total dealer_aces dealer_total first_call)
       st (stand_post st player_total dealer_aces dealer_total first_call).
Proof.
  induction fuel as [|fuel IH]; intros pt da dt fc st Hwf Hda Hfuel; [lia|].
  rewrite distr_stand_S.
  destruct (pt >? 21) eqn:Ept.
  { apply wp_gets. split; [apply frame_refl|].
    intros Hu _. split; [exact Hu|apply Hu]. }
  destruct (dt >? 21) eqn:Edt.
  { destruct (da >? 0) eqn:Eda.
    - assert (Hda' : int_sub da 1 = da - 1).
      { apply int_wrap_id. unfold int_range in *. lia. }
      eapply wp_mono.
      + apply IH; [exact Hwf|apply int_wrap_range|rewrite Hda'; lia].
      + intros d st' [Hfr Hs]. split; [exact Hfr|].
        intros Hu [Hp|He]; [lia|].
        apply Hs; [exact Hu|]. right.
        apply (stand_enough_soft _ _ _ fc); [exact Hwf|lia|lia|exact He].
    - apply wp_gets. split; [apply frame_refl|].
      intros Hu _. split; [exact Hu|apply Hu]. }
  destruct ((dt >? 17) || ((dt =? 17) && ((da =? 0) || negb (HIT_SOFT_17 rules))))
    eqn:Estand.
  { destruct (dt =? pt); [|destruct (dt >? pt)];
      (apply wp_gets; split; [apply frame_refl|];
       intros Hu _; split; [exact Hu|apply Hu]). }
  assert (Hdt17 : dt <= 17).
  { apply orb_false_iff in Estand. lia. }
  apply wp_bind, wp_gets. apply wp_bind, wp_gets.
  unfold precomputed_distr, precomp_distr_at.
  set (h := get_state_hash st pt da dt (if fc then 3 else 4)).
  destruct (precomp_distr st !! h) as [d|] eqn:Ecache.
  { apply wp_gets. cbv beta. rewrite Ecache. split; [apply frame_refl|].
    intros Hu _. split; [exact Hu|].
    destruct Hu as [Hc _]. apply (Hc h). exact Ecache. }
  apply wp_bind.
  set (E := stand_enough (card_distr st) da dt fc).
  eapply wp_mono.
  - apply (draw_loop_spec (fun s => unit_mass s /\ E)).
    + intros s v [Hu He]. split; [exact Hu|exact He].
    + exact Hwf.
    + intros c Hc. apply in_range in Hc. lia.
    + apply empty_distr_length.
    + intros c st_i Hc Hfr Hv. apply in_range in Hc.
      assert (Hg : 1 <= shoe_get (card_distr st) c).
      { pose proof (valid_count_bounds _ (banned_value_of fc dt) c Hwf
                      ltac:(lia)). lia. }
      assert (Hcd : card_distr st_i = card_distr st) by
        (apply frame_card_distr; exact Hfr).
      assert (Htot : shoe_total (card_distr (take c st_i))
                     = shoe_total (card_distr st) - 1).
      { unfold take. simpl. rewrite Hcd. apply shoe_take_total; [exact Hwf|lia|exact Hg]. }
      eapply wp_mono.
      * apply IH.
        -- unfold take. simpl. rewrite Hcd. apply shoe_take_wf; [exact Hwf|lia|exact Hg].
        -- apply int_wrap_range.
        -- rewrite Htot.
           pose proof (to_nat_int_add da (is_ace (get_value c)) Hda (is_ace_01 _)).
           pose proof (shoe_total_ge_count _ c Hwf ltac:(lia)).
           lia.
      * intros d st' [Hfr' Hs]. split; [exact Hfr'|].
        intros [Hu He]. 
        destruct Hs as [Hu' Hd1].
        -- exact Hu.
        -- right. unfold take. simpl. rewrite Hcd.
           apply (stand_enough_draw _ _ _ fc); [exact Hwf|lia|exact Hv|exact Hdt17|exact He].
        -- split; [split; [exact Hu'|exact He]|exact Hd1].
  - intros distr st' (Hfr & Hlen & Hsum).
    apply wp_bind, wp_modify, wp_ret.
    split; [apply frame_store; exact Hfr|].
    intros Hu [Hp|He]; [lia|].
    destruct Hsum as [[Hu' _] Hd]; [split; [exact Hu|exact He]|].
    assert (Hd1 : (dsum distr == 1)%Q).
    { rewrite Hd, dsum_empty_distr, draw_weights_full; [reflexivity|exact Hwf|].
      destruct He as [(Ha & Hh & _) He]. lia. }
    split; [|exact Hd1].
    apply unit_mass_store; assumption.
Qed.

(** ** [distr_hit] and [distr_hit_stand] *)

Lemma distr_hit_S fuel player_total player_aces dealer_total :
  distr_hit rules (S fuel) player_total player_aces dealer_total
  = if player_total >? 21 then
      if player_aces >? 0 then
        distr_hit rules fuel (int_sub player_total 10) (int_sub player_aces 1)
                  dealer_total
      else gets CONSTANT_LOSE
    else
      state_hash <- gets (fun self =>
        get_state_hash self player_total player_aces dealer_total 2) ;;
      hit <- gets (fun self => precomputed_distr self state_hash) ;;
      if (hit : bool) then gets (fun self => precomp_distr_at self state_hash)
      else
        distr <-
          for_each (range 1 14)
            (draw_body 0
               (fun card =>
                  distr_hit_stand rules fuel
                    (int_add player_total (get_value card))
                    (int_add player_aces (is_ace (get_value card)))
                    dealer_total))
            empty_distr ;;
        precomp_distr_store state_hash distr ;;;
        ret distr.
Proof. reflexivity. Qed.

Lemma distr_hit_stand_S fuel player_total player_aces dealer_total :
  distr_hit_stand rules (S fuel) player_total player_aces dealer_total
  = let '(player_total, player_aces) :=
      if (player_total >? 21) && (player_aces >? 0)
      then (int_sub player_total 10, int_sub player_aces 1)
      else (player_total, player_aces) in
    distr_hit' <- distr_hit rules fuel player_total player_aces dealer_total ;;
    distr_stand' <- distr_stand rules fuel player_total (is_ace dealer_total)
                      dealer_total true ;;
    self <- gets (fun self => self) ;;
    ret (if Qlt_bool (distribution_value self distr_stand')
                     (distribution_value self distr_hit')
         then distr_hit' else distr_stand').
Proof. reflexivity. Qed.

Lemma drawable_take_ge shoe b card :
  shoe_wf shoe -> 1 <= card <= 13 -> 1 <= shoe_get shoe card ->
  drawable shoe b - 1
  <= drawable (shoe_set shoe card (int_sub (shoe_get shoe card) 1)) b.
Proof.
  intros [Hlen Hc] Hcard Hpos.
  unfold int_sub. rewrite int_wrap_id
    by (pose proof (Hc card Hcard); unfold int_range; lia).
  destruct (list14 shoe Hlen) as (a0&a1&a2&a3&a4&a5&a6&a7&a8&a9&a10&a11&a12&a13&->).
  clear Hc Hpos Hlen.
  each_card Hcard;
    match goal with
    | |- context [shoe_set _ ?c _] =>
        let v := eval vm_compute in (get_value c) in
        shoe_cbv; unfold valid_count;
        cbv [shoe_get nth Z.to_nat Pos.to_nat Pos.iter_op Nat.add];
        repeat match goal with
               | |- context [get_value ?c'] =>
                   let v' := eval vm_compute in (get_value c') in
                   change (get_value c') with v'
               end;
        destruct (b =? v)
    end; lia.
Qed.

Lemma hit_enough_soft shoe pt pa dt :
  21 < pt -> 0 < pa ->
  hit_enough shoe pt pa dt ->
  hit_enough shoe (int_sub pt 10) (int_sub pa 1) dt.
Proof.
  intros Hpt Hpa [(Ha & Hh & Hr) [Hdt He]].
  unfold hit_enough, hand_ok, int_sub.
  rewrite !int_wrap_id by (unfold int_range; lia). lia.
Qed.

Lemma hit_enough_draw shoe pt pa dt card :
  shoe_wf shoe -> 1 <= card <= 13 -> 1 <= shoe_get shoe card ->
  pt <= 21 ->
  hit_enough shoe pt pa dt ->
  hit_enough (shoe_set shoe card (int_sub (shoe_get shoe card) 1))
             (int_add pt (get_value card))
             (int_add pa (is_ace (get_value card))) dt.
Proof.
  intros Hwf Hc Hg Hpt [(Ha & Hh & Hr) [Hdt He]].
  pose proof (drawable_take_ge shoe (banned_value_of true dt) card Hwf Hc Hg) as Hd.
  unfold hit_enough, hand_ok, int_add.
  destruct (is_ace_get_value card Hc) as [(_ & Hv & Hi)|(_ & Hv & Hi)];
    rewrite Hi in *; rewrite !int_wrap_id by (unfold int_range; lia); lia.
Qed.

Lemma hit_enough_stand shoe pt pa dt :
  pt <= 21 ->
  hit_enough shoe pt pa dt ->
  stand_enough shoe (is_ace dt) dt true.
Proof.
  intros Hpt [(Ha & Hh & Hr) [Hdt He]].
  unfold stand_enough, hand_ok.
  pose proof (is_ace_01 dt).
  assert (10 * is_ace dt <= dt).
  { unfold is_ace. destruct (dt =? 11) eqn:E; lia. }
  lia.
Qed.

Lemma distr_hit_spec fuel :
  (forall player_total player_aces dealer_total st,
      shoe_wf (card_distr st) -> int_range player_aces ->
      (3 * Z.to_nat (shoe_total (card_distr st)) + Z.to_nat player_aces + 2
       <= fuel)%nat ->
      wp (distr_hit rules fuel player_total player_aces dealer_total) st
         (hit_post st player_total player_aces dealer_total)) /\
  (forall player_total player_aces dealer_total st,
      shoe_wf (card_distr st) -> int_range player_aces ->
      (3 * Z.to_nat (shoe_total (card_distr st)) + Z.to_nat player_aces + 3
       <= fuel)%nat ->
      wp (distr_hit_stand rules fuel player_total player_aces dealer_total) st
         (hit_post st player_total player_aces dealer_total)).
Proof.
  induction fuel as [|fuel [IHhit IHhs]].
  { split; intros; lia. }
  split.
  - (* distr_hit *)
    intros pt pa dt st Hwf Hpa Hfuel.
    rewrite distr_hit_S.
    destruct (pt >? 21) eqn:Ept.
    { destruct (pa >? 0) eqn:Epa.
      - assert (Hpa' : int_sub pa 1 = pa - 1).
        { apply int_wrap_id. unfold int_range in *. lia. }
        eapply wp_mono.
        + apply IHhit; [exact Hwf|apply int_wrap_range|rewrite Hpa'; lia].
        + intros d st' [Hfr Hs]. split; [exact Hfr|].
          intros Hu He. apply Hs; [exact Hu|].
          apply hit_enough_soft; [lia|lia|exact He].
      - apply wp_gets. split; [apply frame_refl|].
        intros Hu _. split; [exact Hu|apply Hu]. }
    apply wp_bind, wp_gets. apply wp_bind, wp_gets.
    unfold precomputed_distr, precomp_distr_at.
    set (h := get_state_hash st pt pa dt 2).
    destruct (precomp_distr st !! h) as [d|] eqn:Ecache.
    { apply wp_gets. cbv beta. rewrite Ecache. split; [apply frame_refl|].
      intros Hu _. split; [exact Hu|].
      destruct Hu as [Hc _]. apply (Hc h). exact Ecache. }
    apply wp_bind.
    set (E := hit_enough (card_distr st) pt pa dt).
    eapply wp_mono.
    + apply (draw_loop_spec (fun s => unit_mass s /\ E)).
      * intros s v [Hu He]. split; [exact Hu|exact He].
      * exact Hwf.
      * intros c Hc. apply in_range in Hc. lia.
      * apply empty_distr_length.
      * intros c st_i Hc Hfr Hv. apply in_range in Hc.
        assert (Hg : 1 <= shoe_get (card_distr st) c).
        { pose proof (valid_count_bounds _ 0 c Hwf ltac:(lia)). lia. }
        assert (Hcd : card_distr st_i = card_distr st) by
          (apply frame_card_distr; exact Hfr).
        assert (Htot : shoe_total (card_distr (take c st_i))
                       = shoe_total (card_distr st) - 1).
        { unfold take. simpl. rewrite Hcd.
          apply shoe_take_total; [exact Hwf|lia|exact Hg]. }
        eapply wp_mono.
        -- apply IHhs.
           ++ unfold take. simpl. rewrite Hcd.
              apply shoe_take_wf; [exact Hwf|lia|exact Hg].
           ++ apply int_wrap_range.
           ++ rewrite Htot.
              pose proof (to_nat_int_add pa (is_ace (get_value c)) Hpa (is_ace_01 _)).
              pose proof (shoe_total_ge_count _ c Hwf ltac:(lia)).
              lia.
        -- intros d st' [Hfr' Hs]. split; [exact Hfr'|].
           intros [Hu He].
           destruct Hs as [Hu' Hd1].
           ++ exact Hu.
           ++ unfold take. simpl. rewrite Hcd.
              apply hit_enough_draw; [exact Hwf|lia|exact Hg|lia|exact He].
           ++ split; [split; [exact Hu'|exact He]|exact Hd1].
    + intros distr st' (Hfr & Hlen & Hsum).
      apply wp_bind, wp_modify, wp_ret.
      split; [apply frame_store; exact Hfr|].
      intros Hu He.
      destruct Hsum as [[Hu' _] Hd]; [split; [exact Hu|exact He]|].
      assert (Hd1 : (dsum distr == 1)%Q).
      { rewrite Hd, dsum_empty_distr, draw_weights_full; [reflexivity|exact Hwf|].
        rewrite drawable_0.
        pose proof (drawable_le_total _ (banned_value_of true dt) Hwf).
        destruct He as [(Ha & Hh & _) [Hdt He]].
        pose proof (is_ace_01 dt). lia. }
      split; [|exact Hd1].
      apply unit_mass_store; assumption.
  - (* distr_hit_stand *)
    intros pt pa dt st Hwf Hpa Hfuel.
    rewrite distr_hit_stand_S.
    set (norm := if (pt >? 21) && (pa >? 0)
                 then (int_sub pt 10, int_sub pa 1) else (pt, pa)).
    assert (Hnorm : int_range (snd norm) /\
                    (Z.to_nat (snd norm) <= Z.to_nat pa)%nat /\
                    (hit_enough (card_distr st) pt pa dt ->
                     hit_enough (card_distr st) (fst norm) (snd norm) dt)).
    { unfold norm. destruct ((pt >? 21) && (pa >? 0)) eqn:En; simpl.
      - apply andb_true_iff in En as [E1 E2].
        assert (Hpa' : int_sub pa 1 = pa - 1).
        { apply int_wrap_id. unfold int_range in *. lia. }
        split; [apply int_wrap_range|]. split; [lia|].
        apply hit_enough_soft; lia.
      - auto. }
    destruct norm as [pt' pa']. simpl in Hnorm.
    destruct Hnorm as (Hpa' & Hle & Hen).
    apply wp_bind. eapply wp_mono.
    { apply IHhit; [exact Hwf|exact Hpa'|lia]. }
    intros dh st1 [Hfr1 Hs1].
    assert (Hcd1 : card_distr st1 = card_distr st) by
      (apply frame_card_distr; exact Hfr1).
    apply wp_bind. eapply wp_mono.
    { apply distr_stand_spec.
      - rewrite Hcd1. exact Hwf.
      - pose proof (is_ace_01 dt). unfold int_range. lia.
      - rewrite Hcd1. pose proof (is_ace_01 dt). lia. }
    intros ds st2 [Hfr2 Hs2].
    apply wp_bind, wp_gets, wp_ret.
    split; [eapply frame_trans; eassumption|].
    intros Hu He. specialize (Hen He).
    destruct (Hs1 Hu Hen) as [Hu1 Hdh].
    destruct Hs2 as [Hu2 Hds].
    + exact Hu1.
    + destruct (Z_lt_le_dec 21 pt') as [Hgt|Hle21]; [left; exact Hgt|right].
      rewrite Hcd1. apply (hit_enough_stand _ pt' pa'); assumption.
    + split; [exact Hu2|].
      destruct (Qlt_bool _ _); assumption.
Qed.

(** ** Shoe conservation for every entry point *)

Lemma frames_bind {A B} (m : M RewardDistribution A)
    (k : A -> M RewardDistribution B) st :
  frames m st ->
  (forall a st', frame st st' -> frames (k a) st') ->
  frames (bind m k) st.
Proof.
  intros Hm Hk. apply wp_bind. eapply wp_mono; [exact Hm|].
  intros a st' Hfr. eapply wp_mono; [apply Hk; exact Hfr|].
  intros b st'' Hfr'. cbv beta in *. eapply frame_trans; eassumption.
Qed.

Lemma frames_gets {A} (f : RewardDistribution -> A) st : frames (gets f) st.
Proof. apply wp_gets, frame_refl. Qed.

Lemma frames_ret {A} (a : A) st : frames (ret a) st.
Proof. apply wp_ret, frame_refl. Qed.

Lemma frames_store h d st : frames (precomp_distr_store h d) st.
Proof. apply wp_modify. apply frame_store, frame_refl. Qed.

Lemma frames_if {A} (c : bool) (m1 m2 : M RewardDistribution A) st :
  frames m1 st -> frames m2 st -> frames (if c then m1 else m2) st.
Proof. destruct c; auto. Qed.

Lemma take_facts st st_i c :
  frame st st_i -> shoe_wf (card_distr st) -> 1 <= c <= 13 ->
  1 <= shoe_get (card_distr st) c ->
  shoe_wf (card_distr (take c st_i)) /\
  shoe_total (card_distr (take c st_i)) = shoe_total (card_distr st) - 1 /\
  1 <= shoe_total (card_distr st).
Proof.
  intros Hfr Hwf Hc Hg.
  pose proof (frame_card_distr _ _ Hfr) as Hcd.
  unfold take. simpl. rewrite Hcd.
  split; [apply shoe_take_wf; assumption|].
  split; [apply shoe_take_total; assumption|].
  pose proof (shoe_total_ge_count _ c Hwf Hc). lia.
Qed.

Lemma draw_loop_frame b sub cards acc st :
  shoe_wf (card_distr st) ->
  (forall c, In c cards -> 1 <= c <= 13) ->
  length acc = 17%nat ->
  (forall c st_i,
      In c cards -> frame st st_i -> 1 <= shoe_get (card_distr st) c ->
      frames (sub c) (take c st_i)) ->
  wp (for_each cards (draw_body b sub) acc) st
     (fun acc' st' => frame st st' /\ length acc' = 17%nat).
Proof.
  intros Hwf Hcards Hlen Hsub.
  eapply wp_mono.
  - apply (draw_loop_spec (fun _ => False)); try eassumption; [tauto|].
    intros c st_i Hc Hfr Hv.
    eapply wp_mono.
    + apply Hsub; [exact Hc|exact Hfr|].
      pose proof (valid_count_bounds _ b c Hwf (Hcards c Hc)). lia.
    + intros d st' Hfr'. split; [exact Hfr'|tauto].
  - intros acc' st' (Hfr & Hlen' & _). auto.
Qed.

Lemma distr_stand_frames fuel pt da dt fc st :
  shoe_wf (card_distr st) -> int_range da ->
  (2 * Z.to_nat (shoe_total (card_distr st)) + Z.to_nat da + 1 <= fuel)%nat ->
  frames (distr_stand rules fuel pt da dt fc) st.
Proof.
  intros. eapply wp_mono; [apply distr_stand_spec; assumption|].
  intros d st' [Hfr _]. exact Hfr.
Qed.

Lemma distr_stand_first_frames fuel pt dt st :
  shoe_wf (card_distr st) ->
  (2 * Z.to_nat (shoe_total (card_distr st)) + 2 <= fuel)%nat ->
  frames (distr_stand rules fuel pt (is_ace dt) dt true) st.
Proof.
  intros Hwf Hfuel. pose proof (is_ace_01 dt).
  apply distr_stand_frames; [exact Hwf|unfold int_range; lia|lia].
Qed.

Lemma distr_hit_frames fuel pt pa dt st :
  shoe_wf (card_distr st) -> int_range pa ->
  (3 * Z.to_nat (shoe_total (card_distr st)) + Z.to_nat pa + 2 <= fuel)%nat ->
  frames (distr_hit rules fuel pt pa dt) st.
Proof.
  intros. eapply wp_mono; [apply (proj1 (distr_hit_spec fuel)); assumption|].
  intros d st' [Hfr _]. exact Hfr.
Qed.

Lemma distr_hit_stand_frames fuel pt pa dt st :
  shoe_wf (card_distr st) -> int_range pa ->
  (3 * Z.to_nat (shoe_total (card_distr st)) + Z.to_nat pa + 3 <= fuel)%nat ->
  frames (distr_hit_stand rules fuel pt pa dt) st.
Proof.
  intros. eapply wp_mono; [apply (proj2 (distr_hit_spec fuel)); assumption|].
  intros d st' [Hfr _]. exact Hfr.
Qed.

(** The shape shared by the cached computations: look the state up,
    otherwise compute (and store). *)
Lemma cached_frames (hash : RewardDistribution -> Z)
    (rest : Z -> M RewardDistribution (list Q)) st :
  (forall h, frames (rest h) st) ->
  frames (state_hash <- gets hash ;;
          hit <- gets (fun self => precomputed_distr self state_hash) ;;
          if (hit : bool) then gets (fun self => precomp_distr_at self state_hash)
          else rest state_hash) st.
Proof.
  intros Hc. unfold frames.
  apply wp_bind, wp_gets. apply wp_bind, wp_gets. cbv beta.
  destruct (precomputed_distr st (hash st)).
  - apply frames_gets.
  - apply Hc.
Qed.

Lemma draw_loop_then {B} b sub cards acc st (k : list Q -> M RewardDistribution B) :
  shoe_wf (card_distr st) ->
  (forall c, In c cards -> 1 <= c <= 13) ->
  length acc = 17%nat ->
  (forall c st_i,
      In c cards -> frame st st_i -> 1 <= shoe_get (card_distr st) c ->
      frames (sub c) (take c st_i)) ->
  (forall acc' st', frame st st' -> length acc' = 17%nat -> frames (k acc') st') ->
  frames (bind (for_each cards (draw_body b sub) acc) k) st.
Proof.
  intros Hwf Hcards Hlen Hsub Hk.
  apply wp_bind. eapply wp_mono; [apply draw_loop_frame; eassumption|].
  intros acc' st' [Hfr Hlen']. cbv beta.
  eapply wp_mono; [apply Hk; assumption|].
  intros x st'' Hfr'. cbv beta in *. eapply frame_trans; eassumption.
Qed.

Lemma store_ret_frames h d st :
  frames (precomp_distr_store h d ;;; ret d) st.
Proof.
  apply frames_bind; [apply frames_store|]. intros [] st' Hfr. apply frames_ret.
Qed.

Lemma distr_double_frames fuel pt pa dt st :
  shoe_wf (card_distr st) ->
  (2 * Z.to_nat (shoe_total (card_distr st)) + 2 <= fuel)%nat ->
  frames (distr_double rules fuel pt pa dt) st.
Proof.
  intros Hwf Hfuel. unfold distr_double.
  apply cached_frames. intros h.
  apply (draw_loop_then 0
           (fun card =>
              distr_stand rules fuel
                (if (int_add pt (get_value card) >? 21)
                    && (int_add pa (is_ace (get_value card)) >? 0)
                 then int_sub (int_add pt (get_value card)) 10
                 else int_add pt (get_value card))
                (is_ace dt) dt true));
    [exact Hwf| |apply empty_distr_length| |].
  - intros c Hc. apply in_range in Hc. lia.
  - intros c st_i Hc Hfr Hg. apply in_range in Hc.
    destruct (take_facts st st_i c Hfr Hwf ltac:(lia) Hg) as (Hwf' & Htot & Hpos).
    apply distr_stand_first_frames; [exact Hwf'|]. rewrite Htot. lia.
  - intros acc' st' Hfr _. apply store_ret_frames.
Qed.

Lemma distr_blackjack_frames dt st : frames (distr_blackjack dt) st.
Proof.
  unfold distr_blackjack. destruct (dt <? 10); [apply frames_gets|].
  apply frames_bind; [apply frames_gets|]. intros h st1 Hfr1.
  apply frames_bind; [apply frames_gets|]. intros hit st1' Hfr1'.
  destruct hit; [apply frames_gets|].
  apply frames_bind; [apply frames_gets|]. intros p st2 Hfr2.
  apply frames_bind; [apply frames_gets|]. intros tie st3 Hfr3.
  apply frames_bind; [apply frames_gets|]. intros bj st4 Hfr4.
  apply frames_bind; [apply frames_store|]. intros [] st5 Hfr5.
  apply frames_ret.
Qed.

Lemma distr_hit_stand_double_frames fuel pt pa dt st :
  shoe_wf (card_distr st) -> int_range pa ->
  (3 * Z.to_nat (shoe_total (card_distr st)) + Z.to_nat pa + 3 <= fuel)%nat ->
  frames (distr_hit_stand_double rules fuel pt pa dt) st.
Proof.
  intros Hwf Hpa Hfuel. unfold distr_hit_stand_double.
  set (norm := if (pt >? 21) && (pa >? 0)
               then (int_sub pt 10, int_sub pa 1) else (pt, pa)).
  assert (Hnorm : int_range (snd norm) /\ (Z.to_nat (snd norm) <= Z.to_nat pa)%nat).
  { unfold norm. destruct ((pt >? 21) && (pa >? 0)) eqn:En; simpl.
    - apply andb_true_iff in En as [E1 E2].
      assert (Hpa' : int_sub pa 1 = pa - 1).
      { apply int_wrap_id. unfold int_range in *. lia. }
      split; [apply int_wrap_range|lia].
    - split; [exact Hpa|lia]. }
  destruct norm as [pt' pa']. simpl in Hnorm. destruct Hnorm as [Hpa' Hle].
  destruct (pt' =? 21); [apply distr_blackjack_frames|].
  apply frames_bind.
  { apply distr_hit_stand_frames; [exact Hwf|exact Hpa'|lia]. }
  intros dhs st1 Hfr1.
  pose proof (frame_card_distr _ _ Hfr1) as Hcd1.
  apply frames_bind.
  { apply distr_double_frames; rewrite Hcd1; [exact Hwf|lia]. }
  intros dd st2 Hfr2.
  apply frames_bind; [apply frames_gets|]. intros self st3 Hfr3.
  apply frames_ret.
Qed.

Lemma after_split_frames fuel pt pa dt st :
  shoe_wf (card_distr st) -> 0 <= pa <= 1 ->
  (3 * Z.to_nat (shoe_total (card_distr st)) + 4 <= fuel)%nat ->
  frames (if DOUBLE_AFTER_SPLIT rules
          then distr_hit_stand_double rules fuel pt pa dt
          else distr_hit_stand rules fuel pt pa dt) st.
Proof.
  intros Hwf Hpa Hfuel.
  destruct (DOUBLE_AFTER_SPLIT rules).
  - apply distr_hit_stand_double_frames; [exact Hwf|unfold int_range; lia|lia].
  - apply distr_hit_stand_frames; [exact Hwf|unfold int_range; lia|lia].
Qed.

Lemma distr_split_general_frames fuel pc dt st :
  shoe_wf (card_distr st) ->
  (3 * Z.to_nat (shoe_total (card_distr st)) + 1 <= fuel)%nat ->
  frames (distr_split_general rules fuel pc dt) st.
Proof.
  intros Hwf Hfuel. unfold distr_split_general.
  apply cached_frames. intros h.
  apply (draw_loop_then 0
           (fun card =>
              if DOUBLE_AFTER_SPLIT rules
              then distr_hit_stand_double rules fuel
                     (int_add pc (get_value card)) (is_ace (get_value card)) dt
              else distr_hit_stand rules fuel
                     (int_add pc (get_value card)) (is_ace (get_value card)) dt));
    [exact Hwf| |apply empty_distr_length| |].
  - intros c Hc. apply in_range in Hc. lia.
  - intros c st_i Hc Hfr Hg. apply in_range in Hc.
    destruct (take_facts st st_i c Hfr Hwf ltac:(lia) Hg) as (Hwf' & Htot & Hpos).
    apply after_split_frames; [exact Hwf'|apply is_ace_01|]. rewrite Htot. lia.
  - intros acc' st' Hfr _. apply store_ret_frames.
Qed.

Lemma distr_split_tens_frames fuel dt st :
  shoe_wf (card_distr st) ->
  (3 * Z.to_nat (shoe_total (card_distr st)) + 1 <= fuel)%nat ->
  frames (distr_split_tens rules fuel dt) st.
Proof.
  intros Hwf Hfuel. unfold distr_split_tens.
  apply cached_frames. intros h.
  apply (draw_loop_then 0
           (fun card =>
              if DOUBLE_AFTER_SPLIT rules
              then distr_hit_stand_double rules fuel
                     (int_add 10 (get_value card)) 0 dt
              else distr_hit_stand rules fuel
                     (int_add 10 (get_value card)) 0 dt));
    [exact Hwf| |apply empty_distr_length| |].
  - intros c Hc. apply in_range in Hc. lia.
  - intros c st_i Hc Hfr Hg. apply in_range in Hc.
    destruct (take_facts st st_i c Hfr Hwf ltac:(lia) Hg) as (Hwf' & Htot & Hpos).
    apply after_split_frames; [exact Hwf'|lia|]. rewrite Htot. lia.
  - intros acc' st' Hfr _.
    apply frames_bind; [apply frames_gets|]. intros p st1 Hfr1.
    apply frames_bind; [apply frames_gets|]. intros bj st2 Hfr2.
    apply store_ret_frames.
Qed.

Lemma distr_split_aces_frames fuel dt st :
  shoe_wf (card_distr st) ->
  (3 * Z.to_nat (shoe_total (card_distr st)) + 1 <= fuel)%nat ->
  frames (distr_split_aces rules fuel dt) st.
Proof.
  intros Hwf Hfuel. unfold distr_split_aces.
  apply cached_frames. intros h.
  apply (draw_loop_then 0
           (fun card =>
              if HIT_AFTER_SPLIT_ACES rules then
                if DOUBLE_AFTER_SPLIT rules
                then distr_hit_stand_double rules fuel (int_add 11 card) 1 dt
                else distr_hit_stand rules fuel (int_add 11 card) 1 dt
              else distr_stand rules fuel (int_add 11 card) (is_ace dt) dt true));
    [exact Hwf| |apply empty_distr_length| |].
  - intros c Hc. apply in_range in Hc. lia.
  - intros c st_i Hc Hfr Hg. apply in_range in Hc.
    destruct (take_facts st st_i c Hfr Hwf ltac:(lia) Hg) as (Hwf' & Htot & Hpos).
    destruct (HIT_AFTER_SPLIT_ACES rules).
    + apply after_split_frames; [exact Hwf'|lia|]. rewrite Htot. lia.
    + apply distr_stand_first_frames; [exact Hwf'|]. rewrite Htot. lia.
  - intros acc1 st1 Hfr1 Hlen1.
    pose proof (frame_card_distr _ _ Hfr1) as Hcd1.
    assert (Hwf1 : shoe_wf (card_distr st1)) by (rewrite Hcd1; exact Hwf).
    destruct (BLACKJACK_WITH_SPLIT_ACES rules).
    + apply frames_bind; [|intros acc2 st2 Hfr2; apply store_ret_frames].
      apply (wp_for_each (fun _ _ st_i => frame st1 st_i)).
      * apply frame_refl.
      * intros x rest acc st_i Hfr_i.
        apply wp_bind, wp_gets.
        destruct (Qlt_bool 0 _); [|apply wp_ret; exact Hfr_i].
        apply wp_bind, wp_gets, wp_ret. exact Hfr_i.
      * auto.
    + apply (draw_loop_then 0
               (fun _ => distr_stand rules fuel 21 (is_ace dt) dt true));
        [exact Hwf1| |exact Hlen1| |].
      * intros c Hc. apply in_range in Hc. lia.
      * intros c st_i Hc Hfr Hg. apply in_range in Hc.
        destruct (take_facts st1 st_i c Hfr Hwf1 ltac:(lia) Hg)
          as (Hwf' & Htot & Hpos).
        apply distr_stand_first_frames; [exact Hwf'|]. rewrite Htot. rewrite Hcd1 in *. lia.
      * intros acc' st' Hfr _. apply store_ret_frames.
Qed.

Lemma distr_split_frames fuel pt pa dt st :
  shoe_wf (card_distr st) ->
  (3 * Z.to_nat (shoe_total (card_distr st)) + 1 <= fuel)%nat ->
  frames (distr_split rules fuel pt pa dt) st.
Proof.
  intros Hwf Hfuel. unfold distr_split.
  destruct (pa >? 0); [apply distr_split_aces_frames; assumption|].
  destruct (pt =? 20); [apply distr_split_tens_frames; assumption|].
  apply distr_split_general_frames; assumption.
Qed.

Lemma fuel_for_le shoe aces fuel :
  (fuel_for shoe aces <= fuel)%nat ->
  (3 * Z.to_nat (shoe_total shoe) + Z.to_nat aces + 4 <= fuel)%nat.
Proof. unfold fuel_for. intros H. exact H. Qed.

(** Every entry point returns, and leaves the solver as it found it up
    to the cache. *)
Lemma call_frames fuel e st :
  shoe_wf (card_distr st) -> int_range (entry_aces e) ->
  (fuel_for (card_distr st) (entry_aces e) <= fuel)%nat ->
  frames (call rules fuel e) st.
Proof.
  intros Hwf Ha Hfuel. apply fuel_for_le in Hfuel.
  remember (Z.to_nat (shoe_total (card_distr st))) as n eqn:En.
  revert Ha Hfuel.
  destruct e; cbn [call entry_aces]; intros Ha Hfuel.
  - apply distr_hit_frames; [exact Hwf|exact Ha|rewrite <- En; lia].
  - apply distr_stand_frames; [exact Hwf|exact Ha|rewrite <- En; lia].
  - apply distr_double_frames; [exact Hwf|rewrite <- En; lia].
  - apply distr_split_general_frames; [exact Hwf|rewrite <- En; lia].
  - apply distr_split_tens_frames; [exact Hwf|rewrite <- En; lia].
  - apply distr_split_aces_frames; [exact Hwf|rewrite <- En; lia].
  - apply distr_split_frames; [exact Hwf|rewrite <- En; lia].
  - apply distr_hit_stand_frames; [exact Hwf|exact Ha|rewrite <- En; lia].
  - apply distr_hit_stand_double_frames; [exact Hwf|exact Ha|rewrite <- En; lia].
  - apply distr_blackjack_frames.
Qed.

End SolverProofs.

(** ** Termination on any shoe

    The recursion of the solver is bounded by the hands alone: whatever
    the shoe holds, a draw raises a hard total and a demotion spends a
    soft ace.  The calls return on shoes that are not well formed as
    well. *)

Lemma returns_ret {S A} (a : A) (st : S) : returns (ret a) st.
Proof. apply wp_ret. exact I. Qed.

Lemma returns_gets {S A} (f : S -> A) (st : S) : returns (gets f) st.
Proof. apply wp_gets. exact I. Qed.

Lemma returns_modify {S} (f : S -> S) (st : S) : returns (modify f) st.
Proof. apply wp_modify. exact I. Qed.

Lemma returns_bind {S A B} (m : M S A) (k : A -> M S B) (st : S) :
  returns m st -> (forall a st', returns (k a) st') -> returns (bind m k) st.
Proof.
  intros Hm Hk. apply wp_bind. eapply wp_mono; [exact Hm|].
  intros a st' _. apply Hk.
Qed.

Lemma returns_for_each {S A B} (xs : list B) (body : B -> A -> M S A)
    (acc : A) (st : S) :
  (forall x acc st, In x xs -> returns (body x acc) st) ->
  returns (for_each xs body acc) st.
Proof.
  revert acc st. induction xs as [|x xs IH]; intros acc st Hbody; simpl.
  - apply returns_ret.
  - apply returns_bind; [apply Hbody; left; reflexivity|].
    intros acc' st'. apply IH. intros y acc'' st'' Hy. apply Hbody.
    right. exact Hy.
Qed.

Lemma draw_loop_returns {B} b sub cards acc st (k : list Q -> M RewardDistribution B) :
  (forall c st, In c cards -> returns (sub c) st) ->
  (forall acc' st', returns (k acc') st') ->
  returns (bind (for_each cards (draw_body b sub) acc) k) st.
Proof.
  intros Hsub Hk. apply returns_bind; [|exact Hk].
  apply returns_for_each. intros c acc' st' Hc. unfold draw_body.
  apply returns_bind; [apply returns_gets|]. intros p st1.
  destruct (Qlt_bool 0 p); [|apply returns_ret].
  apply returns_bind; [apply returns_modify|]. intros [] st2.
  apply returns_bind; [apply Hsub; exact Hc|]. intros d st3.
  apply returns_bind; [apply returns_modify|]. intros [] st4.
  apply returns_ret.
Qed.

Lemma cached_returns (hash : RewardDistribution -> Z)
    (rest : Z -> M RewardDistribution (list Q)) st :
  (forall h, returns (rest h) st) ->
  returns (state_hash <- gets hash ;;
           hit <- gets (fun self => precomputed_distr self state_hash) ;;
           if (hit : bool) then gets (fun self => precomp_distr_at self state_hash)
           else rest state_hash) st.
Proof.
  intros Hc. unfold returns.
  apply wp_bind, wp_gets. apply wp_bind, wp_gets. cbv beta.
  destruct (precomputed_distr st (hash st)).
  - apply returns_gets.
  - apply Hc.
Qed.

Lemma store_ret_returns h d st : returns (precomp_distr_store h d ;;; ret d) st.
Proof.
  apply returns_bind; [apply returns_modify|]. intros [] st'. apply returns_ret.
Qed.

(** A draw keeps the hand in order and raises its hard total. *)
Lemma hand_draw total aces card :
  hand_ok total aces -> total <= 21 -> 1 <= card <= 13 ->
  let total' := int_add total (get_value card) in
  let aces' := int_add aces (is_ace (get_value card)) in
  hand_ok total' aces' /\
  total - 10 * aces + 1 <= total' - 10 * aces' /\
  aces' <= aces + 1.
Proof.
  intros (Ha & Hh & Hr) Ht Hc. cbv zeta.
  pose proof (get_value_bounds card ltac:(lia)) as Hv.
  assert (Hi : is_ace (get_value card) = 1 /\ get_value card = 11
               \/ is_ace (get_value card) = 0).
  { unfold is_ace. destruct (get_value card =? 11) eqn:E; [left; lia|right; reflexivity]. }
  unfold int_add. rewrite !int_wrap_id by (unfold int_range; lia).
  unfold hand_ok. lia.
Qed.

(** A demotion keeps the hand in order and its hard total. *)
Lemma hand_demote total aces :
  hand_ok total aces -> 21 < total -> 0 < aces ->
  int_sub total 10 = total - 10 /\ int_sub aces 1 = aces - 1 /\
  hand_ok (total - 10) (aces - 1).
Proof.
  intros (Ha & Hh & Hr) Ht Hp.
  unfold int_sub. rewrite !int_wrap_id by (unfold int_range; lia).
  unfold hand_ok. lia.
Qed.

Section Termination.

Variable rules : rule_variation.

Lemma distr_stand_returns fuel :
  forall pt da dt fc st,
    hand_ok dt da -> (stand_fuel da dt <= fuel)%nat ->
    returns (distr_stand rules fuel pt da dt fc) st.
Proof.
  unfold stand_fuel.
  induction fuel as [|fuel IH]; intros pt da dt fc st Hok Hfuel; [lia|].
  rewrite distr_stand_S.
  destruct (pt >? 21); [apply returns_gets|].
  destruct (dt >? 21) eqn:Ebust.
  { destruct (da >? 0) eqn:Esoft; [|apply returns_gets].
    destruct (hand_demote dt da Hok ltac:(lia) ltac:(lia)) as (-> & -> & Hok').
    apply IH; [exact Hok'|]. destruct Hok as (Ha & _). lia. }
  destruct (_ || _) eqn:Estand.
  { destruct (dt =? pt); [apply returns_gets|].
    destruct (dt >? pt); apply returns_gets. }
  assert (Hdt : dt <= 17).
  { apply orb_false_iff in Estand as [E _]. lia. }
  apply cached_returns. intros h.
  apply draw_loop_returns; [|intros; apply store_ret_returns].
  intros c st' Hc. apply in_range in Hc.
  destruct (hand_draw dt da c Hok ltac:(lia) ltac:(lia)) as (Hok' & Hh & Ha).
  apply IH; [exact Hok'|].
  destruct Hok as (Ha0 & Hh0 & _). destruct Hok' as (Ha1 & _). lia.
Qed.

(** The dealer's first hand: the card shown, an ace counted soft. *)
Lemma dealer_hand dt : 0 <= dt < 2 ^ 31 -> hand_ok dt (is_ace dt).
Proof.
  intros H. unfold hand_ok, is_ace. destruct (dt =? 11) eqn:E; lia.
Qed.

Lemma dealer_fuel dt : 0 <= dt -> (stand_fuel (is_ace dt) dt <= 46)%nat.
Proof.
  intros H. unfold stand_fuel, is_ace. destruct (dt =? 11) eqn:E; lia.
Qed.

Lemma distr_stand_first_returns fuel pt dt st :
  0 <= dt < 2 ^ 31 -> (46 <= fuel)%nat ->
  returns (distr_stand rules fuel pt (is_ace dt) dt true) st.
Proof.
  intros Hdt Hfuel. apply distr_stand_returns; [apply dealer_hand; exact Hdt|].
  pose proof (dealer_fuel dt ltac:(lia)). lia.
Qed.

Lemma distr_hit_returns fuel :
  (forall pt pa dt st,
      hand_ok pt pa -> 0 <= dt < 2 ^ 31 ->
      (hit_fuel pa pt + 46 <= fuel)%nat ->
      returns (distr_hit rules fuel pt pa dt) st) /\
  (forall pt pa dt st,
      hand_ok pt pa -> 0 <= dt < 2 ^ 31 ->
      (hit_fuel pa pt + 47 <= fuel)%nat ->
      returns (distr_hit_stand rules fuel pt pa dt) st).
Proof.
  unfold hit_fuel.
  induction fuel as [|fuel [IHhit IHhs]]; [split; intros; lia|].
  split.
  - intros pt pa dt st Hok Hdt Hfuel.
    rewrite distr_hit_S.
    destruct (pt >? 21) eqn:Ebust.
    { destruct (pa >? 0) eqn:Esoft; [|apply returns_gets].
      destruct (hand_demote pt pa Hok ltac:(lia) ltac:(lia)) as (-> & -> & Hok').
      apply IHhit; [exact Hok'|exact Hdt|]. destruct Hok as (Ha & _). lia. }
    apply cached_returns. intros h.
    apply draw_loop_returns; [|intros; apply store_ret_returns].
    intros c st' Hc. apply in_range in Hc.
    destruct (hand_draw pt pa c Hok ltac:(lia) ltac:(lia)) as (Hok' & Hh & Ha).
    apply IHhs; [exact Hok'|exact Hdt|].
    destruct Hok as (Ha0 & Hh0 & _). destruct Hok' as (Ha1 & _). lia.
  - intros pt pa dt st Hok Hdt Hfuel.
    rewrite distr_hit_stand_S.
    assert (Hnorm : exists pt' pa',
               (if (pt >? 21) && (pa >? 0)
                then (int_sub pt 10, int_sub pa 1) else (pt, pa)) = (pt', pa') /\
               hand_ok pt' pa' /\
               (3 * Z.to_nat (22 - (pt' - 10 * pa')) + Z.to_nat pa'
                <= 3 * Z.to_nat (22 - (pt - 10 * pa)) + Z.to_nat pa)%nat).
    { destruct ((pt >? 21) && (pa >? 0)) eqn:En.
      - apply andb_true_iff in En as [E1 E2].
        destruct (hand_demote pt pa Hok ltac:(lia) ltac:(lia)) as (-> & -> & Hok').
        exists (pt - 10), (pa - 1). split; [reflexivity|]. split; [exact Hok'|].
        destruct Hok as (Ha & _). lia.
      - exists pt, pa. split; [reflexivity|]. split; [exact Hok|lia]. }
    destruct Hnorm as (pt' & pa' & -> & Hok' & Hle).
    apply returns_bind; [apply IHhit; [exact Hok'|exact Hdt|lia]|].
    intros dh st1.
    apply returns_bind; [apply distr_stand_first_returns; [exact Hdt|lia]|].
    intros ds st2.
    apply returns_bind; [apply returns_gets|]. intros self st3.
    apply returns_ret.
Qed.

Lemma hit_fuel_bound pt pa :
  hand_ok pt pa -> pa <= 2 -> (hit_fuel pa pt <= 69)%nat.
Proof. intros (Ha & Hh & _) Hp. unfold hit_fuel. lia. Qed.

Lemma distr_hit_stand_returns fuel pt pa dt st :
  hand_ok pt pa -> pa <= 2 -> 0 <= dt < 2 ^ 31 -> (116 <= fuel)%nat ->
  returns (distr_hit_stand rules fuel pt pa dt) st.
Proof.
  intros Hok Hpa Hdt Hfuel.
  apply (proj2 (distr_hit_returns fuel)); [exact Hok|exact Hdt|].
  pose proof (hit_fuel_bound pt pa Hok Hpa). lia.
Qed.

Lemma distr_double_returns fuel pt pa dt st :
  0 <= dt < 2 ^ 31 -> (46 <= fuel)%nat ->
  returns (distr_double rules fuel pt pa dt) st.
Proof.
  intros Hdt Hfuel. unfold distr_double.
  apply cached_returns. intros h.
  apply (draw_loop_returns 0
           (fun card =>
              distr_stand rules fuel
                (if (int_add pt (get_value card) >? 21)
                    && (int_add pa (is_ace (get_value card)) >? 0)
                 then int_sub (int_add pt (get_value card)) 10
                 else int_add pt (get_value card))
                (is_ace dt) dt true)).
  - intros c st' _. apply distr_stand_first_returns; assumption.
  - intros acc' st'. apply store_ret_returns.
Qed.

Lemma distr_blackjack_returns dt st : returns (distr_blackjack dt) st.
Proof.
  eapply wp_mono; [apply distr_blackjack_frames|]. intros; exact I.
Qed.

Lemma distr_hit_stand_double_returns fuel pt pa dt st :
  hand_ok pt pa -> pa <= 2 -> 0 <= dt < 2 ^ 31 -> (116 <= fuel)%nat ->
  returns (distr_hit_stand_double rules fuel pt pa dt) st.
Proof.
  intros Hok Hpa Hdt Hfuel. unfold distr_hit_stand_double.
  assert (Hnorm : exists pt' pa',
             (if (pt >? 21) && (pa >? 0)
              then (int_sub pt 10, int_sub pa 1) else (pt, pa)) = (pt', pa') /\
             hand_ok pt' pa' /\ pa' <= 2).
  { destruct ((pt >? 21) && (pa >? 0)) eqn:En.
    - apply andb_true_iff in En as [E1 E2].
      destruct (hand_demote pt pa Hok ltac:(lia) ltac:(lia)) as (-> & -> & Hok').
      exists (pt - 10), (pa - 1). split; [reflexivity|]. split; [exact Hok'|lia].
    - exists pt, pa. split; [reflexivity|]. split; [exact Hok|exact Hpa]. }
  destruct Hnorm as (pt' & pa' & -> & Hok' & Hpa').
  destruct (pt' =? 21); [apply distr_blackjack_returns|].
  apply returns_bind; [apply distr_hit_stand_returns; assumption|].
  intros dhs st1.
  apply returns_bind; [apply distr_double_returns; [exact Hdt|lia]|].
  intros dd st2.
  apply returns_bind; [apply returns_gets|]. intros self st3.
  apply returns_ret.
Qed.

Lemma after_split_returns fuel pt pa dt st :
  hand_ok pt pa -> pa <= 2 -> 0 <= dt < 2 ^ 31 -> (116 <= fuel)%nat ->
  returns (if DOUBLE_AFTER_SPLIT rules
           then distr_hit_stand_double rules fuel pt pa dt
           else distr_hit_stand rules fuel pt pa dt) st.
Proof.
  intros. destruct (DOUBLE_AFTER_SPLIT rules).
  - apply distr_hit_stand_double_returns; assumption.
  - apply distr_hit_stand_returns; assumption.
Qed.

(** The hand of a split: one card of the pair and the card drawn to it. *)
Lemma split_hand pc card :
  0 <= pc <= 21 -> 1 <= card <= 13 ->
  hand_ok (int_add pc (get_value card)) (is_ace (get_value card)) /\
  is_ace (get_value card) <= 2.
Proof.
  intros Hpc Hc.
  destruct (hand_draw pc 0 card) as (Hok & _ & Ha);
    [unfold hand_ok; lia|lia|exact Hc|].
  cbv zeta in Hok, Ha.
  assert (E : int_add 0 (is_ace (get_value card)) = is_ace (get_value card)).
  { unfold int_add. apply int_wrap_id. pose proof (is_ace_01 (get_value card)).
    unfold int_range. lia. }
  rewrite E in Hok, Ha. split; [exact Hok|lia].
Qed.

Lemma distr_split_general_returns fuel pc dt st :
  0 <= pc <= 21 -> 0 <= dt < 2 ^ 31 -> (116 <= fuel)%nat ->
  returns (distr_split_general rules fuel pc dt) st.
Proof.
  intros Hpc Hdt Hfuel. unfold distr_split_general.
  apply cached_returns. intros h.
  apply (draw_loop_returns 0
           (fun card =>
              if DOUBLE_AFTER_SPLIT rules
              then distr_hit_stand_double rules fuel
                     (int_add pc (get_value card)) (is_ace (get_value card)) dt
              else distr_hit_stand rules fuel
                     (int_add pc (get_value card)) (is_ace (get_value card)) dt)).
  - intros c st' Hc. apply in_range in Hc.
    destruct (split_hand pc c Hpc ltac:(lia)) as [Hok Ha].
    apply after_split_returns; assumption.
  - intros acc' st'. apply store_ret_returns.
Qed.

Lemma distr_split_tens_returns fuel dt st :
  0 <= dt < 2 ^ 31 -> (116 <= fuel)%nat ->
  returns (distr_split_tens rules fuel dt) st.
Proof.
  intros Hdt Hfuel. unfold distr_split_tens.
  apply cached_returns. intros h.
  apply (draw_loop_returns 0
           (fun card =>
              if DOUBLE_AFTER_SPLIT rules
              then distr_hit_stand_double rules fuel
                     (int_add 10 (get_value card)) 0 dt
              else distr_hit_stand rules fuel
                     (int_add 10 (get_value card)) 0 dt)).
  - intros c st' Hc. apply in_range in Hc.
    pose proof (get_value_bounds c ltac:(lia)) as Hv.
    apply after_split_returns; [|lia|exact Hdt|exact Hfuel].
    unfold int_add. rewrite int_wrap_id by (unfold int_range; lia).
    unfold hand_ok. lia.
  - intros acc' st'.
    apply returns_bind; [apply returns_gets|]. intros p st1.
    apply returns_bind; [apply returns_gets|]. intros bj st2.
    apply store_ret_returns.
Qed.

Lemma distr_split_aces_returns fuel dt st :
  0 <= dt < 2 ^ 31 -> (116 <= fuel)%nat ->
  returns (distr_split_aces rules fuel dt) st.
Proof.
  intros Hdt Hfuel. unfold distr_split_aces.
  apply cached_returns. intros h.
  apply (draw_loop_returns 0
           (fun card =>
              if HIT_AFTER_SPLIT_ACES rules then
                if DOUBLE_AFTER_SPLIT rules
                then distr_hit_stand_double rules fuel (int_add 11 card) 1 dt
                else distr_hit_stand rules fuel (int_add 11 card) 1 dt
              else distr_stand rules fuel (int_add 11 card) (is_ace dt) dt true)).
  - intros c st' Hc. apply in_range in Hc.
    assert (Hok : hand_ok (int_add 11 c) 1).
    { unfold int_add. rewrite int_wrap_id by (unfold int_range; lia).
      unfold hand_ok. lia. }
    destruct (HIT_AFTER_SPLIT_ACES rules).
    + apply after_split_returns; [exact Hok|lia|exact Hdt|exact Hfuel].
    + apply distr_stand_first_returns; [exact Hdt|lia].
  - intros acc' st'.
    apply returns_bind; [|intros; apply store_ret_returns].
    apply returns_for_each. intros c acc'' st'' Hc.
    apply returns_bind; [apply returns_gets|]. intros p st1.
    destruct (Qlt_bool 0 p); [|apply returns_ret].
    destruct (BLACKJACK_WITH_SPLIT_ACES rules).
    + apply returns_bind; [apply returns_gets|]. intros bj st2. apply returns_ret.
    + apply returns_bind; [apply returns_modify|]. intros [] st2.
      apply returns_bind; [apply distr_stand_first_returns; [exact Hdt|lia]|].
      intros d st3.
      apply returns_bind; [apply returns_modify|]. intros [] st4.
      apply returns_ret.
Qed.

Lemma distr_split_returns fuel pt pa dt st :
  0 <= pt <= 43 -> 0 <= dt < 2 ^ 31 -> (116 <= fuel)%nat ->
  returns (distr_split rules fuel pt pa dt) st.
Proof.
  intros Hpt Hdt Hfuel. unfold distr_split.
  destruct (pa >? 0); [apply distr_split_aces_returns; assumption|].
  destruct (pt =? 20); [apply distr_split_tens_returns; assumption|].
  apply distr_split_general_returns; [|exact Hdt|exact Hfuel].
  Z.to_euclidean_division_equations. lia.
Qed.

End Termination.

(** ** The bettor *)

Lemma shoe_get_set_same shoe card v :
  0 <= card -> (Z.to_nat card < length shoe)%nat ->
  shoe_get (shoe_set shoe card v) card = v.
Proof.
  intros Hc Hlen. unfold shoe_get, shoe_set.
  rewrite nth_lookup, list_lookup_insert_eq by exact Hlen. reflexivity.
Qed.

Lemma shoe_get_set_other shoe card card' v :
  0 <= card -> 0 <= card' -> card <> card' ->
  shoe_get (shoe_set shoe card v) card' = shoe_get shoe card'.
Proof.
  intros Hc Hc' Hne. unfold shoe_get, shoe_set.
  rewrite !nth_lookup, list_lookup_insert_ne by lia. reflexivity.
Qed.

Lemma shoe_set_length shoe card v : length (shoe_set shoe card v) = length shoe.
Proof. unfold shoe_set. apply length_insert. Qed.

Lemma long_decr_length distr card : length (long_decr distr card) = length distr.
Proof. apply shoe_set_length. Qed.

Lemma long_incr_length distr card : length (long_incr distr card) = length distr.
Proof. apply shoe_set_length. Qed.

Lemma long_decr_get distr card card' :
  0 <= card -> 0 <= card' -> (Z.to_nat card < length distr)%nat ->
  - 2 ^ 63 < shoe_get distr card < 2 ^ 63 ->
  shoe_get (long_decr distr card) card'
  = if card =? card' then shoe_get distr card - 1 else shoe_get distr card'.
Proof.
  intros Hc Hc' Hlen Hr. unfold long_decr.
  rewrite long_wrap_id by lia.
  destruct (card =? card') eqn:E.
  - assert (card' = card) by lia. subst card'.
    apply shoe_get_set_same; assumption.
  - apply shoe_get_set_other; lia.
Qed.

Lemma long_restore distr card :
  0 <= card -> (Z.to_nat card < length distr)%nat ->
  - 2 ^ 63 < shoe_get distr card < 2 ^ 63 ->
  long_incr (long_decr distr card) card = distr.
Proof.
  intros Hc Hlen Hr. unfold long_incr.
  rewrite long_decr_get, Z.eqb_refl by assumption.
  rewrite long_wrap_id by lia.
  unfold long_decr, shoe_set. rewrite list_insert_insert_eq.
  apply list_insert_id.
  replace (shoe_get distr card - 1 + 1) with (shoe_get distr card) by lia.
  unfold shoe_get. rewrite nth_lookup.
  destruct (lookup_lt_is_Some_2 distr _ Hlen) as [v ->]. reflexivity.
Qed.

Lemma long_incr_decr_commute distr c1 c2 :
  0 <= c1 -> 0 <= c2 -> c1 <> c2 ->
  long_incr (long_decr distr c2) c1 = long_decr (long_incr distr c1) c2.
Proof.
  intros H1 H2 Hne. unfold long_incr, long_decr.
  rewrite !shoe_get_set_other by lia.
  unfold shoe_set. apply list_insert_insert_ne. lia.
Qed.

Lemma long_decr_incr distr card :
  0 <= card -> (Z.to_nat card < length distr)%nat ->
  - 2 ^ 63 < shoe_get distr card < 2 ^ 63 - 1 ->
  long_decr (long_incr distr card) card = distr.
Proof.
  intros Hc Hlen Hr. unfold long_decr, long_incr.
  rewrite shoe_get_set_same by assumption.
  rewrite !long_wrap_id by (rewrite ?long_wrap_id; lia).
  unfold shoe_set. rewrite list_insert_insert_eq.
  apply list_insert_id.
  replace (shoe_get distr card + 1 - 1) with (shoe_get distr card) by lia.
  unfold shoe_get. rewrite nth_lookup.
  destruct (lookup_lt_is_Some_2 distr _ Hlen) as [v ->]. reflexivity.
Qed.

(** The two transient decrements of [get_probability] are undone. *)
Lemma long_restore_two distr c1 c2 :
  length distr = 14%nat -> 1 <= c1 <= 13 -> 1 <= c2 <= 13 ->
  0 <= shoe_get distr c1 < 2 ^ 31 -> 0 <= shoe_get distr c2 < 2 ^ 31 ->
  long_incr (long_incr (long_decr (long_decr distr c1) c2) c1) c2 = distr.
Proof.
  intros Hlen H1 H2 Hr1 Hr2.
  destruct (Z.eq_dec c1 c2) as [->|Hne].
  - rewrite (long_restore (long_decr distr c2) c2).
    + apply long_restore; lia.
    + lia.
    + rewrite long_decr_length. lia.
    + rewrite long_decr_get, Z.eqb_refl by lia. lia.
  - rewrite long_incr_decr_commute by lia.
    rewrite (long_restore distr c1) by lia.
    apply long_restore; lia.
Qed.

Lemma get_probability_eq c1 c2 c3 distr :
  kelly_pyx.get_probability c1 c2 c3 distr
  = if Qlt_bool (kelly_pyx.cards_left distr) 3 then Some (0%Q, distr)
    else
      Some ((inject_Z (shoe_get distr c1) / kelly_pyx.cards_left distr
             * (inject_Z (shoe_get (long_decr distr c1) c2)
                / (kelly_pyx.cards_left distr - 1))
             * (inject_Z (shoe_get (long_decr (long_decr distr c1) c2) c3)
                / (kelly_pyx.cards_left distr - 2)))%Q,
            long_incr (long_incr (long_decr (long_decr distr c1) c2) c1) c2).
Proof. reflexivity. Qed.

Lemma Qdiv_nonzero_num n d :
  ~ (inject_Z n / d == 0)%Q -> n <> 0.
Proof.
  intros H ->. apply H. unfold Qdiv. apply Qmult_0_l.
Qed.

(** A deal of non-zero probability takes three cards that are there. *)
Lemma get_probability_spec c1 c2 c3 distr :
  shoe_wf distr -> 1 <= c1 <= 13 -> 1 <= c2 <= 13 -> 1 <= c3 <= 13 ->
  exists p,
    kelly_pyx.get_probability c1 c2 c3 distr = Some (p, distr) /\
    (Qeq_bool p 0 = false ->
     1 <= shoe_get distr c1 /\
     1 <= shoe_get (long_decr distr c1) c2 /\
     1 <= shoe_get (long_decr (long_decr distr c1) c2) c3).
Proof.
  intros [Hlen Hc] H1 H2 H3.
  pose proof (Hc c1 H1) as Hr1. pose proof (Hc c2 H2) as Hr2.
  pose proof (Hc c3 H3) as Hr3.
  rewrite get_probability_eq.
  destruct (Qlt_bool (kelly_pyx.cards_left distr) 3).
  - exists 0%Q. split; [reflexivity|]. intros H. discriminate H.
  - eexists. split.
    + rewrite long_restore_two by assumption. reflexivity.
    + intros Hp. apply Qeq_bool_neq in Hp.
      assert (Hn1 : shoe_get distr c1 <> 0).
      { intros E. apply Hp. rewrite E. unfold Qdiv. rewrite !Qmult_0_l. reflexivity. }
      assert (Hn2 : shoe_get (long_decr distr c1) c2 <> 0).
      { intros E. apply Hp. rewrite E. unfold Qdiv.
        rewrite (Qmult_0_l (/ _)), Qmult_0_r, Qmult_0_l. reflexivity. }
      assert (Hn3 : shoe_get (long_decr (long_decr distr c1) c2) c3 <> 0).
      { intros E. apply Hp. rewrite E. unfold Qdiv.
        rewrite (Qmult_0_l (/ _)), Qmult_0_r. reflexivity. }
      assert (G1 : 1 <= shoe_get distr c1) by lia.
      assert (E2 : shoe_get (long_decr distr c1) c2
                   = if c1 =? c2 then shoe_get distr c1 - 1 else shoe_get distr c2).
      { apply long_decr_get; lia. }
      assert (G2 : 1 <= shoe_get (long_decr distr c1) c2).
      { revert Hn2. rewrite E2. destruct (c1 =? c2) eqn:E; lia. }
      assert (B2 : shoe_get (long_decr distr c1) c2 < 2 ^ 31).
      { rewrite E2. destruct (c1 =? c2); lia. }
      split; [exact G1|]. split; [exact G2|].
      revert Hn3.
      rewrite (long_decr_get (long_decr distr c1) c2 c3)
        by (rewrite ?long_decr_length; lia).
      destruct (c2 =? c3) eqn:E23; [lia|].
      rewrite long_decr_get by lia.
      destruct (c1 =? c3) eqn:E13; lia.
Qed.

Lemma kelly_is_ace_01 card : 0 <= kelly_pyx.is_ace card <= 1.
Proof. unfold kelly_pyx.is_ace. destruct (card =? 1); lia. Qed.

Lemma get_player_aces c1 c2 :
  - 1 <= snd (kelly_pyx.get_player c1 c2) <= 2.
Proof.
  unfold kelly_pyx.get_player.
  pose proof (kelly_is_ace_01 c1). pose proof (kelly_is_ace_01 c2).
  assert (E : int_add (kelly_pyx.is_ace c1) (kelly_pyx.is_ace c2)
              = kelly_pyx.is_ace c1 + kelly_pyx.is_ace c2).
  { apply int_wrap_id. unfold int_range. lia. }
  rewrite E.
  destruct (_ >? 21); simpl; [|lia].
  unfold int_sub. rewrite int_wrap_id by (unfold int_range; lia). lia.
Qed.

Lemma wp_on_rd {A} (m : M RewardDistribution A) f (post : A -> kelly_pyx.run_state -> Prop) :
  wp m (kelly_pyx.rd f)
     (fun a r => post a {| kelly_pyx.card_distr := kelly_pyx.card_distr f;
                           kelly_pyx.rd := r |}) ->
  wp (kelly_pyx.on_rd m) f post.
Proof.
  intros (a & r & Hm & Hp). eexists a, _. split; [|exact Hp].
  unfold kelly_pyx.on_rd. rewrite Hm. reflexivity.
Qed.

Lemma kelly_get_value_bounds card : 1 <= card -> 2 <= kelly_pyx.get_value card <= 11.
Proof. apply get_value_bounds. Qed.

Lemma dealer_blackjack_q_eq shoe c3 :
  1 <= c3 ->
  (if kelly_pyx.get_value c3 <? 10 then 0%Q
   else kelly_pyx.get_dealer_blackjack_probability shoe (kelly_pyx.get_value c3))
  = dealer_blackjack_q shoe c3.
Proof.
  intros H. pose proof (kelly_get_value_bounds c3 H) as Hv.
  unfold dealer_blackjack_q, kelly_pyx.get_dealer_blackjack_probability.
  cbv zeta.
  destruct (kelly_pyx.get_value c3 <? 10) eqn:E1; [reflexivity|].
  destruct (kelly_pyx.get_value c3 =? 10) eqn:E2;
    destruct (kelly_pyx.get_value c3 =? 11) eqn:E3; try lia; reflexivity.
Qed.

Lemma chosen_if st a b :
  chosen st a b
    (if Qlt_bool (distribution_value st b) (distribution_value st a) then a else b).
Proof.
  unfold chosen.
  destruct (Qlt_bool _ _) eqn:E.
  - apply Qlt_bool_iff in E. repeat split; intros H; try reflexivity; exfalso.
    + exact (Qlt_irrefl _ (Qlt_trans _ _ _ E H)).
    + rewrite H in E. exact (Qlt_irrefl _ E).
  - assert (~ (distribution_value st b < distribution_value st a)%Q).
    { intros H. apply Qlt_bool_iff in H. congruence. }
    repeat split; intros; try reflexivity; tauto.
Qed.

(** The hands that [get_player] makes of two cards. *)
Lemma get_player_hand c1 c2 :
  1 <= c1 <= 13 -> 1 <= c2 <= 13 ->
  hand_ok (fst (kelly_pyx.get_player c1 c2)) (snd (kelly_pyx.get_player c1 c2)) /\
  2 <= fst (kelly_pyx.get_player c1 c2) - 10 * snd (kelly_pyx.get_player c1 c2) /\
  fst (kelly_pyx.get_player c1 c2) <= 21 /\
  0 <= snd (kelly_pyx.get_player c1 c2) <= 1.
Proof.
  intros H1 H2. unfold hand_ok.
  each_card H1; each_card H2;
    match goal with
    | |- context [kelly_pyx.get_player ?a ?b] =>
        let v := eval vm_compute in (kelly_pyx.get_player a b) in
        change (kelly_pyx.get_player a b) with v
    end;
    cbn [fst snd]; lia.
Qed.

(** ** The loops of [get_distr] *)







(** The state in which [set_card_distribution] leaves the solver. *)
Lemma set_card_distribution_run card_distribution st :
  exists st',
    set_card_distribution card_distribution st = Some (tt, st') /\
    precomp_distr st' = precomp_distr st /\
    CONSTANT_TIE st' = CONSTANT_TIE st /\
    CONSTANT_LOSE st' = CONSTANT_LOSE st /\
    (carray_from_py_int card_distribution 14 = Some card_distribution ->
     st' = with_card_distr st card_distribution) /\
    (carray_from_py_int card_distribution 14 = None -> st' = st).
Proof.
  unfold set_card_distribution, modify.
  destruct (carray_from_py_int card_distribution 14) as [v|] eqn:E.
  - exists (with_card_distr st v). repeat split; try reflexivity.
    + intros [= ->]. reflexivity.
    + intros H. discriminate H.
  - exists st. repeat split; try reflexivity. intros H. discriminate H.
Qed.

Section BettorProofs.

Variable rules : rule_variation.
Variable stale : Z -> Z -> Z -> list Z.


(** One deal, step by step. *)
Lemma deal_run fuel c1 c2 c3 acc f :
  shoe_wf (kelly_pyx.card_distr f) ->
  1 <= c1 <= 13 -> 1 <= c2 <= 13 -> 1 <= c3 <= 13 ->
  (hand_fuel <= fuel)%nat ->
  exists p,
    kelly_pyx.get_probability c1 c2 c3 (kelly_pyx.card_distr f)
    = Some (p, kelly_pyx.card_distr f) /\
    (Qeq_bool p 0 = true ->
     kelly_pyx.deal rules stale fuel c1 c2 c3 acc f = Some (acc, f)) /\
    (Qeq_bool p 0 = false ->
     let pt := fst (kelly_pyx.get_player c1 c2) in
     let pa := snd (kelly_pyx.get_player c1 c2) in
     let dt := kelly_pyx.get_value c3 in
     let q := dealer_blackjack_q (kelly_pyx.card_distr f) c3 in
     forall r0,
       set_card_distribution
         (kelly_pyx.remove_cards (stale c1 c2 c3) (kelly_pyx.card_distr f) c1 c2 c3)
         (kelly_pyx.rd f) = Some (tt, r0) ->
       exists current r1 d r2,
         distr_hit_stand_double rules fuel pt pa dt r0 = Some (current, r1) /\
         (if kelly_pyx.matching_cards rules c1 c2
          then exists split,
                 distr_split rules fuel pt pa dt r1 = Some (split, r2) /\
                 chosen r2 split current d
          else d = current /\ r2 = r1) /\
         kelly_pyx.deal rules stale fuel c1 c2 c3 acc f
         = Some (kelly_pyx.add
                   (kelly_pyx.add acc d (p * (1 - q)))
                   (if pt =? 21 then CONSTANT_TIE r2 else CONSTANT_LOSE r2)
                   (p * q),
                 {| kelly_pyx.card_distr := kelly_pyx.card_distr f;
                    kelly_pyx.rd := r2 |})).
Proof.
  intros Hwf H1 H2 H3 Hfuel. unfold hand_fuel in Hfuel.
  destruct (get_probability_spec c1 c2 c3 _ Hwf H1 H2 H3) as (p & Hp & _).
  exists p. split; [exact Hp|]. split.
  { intros Ep. unfold kelly_pyx.deal. unfold bind at 1.
    unfold kelly_pyx.on_card_distr. rewrite Hp, Ep. destruct f; reflexivity. }
  intros Ep pt pa dt q r0 Hset.
  destruct (get_player_hand c1 c2 H1 H2) as (Hok & Hhard & Hpt & Hpa).
  fold pt pa in Hok, Hhard, Hpt, Hpa.
  pose proof (kelly_get_value_bounds c3 ltac:(lia)) as Hdt. fold dt in Hdt.
  destruct (distr_hit_stand_double_returns rules fuel pt pa dt r0)
    as (current & r1 & E1 & _); [exact Hok|lia|lia|lia|].
  assert (Hdeal : forall d r2,
      (if kelly_pyx.matching_cards rules c1 c2
       then exists split,
              distr_split rules fuel pt pa dt r1 = Some (split, r2) /\
              d = (if Qlt_bool (distribution_value r2 current)
                               (distribution_value r2 split)
                   then split else current)
       else d = current /\ r2 = r1) ->
      kelly_pyx.deal rules stale fuel c1 c2 c3 acc f
      = Some (kelly_pyx.add
                (kelly_pyx.add acc d (p * (1 - q)))
                (if pt =? 21 then CONSTANT_TIE r2 else CONSTANT_LOSE r2)
                (p * q),
              {| kelly_pyx.card_distr := kelly_pyx.card_distr f;
                 kelly_pyx.rd := r2 |})).
  { intros d r2 Hd.
    unfold kelly_pyx.deal. unfold bind at 1.
    unfold kelly_pyx.on_card_distr. rewrite Hp, Ep.
    rewrite (surjective_pairing (kelly_pyx.get_player c1 c2)).
    fold pt pa dt.
    unfold bind at 1. unfold gets at 1.
    cbn [kelly_pyx.card_distr kelly_pyx.rd].
    unfold bind at 1. unfold kelly_pyx.on_rd at 1.
    cbn [kelly_pyx.card_distr kelly_pyx.rd]. rewrite Hset.
    unfold bind at 1. unfold kelly_pyx.on_rd at 1.
    cbn [kelly_pyx.card_distr kelly_pyx.rd]. rewrite E1.
    unfold bind at 1. unfold gets at 1.
    cbn [kelly_pyx.card_distr kelly_pyx.rd].
    rewrite (dealer_blackjack_q_eq _ c3) by lia. fold q.
    unfold bind at 1.
    destruct (kelly_pyx.matching_cards rules c1 c2).
    - destruct Hd as (split & E2 & ->).
      unfold bind at 1. unfold kelly_pyx.on_rd at 1.
      cbn [kelly_pyx.card_distr kelly_pyx.rd]. rewrite E2.
      reflexivity.
    - destruct Hd as [-> ->]. reflexivity. }
  destruct (kelly_pyx.matching_cards rules c1 c2) eqn:Em.
  - destruct (distr_split_returns rules fuel pt pa dt r1)
      as (split & r2 & E2 & _); [lia|lia|lia|].
    exists current, r1,
      (if Qlt_bool (distribution_value r2 current) (distribution_value r2 split)
       then split else current), r2.
    split; [exact E1|].
    split; [exists split; split; [exact E2|apply chosen_if]|].
    apply Hdeal. exists split. split; [exact E2|reflexivity].
  - exists current, r1, current, r1. split; [exact E1|].
    split; [split; reflexivity|].
    apply Hdeal. split; reflexivity.
Qed.

(** One deal returns and leaves the caller's shoe as it was. *)
Lemma deal_spec fuel c1 c2 c3 distr f :
  shoe_wf (kelly_pyx.card_distr f) ->
  1 <= c1 <= 13 -> 1 <= c2 <= 13 -> 1 <= c3 <= 13 ->
  (hand_fuel <= fuel)%nat ->
  wp (kelly_pyx.deal rules stale fuel c1 c2 c3 distr) f
     (fun _ f' => kelly_pyx.card_distr f' = kelly_pyx.card_distr f).
Proof.
  intros Hwf H1 H2 H3 Hfuel.
  destruct (deal_run fuel c1 c2 c3 distr f Hwf H1 H2 H3 Hfuel)
    as (p & _ & Hzero & Hpos).
  destruct (Qeq_bool p 0) eqn:Ep.
  - eexists _, _. split; [apply Hzero; reflexivity|reflexivity].
  - destruct (set_card_distribution_run
                (kelly_pyx.remove_cards (stale c1 c2 c3) (kelly_pyx.card_distr f)
                   c1 c2 c3) (kelly_pyx.rd f)) as (r0 & Hset & _).
    destruct (Hpos eq_refl r0 Hset) as (current & r1 & d & r2 & _ & _ & E).
    eexists _, _. split; [exact E|reflexivity].
Qed.

Lemma wp_for_each_in {S A B} (inv : A -> S -> Prop)
    (xs : list B) (body : B -> A -> M S A) (acc : A) (st : S) :
  inv acc st ->
  (forall x acc st, In x xs -> inv acc st -> wp (body x acc) st inv) ->
  wp (for_each xs body acc) st inv.
Proof.
  revert acc st. induction xs as [|x xs IH]; intros acc st Hinv Hbody; simpl.
  - apply wp_ret. exact Hinv.
  - apply wp_bind. eapply wp_mono.
    + apply Hbody; [left; reflexivity|exact Hinv].
    + intros acc' st' Hinv'. apply IH; [exact Hinv'|].
      intros y acc'' st'' Hy. apply Hbody. right. exact Hy.
Qed.

(** [get_distr] returns, and the caller's shoe is as it was. *)
Lemma get_distr_spec fuel f :
  shoe_wf (kelly_pyx.card_distr f) ->
  (hand_fuel <= fuel)%nat ->
  wp (kelly_pyx.get_distr rules stale fuel) f
     (fun _ f' => kelly_pyx.card_distr f' = kelly_pyx.card_distr f).
Proof.
  intros Hwf Hfuel. unfold kelly_pyx.get_distr.
  set (inv := fun (_ : list Q) (f' : kelly_pyx.run_state) =>
                kelly_pyx.card_distr f' = kelly_pyx.card_distr f).
  apply wp_bind.
  eapply wp_mono.
  - apply (wp_for_each_in inv); [reflexivity|].
    intros c1 acc1 f1 Hc1 Hf1. apply in_range in Hc1.
    apply (wp_for_each_in inv); [exact Hf1|].
    intros c2 acc2 f2 Hc2 Hf2. apply in_range in Hc2.
    apply (wp_for_each_in inv); [exact Hf2|].
    intros c3 acc3 f3 Hc3 Hf3. apply in_range in Hc3.
    unfold inv in *.
    eapply wp_mono.
    + apply deal_spec; rewrite ?Hf3; try assumption; lia.
    + intros acc' f' Hf'. cbv beta in Hf'. rewrite Hf'. exact Hf3.
  - intros acc f' Hf'. cbv beta.
    apply wp_bind, wp_on_rd, wp_modify, wp_ret. exact Hf'.
Qed.

End BettorProofs.

(** ** Claims about the solver *)

Lemma shoe_wf_single_deck : shoe_wf single_deck.
Proof.
  split; [reflexivity|]. intros card H.
  unfold single_deck. each_card H; shoe_cbv; lia.
Defined.

Lemma example_unit_mass shoe : unit_mass (example_solver shoe).
Proof.
  split; [|repeat split].
  intros k d H. simpl in H. rewrite lookup_empty in H. discriminate H.
Defined.

(** C10: called with [player_total > 21], [distr_stand] returns the LOSE
    constant at once, whatever the dealer's hand, the flag, the shoe, the
    cache and the rules; the solver is left untouched. *)
Theorem distr_stand_player_bust
    (rules : rule_variation) (fuel : nat)
    (player_total dealer_aces dealer_total : Z) (first_call : bool)
    (st : RewardDistribution) :
  21 < player_total ->
  distr_stand rules (S fuel) player_total dealer_aces dealer_total first_call st
  = Some (CONSTANT_LOSE st, st).
Proof.
  intros H. rewrite distr_stand_S.
  destruct (player_total >? 21) eqn:E; [reflexivity|lia].
Qed.

Lemma distr_stand_player_bust_witness :
  21 < 22 /\
  distr_stand example_rules 1 22 0 10 true (example_solver single_deck)
  = Some (constant_distr (-1), example_solver single_deck).
Proof.
  split; [lia|].
  apply (distr_stand_player_bust example_rules 0 22 0 10 true
           (example_solver single_deck)).
  lia.
Defined.

(** C3: every public entry point of the solver, and the bettor's
    [get_distr], returns and leaves the shoe it was given as it found it;
    for [get_distr] this holds whatever the solver held before and
    whatever is read back through the view of [remove_cards]. *)
Theorem shoe_conservation
    (rules : rule_variation) (stale : Z -> Z -> Z -> list Z) (fuel : nat)
    (e : entry_point) (st : RewardDistribution) (f : kelly_pyx.run_state) :
  shoe_wf (card_distr st) ->
  int_range (entry_aces e) ->
  (fuel_for (card_distr st) (entry_aces e) <= fuel)%nat ->
  shoe_wf (kelly_pyx.card_distr f) ->
  (hand_fuel <= fuel)%nat ->
  (exists d st', call rules fuel e st = Some (d, st')
                 /\ card_distr st' = card_distr st) /\
  (exists d f', kelly_pyx.get_distr rules stale fuel f = Some (d, f')
                /\ kelly_pyx.card_distr f' = kelly_pyx.card_distr f).
Proof.
  intros Hwf Ha Hfuel Hwf' Hfuel'. split.
  - destruct (call_frames rules fuel e st Hwf Ha Hfuel) as (d & st' & E & Hfr).
    exists d, st'. split; [exact E|]. apply frame_card_distr. exact Hfr.
  - destruct (get_distr_spec rules stale fuel f Hwf' Hfuel')
      as (d & f' & E & Hf).
    exists d, f'. split; [exact E|exact Hf].
Qed.

Lemma shoe_conservation_witness :
  let st := example_solver single_deck in
  let f := {| kelly_pyx.card_distr := single_deck; kelly_pyx.rd := st |} in
  let stale := fun _ _ _ : Z => repeat (2 ^ 40) 14 in
  (exists d st', call example_rules 200 (Distr_split 16 0 10) st = Some (d, st')
                 /\ card_distr st' = single_deck) /\
  (exists d f', kelly_pyx.get_distr example_rules stale 200 f = Some (d, f')
                /\ kelly_pyx.card_distr f' = single_deck).
Proof.
  intros st f stale.
  apply (shoe_conservation example_rules stale 200 (Distr_split 16 0 10) st f).
  - exact shoe_wf_single_deck.
  - unfold int_range. simpl. lia.
  - vm_compute. lia.
  - exact shoe_wf_single_deck.
  - vm_compute. lia.
Defined.

(** C2, as the code has it: each two-way choice returns the operand of
    larger utility and, on a tie, the _second_ operand of the comparison:
    the stand distribution in [distr_hit_stand], the double distribution
    in [distr_hit_stand_double]. *)
Theorem choice_keeps_second_operand_on_tie
    (rules : rule_variation) (fuel : nat)
    (player_total player_aces dealer_total : Z) (st : RewardDistribution) :
  shoe_wf (card_distr st) ->
  int_range player_aces ->
  (fuel_for (card_distr st) player_aces <= fuel)%nat ->
  let pt := fst (demote player_total player_aces) in
  let pa := snd (demote player_total player_aces) in
  (exists dh st1 ds st2 r,
      distr_hit rules fuel pt pa dealer_total st = Some (dh, st1) /\
      distr_stand rules fuel pt (is_ace dealer_total) dealer_total true st1
      = Some (ds, st2) /\
      distr_hit_stand rules (S fuel) player_total player_aces dealer_total st
      = Some (r, st2) /\
      chosen st2 dh ds r) /\
  (pt <> 21 ->
   exists dhs st1 dd st2 r,
      distr_hit_stand rules fuel pt pa dealer_total st = Some (dhs, st1) /\
      distr_double rules fuel pt pa dealer_total st1 = Some (dd, st2) /\
      distr_hit_stand_double rules fuel player_total player_aces dealer_total st
      = Some (r, st2) /\
      chosen st2 dhs dd r).
Proof.
  intros Hwf Hpa Hfuel pt pa. apply fuel_for_le in Hfuel.
  assert (Hd : int_range pa /\ (Z.to_nat pa <= Z.to_nat player_aces)%nat).
  { unfold pa, demote.
    destruct ((player_total >? 21) && (player_aces >? 0)) eqn:En; simpl.
    - apply andb_true_iff in En as [E1 E2].
      assert (Hpa' : int_sub player_aces 1 = player_aces - 1).
      { apply int_wrap_id. unfold int_range in *. lia. }
      split; [apply int_wrap_range|lia].
    - split; [exact Hpa|lia]. }
  destruct Hd as [Hpa' Hle].
  remember (Z.to_nat (shoe_total (card_distr st))) as n eqn:En.
  split.
  - destruct (distr_hit_frames rules fuel pt pa dealer_total st Hwf Hpa')
      as (dh & st1 & E1 & Hfr1); [rewrite <- En; lia|].
    pose proof (frame_card_distr _ _ Hfr1) as Hcd1.
    destruct (distr_stand_first_frames rules fuel pt dealer_total st1)
      as (ds & st2 & E2 & Hfr2);
      [rewrite Hcd1; exact Hwf|rewrite Hcd1, <- En; lia|].
    exists dh, st1, ds, st2. eexists. split; [exact E1|]. split; [exact E2|].
    split; [|apply chosen_if].
    rewrite distr_hit_stand_S. fold (demote player_total player_aces).
    rewrite (surjective_pairing (demote player_total player_aces)).
    fold pt pa. unfold bind. rewrite E1, E2. reflexivity.
  - intros Hne.
    destruct (distr_hit_stand_frames rules fuel pt pa dealer_total st Hwf Hpa')
      as (dhs & st1 & E1 & Hfr1); [rewrite <- En; lia|].
    pose proof (frame_card_distr _ _ Hfr1) as Hcd1.
    destruct (distr_double_frames rules fuel pt pa dealer_total st1)
      as (dd & st2 & E2 & Hfr2);
      [rewrite Hcd1; exact Hwf|rewrite Hcd1, <- En; lia|].
    exists dhs, st1, dd, st2. eexists. split; [exact E1|]. split; [exact E2|].
    split; [|apply chosen_if].
    unfold distr_hit_stand_double. fold (demote player_total player_aces).
    rewrite (surjective_pairing (demote player_total player_aces)).
    fold pt pa.
    destruct (pt =? 21) eqn:E21; [lia|].
    unfold bind. rewrite E1, E2. reflexivity.
Qed.

Lemma choice_keeps_second_operand_on_tie_witness :
  let st := example_solver single_deck in
  (exists dh st1 ds st2 r,
      distr_hit example_rules 200 16 0 10 st = Some (dh, st1) /\
      distr_stand example_rules 200 16 (is_ace 10) 10 true st1 = Some (ds, st2) /\
      distr_hit_stand example_rules 201 16 0 10 st = Some (r, st2) /\
      chosen st2 dh ds r) /\
  (16 <> 21 ->
   exists dhs st1 dd st2 r,
      distr_hit_stand example_rules 200 16 0 10 st = Some (dhs, st1) /\
      distr_double example_rules 200 16 0 10 st1 = Some (dd, st2) /\
      distr_hit_stand_double example_rules 200 16 0 10 st = Some (r, st2) /\
      chosen st2 dhs dd r).
Proof.
  intros st.
  apply (choice_keeps_second_operand_on_tie example_rules 200 16 0 10 st).
  - exact shoe_wf_single_deck.
  - unfold int_range. lia.
  - vm_compute. lia.
Defined.

(** C2, counterexample to the tie rule as stated: with one ace and one
    eight left, a hard 13 against a dealer 9 has a hit-stand distribution
    (half LOSE, half WIN) and a double distribution (half -2, half +2) of
    equal utility zero; [distr_hit_stand_double] returns the double
    distribution, the second operand, and not the hit-stand one. *)
Lemma tie_returns_double :
  let st := example_solver ace_eight in
  exists dhs st1 dd st2,
    distr_hit_stand example_rules 10 13 0 9 st = Some (dhs, st1) /\
    distr_double example_rules 10 13 0 9 st1 = Some (dd, st2) /\
    (distribution_value st2 dhs == distribution_value st2 dd)%Q /\
    distr_hit_stand_double example_rules 10 13 0 9 st = Some (dd, st2) /\
    (dget dhs 10 == 1 # 2)%Q /\ (dget dd 10 == 0)%Q /\
    (dget dhs 12 == 0)%Q /\ (dget dd 12 == 1 # 2)%Q /\
    dd <> dhs.
Proof.
  intros st.
  eexists _, _, _, _.
  split; [vm_compute; reflexivity|].
  split; [vm_compute; reflexivity|].
  split; [vm_compute; reflexivity|].
  split; [vm_compute; reflexivity|].
  repeat split; try (vm_compute; reflexivity).
  vm_compute. discriminate.
Qed.

(** C4, as the code has it: on a shoe that cannot run out, from a cache
    whose distributions all have mass one, the distributions returned by
    [distr_hit] and [distr_stand] have mass exactly one.  Each function
    has its own condition: [distr_stand] needs the dealer's draws alone,
    on any dealer hand of non-negative hard total; [distr_hit] needs the
    player's draws and then the dealer's, against a dealer card. *)
Theorem draw_distributions_unit_mass
    (rules : rule_variation) (fuel : nat) (st : RewardDistribution) :
  shoe_wf (card_distr st) ->
  unit_mass st ->
  (forall player_total player_aces dealer_total,
      hit_enough (card_distr st) player_total player_aces dealer_total ->
      (fuel_for (card_distr st) player_aces <= fuel)%nat ->
      exists d st',
        distr_hit rules fuel player_total player_aces dealer_total st
        = Some (d, st')
        /\ (dsum d == 1)%Q /\ unit_mass st') /\
  (forall player_total dealer_aces dealer_total first_call,
      stand_enough (card_distr st) dealer_aces dealer_total first_call ->
      (fuel_for (card_distr st) dealer_aces <= fuel)%nat ->
      exists d st',
        distr_stand rules fuel player_total dealer_aces dealer_total first_call st
        = Some (d, st')
        /\ (dsum d == 1)%Q /\ unit_mass st').
Proof.
  intros Hwf Hu.
  remember (Z.to_nat (shoe_total (card_distr st))) as n eqn:En.
  split.
  - intros player_total player_aces dealer_total Hhit Hf1.
    apply fuel_for_le in Hf1.
    assert (Hpa : int_range player_aces).
    { destruct Hhit as [(Ha & Hh & Hr) _]. unfold int_range. lia. }
    destruct (proj1 (distr_hit_spec rules fuel) player_total player_aces
                dealer_total st Hwf Hpa)
      as (d & st' & E & Hfr & Hs); [rewrite <- En; lia|].
    exists d, st'. split; [exact E|].
    destruct (Hs Hu Hhit) as [Hu' Hd]. auto.
  - intros player_total dealer_aces dealer_total first_call Hstand Hf2.
    apply fuel_for_le in Hf2.
    assert (Hda : int_range dealer_aces).
    { destruct Hstand as [(Ha & Hh & Hr) _]. unfold int_range. lia. }
    destruct (distr_stand_spec rules fuel player_total dealer_aces dealer_total
                first_call st Hwf Hda)
      as (d & st' & E & Hfr & Hs); [rewrite <- En; lia|].
    exists d, st'. split; [exact E|].
    destruct (Hs Hu (or_intror Hstand)) as [Hu' Hd]. auto.
Qed.

(** [distr_hit] on a hard 16 against a ten; [distr_stand] with the dealer
    on a hard 16, where no condition of [distr_hit] could hold. *)
Lemma draw_distributions_unit_mass_witness :
  let st := example_solver single_deck in
  (exists d st',
      distr_hit example_rules 200 16 0 10 st = Some (d, st')
      /\ (dsum d == 1)%Q /\ unit_mass st') /\
  (exists d st',
      distr_stand example_rules 200 20 0 16 false st = Some (d, st')
      /\ (dsum d == 1)%Q /\ unit_mass st').
Proof.
  intros st.
  destruct (draw_distributions_unit_mass example_rules 200 st
              shoe_wf_single_deck (example_unit_mass single_deck))
    as [Hhit Hstand].
  split.
  - apply Hhit.
    + unfold hit_enough, hand_ok. vm_compute. repeat split; discriminate.
    + vm_compute. lia.
  - apply Hstand.
    + unfold stand_enough, hand_ok. vm_compute. repeat split; discriminate.
    + vm_compute. lia.
Defined.

(** C4, counterexample to the mass claim as stated: on a depleted shoe the
    draw loops find nothing to draw and return the empty distribution.
    With a single five left, [distr_hit] on a hard 10 against a dealer 10
    has mass zero; with a single ace left, so has [distr_stand] on the
    dealer's peeked first draw. *)
Lemma depleted_shoe_mass_zero :
  (exists d st',
      distr_hit example_rules 10 10 0 10 (example_solver lone_five) = Some (d, st')
      /\ (dsum d == 0)%Q /\ ~ (dsum d == 1)%Q) /\
  (exists d st',
      distr_stand example_rules 10 20 0 10 true (example_solver lone_ace)
      = Some (d, st')
      /\ (dsum d == 0)%Q /\ ~ (dsum d == 1)%Q).
Proof.
  split; eexists _, _; (split; [vm_compute; reflexivity|]);
    (split; [vm_compute; reflexivity|vm_compute; discriminate]).
Qed.


(** ** Claims about the bettor *)




(** ** Claims about the distribution algebra *)

Ltac cases_below H :=
  match type of H with
  | (?k < _)%nat =>
      repeat (destruct k as [|k]; [ | apply (proj2 (Nat.succ_lt_mono _ _)) in H ]);
      try (exfalso; inversion H; fail)
  end.

(** C9: [double_distr] moves old bucket [i] to bucket [2i - 8] for [i] in
    [4..12] and leaves every other bucket of the result at zero. *)
Theorem double_distr_contract (distr : list Q) :
  length distr = 17%nat ->
  length (double_distr distr) = 17%nat /\
  (forall i, (4 <= i <= 12)%nat ->
     dget (double_distr distr) (2 * i - 8) = dget distr i) /\
  (forall k, (k < 17)%nat ->
     (forall i, (4 <= i <= 12)%nat -> k <> (2 * i - 8)%nat) ->
     dget (double_distr distr) k = 0%Q).
Proof.
  intros Hlen.
  destruct (list17 distr Hlen)
    as (a0&a1&a2&a3&a4&a5&a6&a7&a8&a9&a10&a11&a12&a13&a14&a15&a16&->).
  split; [reflexivity|split].
  - intros i [Hlo Hhi].
    assert (Hi : (i < 13)%nat) by lia.
    cases_below Hi; try lia; reflexivity.
  - intros k Hk Hne.
    cases_below Hk; try reflexivity; exfalso.
    + apply (Hne 4%nat); [lia|reflexivity].
    + apply (Hne 5%nat); [lia|reflexivity].
    + apply (Hne 6%nat); [lia|reflexivity].
    + apply (Hne 7%nat); [lia|reflexivity].
    + apply (Hne 8%nat); [lia|reflexivity].
    + apply (Hne 9%nat); [lia|reflexivity].
    + apply (Hne 10%nat); [lia|reflexivity].
    + apply (Hne 11%nat); [lia|reflexivity].
    + apply (Hne 12%nat); [lia|reflexivity].
Qed.

(** C8: [double_variable] replaces a distribution by its self-convolution
    clamped to the 17 buckets: bucket [k] of the result collects
    [d[i] * d[j]] over the pairs with [i + j - 8 = k], and the result has
    no other bucket. *)
Theorem double_variable_contract (distr : list Q) :
  length distr = 17%nat ->
  length (double_variable distr) = 17%nat /\
  (forall k, (k < 17)%nat ->
     dget (double_variable distr) k = self_convolve_bucket distr k).
Proof.
  intros Hlen.
  destruct (list17 distr Hlen)
    as (a0&a1&a2&a3&a4&a5&a6&a7&a8&a9&a10&a11&a12&a13&a14&a15&a16&->).
  split; [reflexivity|].
  intros k Hk.
  cases_below Hk;
    cbv [double_variable self_convolve_bucket fold_left seq dget nth insert
         list_insert Nat.add Nat.sub Nat.ltb Nat.leb Nat.eqb andb repeat];
    reflexivity.
Qed.

Lemma double_variable_contract_witness :
  length (double_variable (constant_distr 1)) = 17%nat /\
  (forall k, (k < 17)%nat ->
     dget (double_variable (constant_distr 1)) k
     = self_convolve_bucket (constant_distr 1) k).
Proof.
  apply (double_variable_contract (constant_distr 1)). reflexivity.
Defined.

Lemma double_distr_contract_witness :
  length (double_distr (constant_distr 1)) = 17%nat /\
  (forall i, (4 <= i <= 12)%nat ->
     dget (double_distr (constant_distr 1)) (2 * i - 8)
     = dget (constant_distr 1) i) /\
  (forall k, (k < 17)%nat ->
     (forall i, (4 <= i <= 12)%nat -> k <> (2 * i - 8)%nat) ->
     dget (double_distr (constant_distr 1)) k = 0%Q).
Proof.
  apply (double_distr_contract (constant_distr 1)). reflexivity.
Defined.

(** ** Claims about construction *)

(** C1, what the code does: construction never fails.  With the payout,
    the shoe size and the peek flag all outside the supported envelope,
    [__cinit__] prints its three messages and returns a solver all the
    same; and so for every rule set and utility function. *)
Theorem cinit_returns_on_unsupported_rules (utility_function : Q -> Q) :
  (exists rd,
      __cinit__ unsupported_rules utility_function
      = (["blackjakc_payout_exception"%string; "shoe_size_exception"%string;
          "dealer_peeks_exception"%string],
         Returned rd)) /\
  (forall rules, exists out rd,
      __cinit__ rules utility_function = (out, Returned rd)).
Proof.
  split.
  - eexists. reflexivity.
  - intros rules. unfold __cinit__. eexists _, _. reflexivity.
Qed.

(** On the supported rule set nothing is printed, and the solver built on
    the identity utility is the one used in the examples, its shoe still
    empty. *)
Lemma cinit_example :
  __cinit__ example_rules (fun x => x)
  = ([], Returned (example_solver (repeat 0 14))).
Proof. reflexivity. Qed.

(** ** Claims about the state hash *)

Ltac nowrap :=
  repeat match goal with
         | |- context [int128_wrap ?x] =>
             lazymatch x with
             | context [int128_wrap _] => fail
             | _ => rewrite (int128_wrap_id x) by (unfold int128_range; lia)
             end
         end.

Lemma get_state_hash_packed st pt a dt m :
  hash_domain (card_distr st) pt a dt m ->
  get_state_hash st pt a dt m = packed (card_distr st) pt a dt m.
Proof.
  intros (Hc & Hm & Hpt & Hdt & Ha).
  pose proof (Hc 1 ltac:(lia)). pose proof (Hc 2 ltac:(lia)).
  pose proof (Hc 3 ltac:(lia)). pose proof (Hc 4 ltac:(lia)).
  pose proof (Hc 5 ltac:(lia)). pose proof (Hc 6 ltac:(lia)).
  pose proof (Hc 7 ltac:(lia)). pose proof (Hc 8 ltac:(lia)).
  pose proof (Hc 9 ltac:(lia)). pose proof (Hc 10 ltac:(lia)).
  pose proof (Hc 11 ltac:(lia)). pose proof (Hc 12 ltac:(lia)).
  pose proof (Hc 13 ltac:(lia)).
  clear Hc.
  unfold get_state_hash, packed. rewrite range_1_14.
  cbv beta iota zeta delta [fold_left fold_right].
  generalize dependent (shoe_get (card_distr st)). intros c **.
  nowrap. lia.
Qed.

Lemma digit10 d d' x x' :
  0 <= d < 10 -> 0 <= d' < 10 -> d + 10 * x = d' + 10 * x' -> d = d' /\ x = x'.
Proof. lia. Qed.

Lemma digit100 d d' x x' :
  0 <= d < 100 -> 0 <= d' < 100 -> d + 100 * x = d' + 100 * x' ->
  d = d' /\ x = x'.
Proof. lia. Qed.

Lemma packed_injective shoe shoe' pt pt' a a' dt dt' m m' :
  hash_domain shoe pt a dt m ->
  hash_domain shoe' pt' a' dt' m' ->
  packed shoe pt a dt m = packed shoe' pt' a' dt' m' ->
  (forall i, 1 <= i <= 13 -> shoe_get shoe i = shoe_get shoe' i) /\
  pt = pt' /\ a = a' /\ dt = dt' /\ m = m'.
Proof.
  intros (Hc & Hm & Hpt & Hdt & Ha) (Hc' & Hm' & Hpt' & Hdt' & Ha') H.
  unfold packed in H. rewrite range_1_14 in H.
  cbv beta iota zeta delta [fold_right] in H.
  apply digit10 in H as [Em H]; [|lia|lia].
  do 13 (apply digit100 in H as [? H]; [|apply Hc; lia|apply Hc'; lia]).
  apply digit100 in H as [Ept H]; [|lia|lia].
  apply digit100 in H as [Edt H]; [|lia|lia].
  split; [|auto].
  intros i Hi. each_card Hi; assumption.
Qed.

(** C6, as the code has it: on tuples of natural numbers with every shoe
    count below 100, the mode in 0..5, the player total at most 31, the
    dealer total in 2..11 and at most 17014118 aces, [get_state_hash] is
    the decimal packing and two tuples of equal hash are equal. *)
Theorem get_state_hash_injective
    (st st' : RewardDistribution) (pt pt' a a' dt dt' m m' : Z) :
  hash_domain (card_distr st) pt a dt m ->
  hash_domain (card_distr st') pt' a' dt' m' ->
  get_state_hash st pt a dt m = get_state_hash st' pt' a' dt' m' ->
  (forall i, 1 <= i <= 13 ->
     shoe_get (card_distr st) i = shoe_get (card_distr st') i) /\
  pt = pt' /\ a = a' /\ dt = dt' /\ m = m'.
Proof.
  intros Hd Hd' H.
  rewrite !get_state_hash_packed in H by assumption.
  exact (packed_injective _ _ _ _ _ _ _ _ _ _ Hd Hd' H).
Qed.

Lemma hash_domain_example shoe pt a dt m :
  forallb (fun c => (0 <=? c) && (c <? 100)) shoe = true ->
  length shoe = 14%nat ->
  0 <= m <= 5 -> 0 <= pt <= 31 -> 2 <= dt <= 11 -> 0 <= a <= 17014118 ->
  hash_domain shoe pt a dt m.
Proof.
  intros Hall Hlen Hm Hpt Hdt Ha. split; [|auto].
  intros i Hi. rewrite forallb_forall in Hall.
  assert (Hin : In (shoe_get shoe i) shoe).
  { unfold shoe_get. apply nth_In. lia. }
  specialize (Hall _ Hin). lia.
Defined.

Lemma get_state_hash_injective_witness :
  (forall i, 1 <= i <= 13 ->
     shoe_get single_deck i = shoe_get single_deck i) /\
  16 = 16 /\ 0 = 0 /\ 10 = 10 /\ 2 = 2.
Proof.
  apply (get_state_hash_injective
           (example_solver single_deck)
           (with_precomp_distr (example_solver single_deck)
                               {[ 5 := constant_distr 1 ]})
           16 16 0 0 10 10 2 2).
  - apply hash_domain_example; try reflexivity; lia.
  - apply hash_domain_example; try reflexivity; lia.
  - reflexivity.
Defined.

(** C6, counterexample to injectivity as stated: the claim bounds the
    counts, the mode and the two totals but not the number of aces.  For
    340 million aces and more the product [k * aces] leaves the 128-bit
    range and wraps; an empty shoe with 442367077 aces and a loaded shoe
    with none then share one hash, every other component being within the
    stated bounds. *)
Lemma get_state_hash_collision :
  let st := example_solver empty_shoe in
  let st' := example_solver loaded_shoe in
  (forall i, 1 <= i <= 13 -> 0 <= shoe_get (card_distr st) i < 100) /\
  (forall i, 1 <= i <= 13 -> 0 <= shoe_get (card_distr st') i < 100) /\
  get_state_hash st 4 442367077 2 0 = get_state_hash st' 31 0 2 2 /\
  (4, 442367077, 2, 0) <> (31, 0, 2, 2).
Proof.
  intros st st'.
  split;
    [intros i Hi; each_card Hi; vm_compute; (split; [discriminate|reflexivity])|].
  split;
    [intros i Hi; each_card Hi; vm_compute; (split; [discriminate|reflexivity])|].
  split; [vm_compute; reflexivity|discriminate].
Qed.

(** ** Claims about the draw probabilities *)

Lemma Qsum_ext (f g : Z -> Q) l q q' :
  (q == q')%Q -> (forall c, In c l -> (f c == g c)%Q) ->
  (fold_left (fun q c => q + f c) l q == fold_left (fun q c => q + g c) l q')%Q.
Proof.
  revert q q'. induction l as [|x l IH]; intros q q' Hq Hfg; simpl; [exact Hq|].
  apply IH.
  - rewrite Hq, (Hfg x (or_introl eq_refl)). reflexivity.
  - intros c Hc. apply Hfg. right. exact Hc.
Qed.

Lemma probability_sum_one st b :
  shoe_wf (card_distr st) -> 1 <= drawable (card_distr st) b ->
  (probability_sum st b == 1)%Q.
Proof.
  intros Hwf Hd. rewrite <- (draw_weights_full st b Hwf Hd).
  unfold probability_sum, draw_weights.
  apply Qsum_ext; [reflexivity|].
  intros c Hc. apply in_range in Hc. symmetry.
  apply draw_weight_eq; [exact Hwf|lia].
Qed.

Lemma banned_value_of_spec fc dt : banned_value_of fc dt = banned_value_spec fc dt.
Proof.
  unfold banned_value_of, banned_value_spec.
  destruct fc; simpl; [|reflexivity].
  destruct (dt =? 10) eqn:E10; destruct (dt =? 11) eqn:E11; try reflexivity; lia.
Qed.

(** C5: [card_probability] with no banned value is the share of the card
    in the shoe; with a banned value it gives nothing to the cards of that
    value and the share among the remaining cards to the others (these
    shares add up to one); and [distr_stand], when it draws on a cache
    miss, bans 11 on the first call behind a dealer 10, 10 on the first
    call behind a dealer 11, and nothing otherwise. *)
Theorem card_probability_contract
    (rules : rule_variation) (st : RewardDistribution) (card banned_value : Z)
    (fuel : nat) (player_total dealer_aces dealer_total : Z) (first_call : bool) :
  1 <= card <= 13 ->
  (card_probability st card 0
   == inject_Z (shoe_get (card_distr st) card)
      / inject_Z (shoe_total (card_distr st)))%Q /\
  (1 <= drawable (card_distr st) banned_value ->
   (get_value card = banned_value ->
    (card_probability st card banned_value == 0)%Q) /\
   (get_value card <> banned_value ->
    (card_probability st card banned_value
     == inject_Z (shoe_get (card_distr st) card)
        / inject_Z (drawable (card_distr st) banned_value))%Q) /\
   (shoe_wf (card_distr st) -> (probability_sum st banned_value == 1)%Q)) /\
  (player_total <= 21 -> dealer_total <= 21 ->
   (dealer_total >? 17)
   || ((dealer_total =? 17)
       && ((dealer_aces =? 0) || negb (HIT_SOFT_17 rules))) = false ->
   let state_hash :=
     get_state_hash st player_total dealer_aces dealer_total
                    (if first_call then 3 else 4) in
   precomputed_distr st state_hash = false ->
   distr_stand rules (S fuel) player_total dealer_aces dealer_total first_call st
   = (distr <-
        for_each (range 1 14)
          (fun card distr =>
             p <- gets (fun self =>
                    card_probability self card
                      (banned_value_spec first_call dealer_total)) ;;
             if Qlt_bool 0 p then
               card_distr_decr card ;;;
               d <- distr_stand rules fuel player_total
                      (int_add dealer_aces (is_ace (get_value card)))
                      (int_add dealer_total (get_value card)) false ;;
               let distr := add distr d p in
               card_distr_incr card ;;;
               ret distr
             else ret distr)
          empty_distr ;;
      precomp_distr_store state_hash distr ;;;
      ret distr) st).
Proof.
  intros Hc. split; [|split].
  - rewrite card_probability_count, drawable_0, valid_count_0 by lia.
    reflexivity.
  - intros Hd. split; [|split].
    + intros Hb. rewrite card_probability_count. unfold valid_count.
      rewrite Hb, Z.eqb_refl. unfold Qdiv. apply Qmult_0_l.
    + intros Hb. rewrite card_probability_count. unfold valid_count.
      destruct (banned_value =? get_value card) eqn:E; [lia|reflexivity].
    + intros Hwf. apply probability_sum_one; assumption.
  - intros Hpt Hdt Hstand state_hash Hmiss.
    rewrite distr_stand_S.
    destruct (player_total >? 21) eqn:E1; [lia|].
    destruct (dealer_total >? 21) eqn:E2; [lia|].
    rewrite Hstand. rewrite banned_value_of_spec.
    unfold bind at 1. unfold gets at 1.
    unfold bind at 1. unfold gets at 1.
    fold state_hash. rewrite Hmiss. reflexivity.
Qed.

Lemma card_probability_contract_witness :
  let st := example_solver single_deck in
  (card_probability st 1 0
   == inject_Z (shoe_get single_deck 1) / inject_Z (shoe_total single_deck))%Q /\
  (1 <= drawable single_deck 11 ->
   (get_value 1 = 11 -> (card_probability st 1 11 == 0)%Q) /\
   (get_value 1 <> 11 ->
    (card_probability st 1 11
     == inject_Z (shoe_get single_deck 1) / inject_Z (drawable single_deck 11))%Q) /\
   (shoe_wf single_deck -> (probability_sum st 11 == 1)%Q)) /\
  (16 <= 21 -> 10 <= 21 ->
   (10 >? 17) || ((10 =? 17) && ((0 =? 0) || negb (HIT_SOFT_17 example_rules)))
   = false ->
   let state_hash := get_state_hash st 16 0 10 3 in
   precomputed_distr st state_hash = false ->
   distr_stand example_rules 1 16 0 10 true st
   = (distr <-
        for_each (range 1 14)
          (fun card distr =>
             p <- gets (fun self =>
                    card_probability self card (banned_value_spec true 10)) ;;
             if Qlt_bool 0 p then
               card_distr_decr card ;;;
               d <- distr_stand example_rules 0 16
                      (int_add 0 (is_ace (get_value card)))
                      (int_add 10 (get_value card)) false ;;
               let distr := add distr d p in
               card_distr_incr card ;;;
               ret distr
             else ret distr)
          empty_distr ;;
      precomp_distr_store state_hash distr ;;;
      ret distr) st).
Proof.
  intros st.
  apply (card_probability_contract example_rules st 1 11 0 16 0 10 true).
  lia.
Defined.

(** * Further properties of the code *)

(** ** The distribution algebra *)

(** X1: [add] is the entrywise [distr1 + scalar * distr2]; it keeps the 17
    entries, and mass and utility value are linear in it. *)
Theorem add_linear (st : RewardDistribution) (distr1 distr2 : list Q) (scalar : Q) :
  length distr1 = 17%nat ->
  length (add distr1 distr2 scalar) = 17%nat /\
  (forall k, (k < 17)%nat ->
     dget (add distr1 distr2 scalar) k
     = (dget distr1 k + scalar * dget distr2 k)%Q) /\
  (dsum (add distr1 distr2 scalar) == dsum distr1 + scalar * dsum distr2)%Q /\
  (distribution_value st (add distr1 distr2 scalar)
   == distribution_value st distr1 + scalar * distribution_value st distr2)%Q.
Proof.
  intros Hlen.
  split; [rewrite add_length; exact Hlen|].
  split; [|split; [apply dsum_add; exact Hlen|]].
  - destruct (list17 distr1 Hlen)
      as (a0&a1&a2&a3&a4&a5&a6&a7&a8&a9&a10&a11&a12&a13&a14&a15&a16&->).
    intros k Hk. unfold add. generalize (dget distr2). intros g.
    cases_below Hk; reflexivity.
  - destruct (list17 distr1 Hlen)
      as (a0&a1&a2&a3&a4&a5&a6&a7&a8&a9&a10&a11&a12&a13&a14&a15&a16&->).
    unfold add, distribution_value.
    generalize (dget distr2) (dget (utility st)). intros g u.
    cbv [fold_left seq dget nth insert list_insert]. ring.
Qed.

Lemma add_linear_witness :
  let st := example_solver single_deck in
  length (add (constant_distr 1) (constant_distr 0) (1 # 2)) = 17%nat /\
  (forall k, (k < 17)%nat ->
     dget (add (constant_distr 1) (constant_distr 0) (1 # 2)) k
     = (dget (constant_distr 1) k + (1 # 2) * dget (constant_distr 0) k)%Q) /\
  (dsum (add (constant_distr 1) (constant_distr 0) (1 # 2))
   == dsum (constant_distr 1) + (1 # 2) * dsum (constant_distr 0))%Q /\
  (distribution_value st (add (constant_distr 1) (constant_distr 0) (1 # 2))
   == distribution_value st (constant_distr 1)
      + (1 # 2) * distribution_value st (constant_distr 0))%Q.
Proof.
  intros st.
  apply (add_linear st (constant_distr 1) (constant_distr 0) (1 # 2)).
  reflexivity.
Defined.

Lemma within_two_list a0 a1 a2 a3 a4 a5 a6 a7 a8 a9 a10 a11 a12 a13 a14 a15 a16 :
  within_two [a0; a1; a2; a3; a4; a5; a6; a7; a8; a9; a10; a11; a12; a13; a14; a15; a16] ->
  (a0 == 0 /\ a1 == 0 /\ a2 == 0 /\ a3 == 0 /\
   a13 == 0 /\ a14 == 0 /\ a15 == 0 /\ a16 == 0)%Q.
Proof.
  intros H.
  pose proof (H 0%nat ltac:(lia)). pose proof (H 1%nat ltac:(lia)).
  pose proof (H 2%nat ltac:(lia)). pose proof (H 3%nat ltac:(lia)).
  pose proof (H 13%nat ltac:(lia)). pose proof (H 14%nat ltac:(lia)).
  pose proof (H 15%nat ltac:(lia)). pose proof (H 16%nat ltac:(lia)).
  unfold dget in *. simpl in *. tauto.
Qed.

(** X2: [double_distr] keeps exactly the mass of the buckets 4..12 (the
    payouts -2 .. +2) and drops the rest; on a distribution with no mass
    elsewhere it keeps the mass and doubles the mean payout. *)
Theorem double_distr_mass_and_mean (distr : list Q) :
  length distr = 17%nat ->
  (dsum (double_distr distr)
   == dsum distr
      - (dget distr 0 + dget distr 1 + dget distr 2 + dget distr 3
         + dget distr 13 + dget distr 14 + dget distr 15 + dget distr 16))%Q /\
  (within_two distr ->
   (dsum (double_distr distr) == dsum distr)%Q /\
   (payout_mean (double_distr distr) == 2 * payout_mean distr)%Q).
Proof.
  intros Hlen.
  destruct (list17 distr Hlen)
    as (a0&a1&a2&a3&a4&a5&a6&a7&a8&a9&a10&a11&a12&a13&a14&a15&a16&->).
  split.
  - cbv [double_distr dsum fold_left seq dget nth insert list_insert repeat
         Nat.mul Nat.add Nat.sub]. ring.
  - intros H. apply within_two_list in H.
    destruct H as (E0 & E1 & E2 & E3 & E13 & E14 & E15 & E16).
    split.
    + cbv [double_distr dsum fold_left seq dget nth insert list_insert repeat
           Nat.mul Nat.add Nat.sub].
      rewrite E0, E1, E2, E3, E13, E14, E15, E16. ring.
    + cbv [double_distr payout_mean fold_left seq dget nth insert list_insert
           repeat Nat.mul Nat.add Nat.sub].
      rewrite E0, E1, E2, E3, E13, E14, E15, E16.
      unfold payout. simpl Z.of_nat. field.
Qed.

Lemma double_distr_mass_and_mean_witness :
  (dsum (double_distr (constant_distr 1))
   == dsum (constant_distr 1)
      - (dget (constant_distr 1) 0 + dget (constant_distr 1) 1
         + dget (constant_distr 1) 2 + dget (constant_distr 1) 3
         + dget (constant_distr 1) 13 + dget (constant_distr 1) 14
         + dget (constant_distr 1) 15 + dget (constant_distr 1) 16))%Q /\
  (within_two (constant_distr 1) ->
   (dsum (double_distr (constant_distr 1)) == dsum (constant_distr 1))%Q /\
   (payout_mean (double_distr (constant_distr 1))
    == 2 * payout_mean (constant_distr 1))%Q).
Proof.
  apply (double_distr_mass_and_mean (constant_distr 1)). reflexivity.
Defined.

Ltac payouts :=
  repeat match goal with
         | |- context [payout ?i] =>
             let v := eval vm_compute in (payout i) in change (payout i) with v
         end.

(** X3: on a distribution with no mass outside the payouts -2 .. +2,
    [double_variable] loses no pair: the mass of the result is the square
    of the mass, and its mean payout is twice mass times mean (the sum of
    two independent copies). *)
Theorem double_variable_mass_and_mean (distr : list Q) :
  length distr = 17%nat ->
  within_two distr ->
  (dsum (double_variable distr) == dsum distr * dsum distr)%Q /\
  (payout_mean (double_variable distr) == 2 * dsum distr * payout_mean distr)%Q.
Proof.
  intros Hlen H.
  destruct (list17 distr Hlen)
    as (a0&a1&a2&a3&a4&a5&a6&a7&a8&a9&a10&a11&a12&a13&a14&a15&a16&->).
  apply within_two_list in H.
  destruct H as (E0 & E1 & E2 & E3 & E13 & E14 & E15 & E16).
  split.
  - cbv [double_variable dsum fold_left seq dget nth insert list_insert repeat
         Nat.add Nat.sub Nat.ltb Nat.leb Nat.eqb andb].
    ring [E0 E1 E2 E3 E13 E14 E15 E16].
  - cbv [double_variable payout_mean dsum fold_left seq dget nth insert
         list_insert repeat Nat.add Nat.sub Nat.ltb Nat.leb Nat.eqb andb].
    payouts.
    ring [E0 E1 E2 E3 E13 E14 E15 E16].
Qed.

Lemma within_two_constant_win : within_two (constant_distr 1).
Proof.
  intros i Hi.
  destruct (Nat.lt_ge_cases i 17) as [Hlt|Hge].
  - cases_below Hlt; try reflexivity; exfalso; lia.
  - unfold dget. rewrite nth_overflow; [reflexivity|exact Hge].
Defined.

Lemma double_variable_mass_and_mean_witness :
  (dsum (double_variable (constant_distr 1))
   == dsum (constant_distr 1) * dsum (constant_distr 1))%Q /\
  (payout_mean (double_variable (constant_distr 1))
   == 2 * dsum (constant_distr 1) * payout_mean (constant_distr 1))%Q.
Proof.
  apply (double_variable_mass_and_mean (constant_distr 1)).
  - reflexivity.
  - exact within_two_constant_win.
Defined.

(** X4: the utility table and the constant distributions agree: in a
    solver built on [utility_function], the value of the constant
    distribution of the payout of bucket [i] is [utility_function] at that
    payout, and a constant distribution has mass one. *)
Theorem constant_distr_value (rules : rule_variation) (utility_function : Q -> Q)
    (i : nat) :
  (i < 17)%nat ->
  forall st, snd (__cinit__ rules utility_function) = Returned st ->
  (distribution_value st (constant_distr (payout i)) == utility_function (payout i))%Q /\
  (dsum (constant_distr (payout i)) == 1)%Q.
Proof.
  intros Hi st Hst. unfold __cinit__ in Hst. cbn [snd] in Hst.
  injection Hst as <-.
  cases_below Hi; (split; [|reflexivity]);
    unfold distribution_value, utility; cbn [map seq fold_left];
    match goal with
    | |- context [constant_distr ?v] =>
        let d := eval vm_compute in (constant_distr v) in
        change (constant_distr v) with d
    end;
    cbv [dget nth]; fold (payout 0); fold (payout 1); fold (payout 2);
    fold (payout 3); fold (payout 4); fold (payout 5); fold (payout 6);
    fold (payout 7); fold (payout 8); fold (payout 9); fold (payout 10);
    fold (payout 11); fold (payout 12); fold (payout 13); fold (payout 14);
    fold (payout 15); fold (payout 16);
    ring.
Qed.

Lemma constant_distr_value_witness :
  (distribution_value (example_solver (repeat 0%Z 14)) (constant_distr (payout 11))
   == payout 11)%Q /\
  (dsum (constant_distr (payout 11)) == 1)%Q.
Proof.
  apply (constant_distr_value example_rules (fun x => x) 11).
  - lia.
  - reflexivity.
Defined.

(** ** Memoization *)

Lemma bind_inv {S A B} (m : M S A) (k : A -> M S B) st b st' :
  bind m k st = Some (b, st') ->
  exists a st1, m st = Some (a, st1) /\ k a st1 = Some (b, st').
Proof.
  unfold bind. destruct (m st) as [[a st1]|]; [|discriminate].
  intros H. exists a, st1. split; [reflexivity|exact H].
Qed.

(** A run that ends in [self.precomp_distr[h] = distr; return distr]
    leaves [distr] under key [h]. *)
Lemma store_ret_inv h x st d st' :
  (precomp_distr_store h x ;;; ret x) st = Some (d, st') ->
  d = x /\ precomp_distr st' !! h = Some d.
Proof.
  unfold precomp_distr_store, modify, bind, ret. intros H.
  injection H as <- <-. split; [reflexivity|].
  destruct st. cbn. apply lookup_insert_eq.
Qed.

Lemma get_state_hash_shoe st st' pt a dt mode :
  card_distr st' = card_distr st ->
  get_state_hash st' pt a dt mode = get_state_hash st pt a dt mode.
Proof. intros H. unfold get_state_hash. rewrite H. reflexivity. Qed.

Lemma frame_shoe st st' : frame st st' -> card_distr st' = card_distr st.
Proof. intros <-. destruct st. reflexivity. Qed.

(** The look-up that opens every cached entry point: when a run from [st]
    ended in [(d, st')] with the shoe as before, and a miss leaves [d]
    under the key, a second run from [st'] is a hit on [d]. *)
Lemma memo_again pt a dt mode (rest : Z -> M RewardDistribution (list Q)) st d st' :
  card_distr st' = card_distr st ->
  (forall h, rest h st = Some (d, st') -> precomp_distr st' !! h = Some d) ->
  (state_hash <- gets (fun self => get_state_hash self pt a dt mode) ;;
   hit <- gets (fun self => precomputed_distr self state_hash) ;;
   if (hit : bool) then gets (fun self => precomp_distr_at self state_hash)
   else rest state_hash) st = Some (d, st') ->
  (state_hash <- gets (fun self => get_state_hash self pt a dt mode) ;;
   hit <- gets (fun self => precomputed_distr self state_hash) ;;
   if (hit : bool) then gets (fun self => precomp_distr_at self state_hash)
   else rest state_hash) st' = Some (d, st').
Proof.
  intros Hshoe Hrest. unfold bind, gets.
  destruct (precomputed_distr st (get_state_hash st pt a dt mode)) eqn:Ehit.
  - intros H. injection H as <- <-. rewrite Ehit. reflexivity.
  - intros H. apply Hrest in H.
    rewrite (get_state_hash_shoe st st') by exact Hshoe.
    unfold precomputed_distr. rewrite H.
    unfold precomp_distr_at. rewrite H. reflexivity.
Qed.

(** The same run leaves its result under the key. *)
Lemma memo_stored pt a dt mode (rest : Z -> M RewardDistribution (list Q)) st d st' :
  card_distr st' = card_distr st ->
  (forall h, rest h st = Some (d, st') -> precomp_distr st' !! h = Some d) ->
  (state_hash <- gets (fun self => get_state_hash self pt a dt mode) ;;
   hit <- gets (fun self => precomputed_distr self state_hash) ;;
   if (hit : bool) then gets (fun self => precomp_distr_at self state_hash)
   else rest state_hash) st = Some (d, st') ->
  precomp_distr st' !! get_state_hash st' pt a dt mode = Some d.
Proof.
  intros Hshoe Hrest. unfold bind, gets.
  rewrite (get_state_hash_shoe st st') by exact Hshoe.
  generalize (get_state_hash st pt a dt mode). intros h.
  unfold precomputed_distr, precomp_distr_at.
  destruct (precomp_distr st !! h) as [x|] eqn:Ehit.
  - intros H. injection H as <- <-. rewrite Ehit. reflexivity.
  - intros H. apply Hrest. exact H.
Qed.

(** A key present in the cache is answered from it. *)
Lemma memo_hit pt a dt mode (rest : Z -> M RewardDistribution (list Q)) st d :
  precomp_distr st !! get_state_hash st pt a dt mode = Some d ->
  (state_hash <- gets (fun self => get_state_hash self pt a dt mode) ;;
   hit <- gets (fun self => precomputed_distr self state_hash) ;;
   if (hit : bool) then gets (fun self => precomp_distr_at self state_hash)
   else rest state_hash) st = Some (d, st).
Proof.
  unfold bind, gets. generalize (get_state_hash st pt a dt mode). intros h E.
  unfold precomputed_distr. rewrite E.
  unfold precomp_distr_at. rewrite E. reflexivity.
Qed.

Ltac run_inv H :=
  repeat
    match type of H with
    | bind _ _ _ = Some _ =>
        let a := fresh "a" in
        let s := fresh "s" in
        let H1 := fresh "R" in
        apply bind_inv in H; cbv beta in H; destruct H as (a & s & H1 & H);
        try (unfold gets in H1; injection H1 as <- <-)
    end.

Section Memo.

Variable rules : rule_variation.

Lemma distr_stand_again fuel :
  forall pt da dt fc st d st',
    card_distr st' = card_distr st ->
    distr_stand rules fuel pt da dt fc st = Some (d, st') ->
    distr_stand rules fuel pt da dt fc st' = Some (d, st').
Proof.
  induction fuel as [|fuel IH]; intros pt da dt fc st d st' Hshoe; [discriminate|].
  rewrite distr_stand_S.
  destruct (pt >? 21); [unfold gets; intros H; injection H as <- <-; reflexivity|].
  destruct (dt >? 21).
  { destruct (da >? 0); [apply IH; exact Hshoe|].
    unfold gets; intros H; injection H as <- <-; reflexivity. }
  destruct ((dt >? 17) || ((dt =? 17) && ((da =? 0) || negb (HIT_SOFT_17 rules)))).
  { destruct (dt =? pt); [|destruct (dt >? pt)];
      unfold gets; intros H; injection H as <- <-; reflexivity. }
  apply memo_again; [exact Hshoe|].
  intros h H. run_inv H. apply store_ret_inv in H. apply H.
Qed.

Lemma distr_hit_again fuel :
  forall pt pa dt st d st',
    card_distr st' = card_distr st ->
    distr_hit rules fuel pt pa dt st = Some (d, st') ->
    distr_hit rules fuel pt pa dt st' = Some (d, st').
Proof.
  induction fuel as [|fuel IH]; intros pt pa dt st d st' Hshoe; [discriminate|].
  rewrite distr_hit_S.
  destruct (pt >? 21).
  { destruct (pa >? 0); [apply IH; exact Hshoe|].
    unfold gets; intros H; injection H as <- <-; reflexivity. }
  apply memo_again; [exact Hshoe|].
  intros h H. run_inv H. apply store_ret_inv in H. apply H.
Qed.

Lemma distr_double_again fuel pt pa dt st d st' :
  card_distr st' = card_distr st ->
  distr_double rules fuel pt pa dt st = Some (d, st') ->
  distr_double rules fuel pt pa dt st' = Some (d, st').
Proof.
  intros Hshoe. unfold distr_double.
  apply memo_again; [exact Hshoe|].
  intros h H. run_inv H. apply store_ret_inv in H. apply H.
Qed.

Lemma distr_split_general_again fuel pc dt st d st' :
  card_distr st' = card_distr st ->
  distr_split_general rules fuel pc dt st = Some (d, st') ->
  distr_split_general rules fuel pc dt st' = Some (d, st').
Proof.
  intros Hshoe. unfold distr_split_general.
  apply memo_again; [exact Hshoe|].
  intros h H. run_inv H. apply store_ret_inv in H. apply H.
Qed.

Lemma distr_split_tens_again fuel dt st d st' :
  card_distr st' = card_distr st ->
  distr_split_tens rules fuel dt st = Some (d, st') ->
  distr_split_tens rules fuel dt st' = Some (d, st').
Proof.
  intros Hshoe. unfold distr_split_tens.
  apply memo_again; [exact Hshoe|].
  intros h H. run_inv H. apply store_ret_inv in H. apply H.
Qed.

Lemma distr_split_aces_again fuel dt st d st' :
  card_distr st' = card_distr st ->
  distr_split_aces rules fuel dt st = Some (d, st') ->
  distr_split_aces rules fuel dt st' = Some (d, st').
Proof.
  intros Hshoe. unfold distr_split_aces.
  apply memo_again; [exact Hshoe|].
  intros h H. run_inv H. apply store_ret_inv in H. apply H.
Qed.

Lemma distr_blackjack_again dt st d st' :
  card_distr st' = card_distr st ->
  distr_blackjack dt st = Some (d, st') ->
  distr_blackjack dt st' = Some (d, st').
Proof.
  intros Hshoe. unfold distr_blackjack.
  destruct (dt <? 10); [unfold gets; intros H; injection H as <- <-; reflexivity|].
  apply memo_again; [exact Hshoe|].
  intros h H. run_inv H. apply store_ret_inv in H. apply H.
Qed.

Lemma call_again fuel e st d st' :
  memoised e = true ->
  card_distr st' = card_distr st ->
  call rules fuel e st = Some (d, st') ->
  call rules fuel e st' = Some (d, st').
Proof.
  intros He Hshoe. destruct e; try discriminate He; cbn [call].
  - apply distr_hit_again; exact Hshoe.
  - apply distr_stand_again; exact Hshoe.
  - apply distr_double_again; exact Hshoe.
  - apply distr_split_general_again; exact Hshoe.
  - apply distr_split_tens_again; exact Hshoe.
  - apply distr_split_aces_again; exact Hshoe.
  - unfold distr_split.
    destruct (player_aces >? 0); [apply distr_split_aces_again; exact Hshoe|].
    destruct (player_total =? 20); [apply distr_split_tens_again; exact Hshoe|].
    apply distr_split_general_again; exact Hshoe.
  - apply distr_blackjack_again; exact Hshoe.
Qed.

(** X5: memoization.  Every entry point that consults the cache answers a
    repeated call from it: the first call returns some [(d, st')], and the
    same call on [st'] returns [d] again and leaves [st'] as it is. *)
Theorem memoised_call_repeats (fuel : nat) (e : entry_point) (st : RewardDistribution) :
  memoised e = true ->
  shoe_wf (card_distr st) -> int_range (entry_aces e) ->
  (fuel_for (card_distr st) (entry_aces e) <= fuel)%nat ->
  exists d st',
    call rules fuel e st = Some (d, st') /\
    call rules fuel e st' = Some (d, st').
Proof.
  intros He Hwf Ha Hfuel.
  destruct (call_frames rules fuel e st Hwf Ha Hfuel) as (d & st' & Hrun & Hfr).
  exists d, st'. split; [exact Hrun|].
  apply (call_again fuel e st); [exact He|apply frame_shoe; exact Hfr|exact Hrun].
Qed.

End Memo.

Lemma int_range_0 : int_range 0.
Proof. unfold int_range. lia. Defined.

Lemma memoised_call_repeats_witness :
  exists d st',
    call example_rules 200 (Distr_double 13 0 9) (example_solver single_deck)
    = Some (d, st') /\
    call example_rules 200 (Distr_double 13 0 9) st' = Some (d, st').
Proof.
  apply (memoised_call_repeats example_rules 200 (Distr_double 13 0 9)
           (example_solver single_deck)).
  - reflexivity.
  - exact shoe_wf_single_deck.
  - exact int_range_0.
  - vm_compute. lia.
Defined.

Section MemoKeys.

Variable rules : rule_variation.

(** What a cached entry point leaves under its key. *)
Lemma distr_split_tens_stored fuel dt st d st' :
  card_distr st' = card_distr st ->
  distr_split_tens rules fuel dt st = Some (d, st') ->
  precomp_distr st' !! get_state_hash st' 10 0 dt 0 = Some d.
Proof.
  intros Hshoe. unfold distr_split_tens.
  apply memo_stored; [exact Hshoe|].
  intros h H. run_inv H. apply store_ret_inv in H. apply H.
Qed.

(** X6: the cache key of [distr_split_tens] is the key of
    [distr_split_general] on card 10: once the split of tens against
    [dealer_total] is computed, [distr_split_general(10, dealer_total)]
    returns that distribution from the cache, whatever its own loop would
    compute. *)
Theorem split_general_ten_reads_tens (fuel fuel' : nat) (dealer_total : Z)
    (st : RewardDistribution) :
  shoe_wf (card_distr st) ->
  (fuel_for (card_distr st) 0 <= fuel)%nat ->
  exists d st',
    distr_split_tens rules fuel dealer_total st = Some (d, st') /\
    distr_split_general rules fuel' 10 dealer_total st' = Some (d, st').
Proof.
  intros Hwf Hfuel. apply fuel_for_le in Hfuel.
  destruct (distr_split_tens_frames rules fuel dealer_total st Hwf ltac:(lia))
    as (d & st' & Hrun & Hfr).
  exists d, st'. split; [exact Hrun|].
  pose proof (distr_split_tens_stored _ _ _ _ _ (frame_shoe _ _ Hfr) Hrun) as E.
  unfold distr_split_general. apply memo_hit. exact E.
Qed.

End MemoKeys.

Lemma split_general_ten_reads_tens_witness :
  exists d st',
    distr_split_tens example_rules 200 9 (example_solver single_deck)
    = Some (d, st') /\
    distr_split_general example_rules 0 10 9 st' = Some (d, st').
Proof.
  apply (split_general_ten_reads_tens example_rules 200 0 9
           (example_solver single_deck)).
  - exact shoe_wf_single_deck.
  - vm_compute. lia.
Defined.


(** ** The bettor's hands *)


(** X7: [get_player] returns the best total of the two cards: for cards
    in 1..13 the total is in 4..21, one soft ace is left exactly when a
    card is an ace, the total is the hard total plus ten for the soft ace,
    and it is 21 exactly on an ace with a ten-valued card.  A pair of aces
    is the soft 12. *)
Theorem get_player_canonical (player_first player_second : Z) :
  1 <= player_first <= 13 -> 1 <= player_second <= 13 ->
  let player_total := fst (kelly_pyx.get_player player_first player_second) in
  let player_aces := snd (kelly_pyx.get_player player_first player_second) in
  4 <= player_total <= 21 /\
  player_aces = (if (player_first =? 1) || (player_second =? 1) then 1 else 0) /\
  player_total = hard_value player_first + hard_value player_second + 10 * player_aces /\
  (player_total = 21 <->
   (player_first = 1 /\ 10 <= player_second) \/
   (10 <= player_first /\ player_second = 1)).
Proof.
  intros H1 H2. cbv zeta.
  each_card H1; each_card H2;
    match goal with
    | |- context [kelly_pyx.get_player ?a ?b] =>
        let v := eval vm_compute in (kelly_pyx.get_player a b) in
        change (kelly_pyx.get_player a b) with v
    end;
    cbn [fst snd];
    repeat match goal with
           | |- context [hard_value ?a] =>
               let v := eval vm_compute in (hard_value a) in
               change (hard_value a) with v
           end;
    repeat match goal with
           | |- context [?a =? ?b] =>
               let v := eval vm_compute in (a =? b) in
               change (a =? b) with v
           end;
    cbn [orb]; lia.
Qed.

Lemma get_player_canonical_witness :
  let player_total := fst (kelly_pyx.get_player 1 12) in
  let player_aces := snd (kelly_pyx.get_player 1 12) in
  4 <= player_total <= 21 /\
  player_aces = (if (1 =? 1) || (12 =? 1) then 1 else 0) /\
  player_total = hard_value 1 + hard_value 12 + 10 * player_aces /\
  (player_total = 21 <-> (1 = 1 /\ 10 <= 12) \/ (10 <= 1 /\ 12 = 1)).
Proof. apply (get_player_canonical 1 12); lia. Defined.

(** X8: on a pair that [matching_cards] accepts, the hand of [get_player]
    sends [distr_split] to the right variant: a pair of aces to
    [distr_split_aces], ten-valued cards to [distr_split_tens], and any
    other pair to [distr_split_general] on the value of the card, the
    total being exactly twice that value. *)
Theorem distr_split_of_pair (rules : rule_variation) (fuel : nat)
    (player_first player_second dealer_total : Z) :
  1 <= player_first <= 13 -> 1 <= player_second <= 13 ->
  kelly_pyx.matching_cards rules player_first player_second = true ->
  let player_total := fst (kelly_pyx.get_player player_first player_second) in
  let player_aces := snd (kelly_pyx.get_player player_first player_second) in
  (player_first <> 1 -> player_total = 2 * kelly_pyx.get_value player_first) /\
  distr_split rules fuel player_total player_aces dealer_total
  = (if player_first =? 1 then distr_split_aces rules fuel dealer_total
     else if 10 <=? player_first then distr_split_tens rules fuel dealer_total
     else distr_split_general rules fuel (kelly_pyx.get_value player_first)
            dealer_total).
Proof.
  intros H1 H2 Hm. cbv zeta. unfold kelly_pyx.matching_cards in Hm.
  assert (Hv : kelly_pyx.get_value player_first = kelly_pyx.get_value player_second).
  { destruct (SPLIT_UNEVEN rules); [|apply Z.eqb_eq in Hm; subst; reflexivity].
    apply Z.eqb_eq in Hm. exact Hm. }
  clear Hm. unfold distr_split.
  each_card H1; each_card H2; try discriminate Hv; clear Hv;
    match goal with
    | |- context [kelly_pyx.get_player ?a ?b] =>
        let v := eval vm_compute in (kelly_pyx.get_player a b) in
        change (kelly_pyx.get_player a b) with v
    end;
    cbn [fst snd];
    repeat match goal with
           | |- context [kelly_pyx.get_value ?a] =>
               let v := eval vm_compute in (kelly_pyx.get_value a) in
               change (kelly_pyx.get_value a) with v
           end;
    repeat match goal with
           | |- context [?a =? ?b] =>
               let v := eval vm_compute in (a =? b) in change (a =? b) with v
           | |- context [?a >? ?b] =>
               let v := eval vm_compute in (a >? b) in change (a >? b) with v
           | |- context [?a <=? ?b] =>
               let v := eval vm_compute in (a <=? b) in change (a <=? b) with v
           | |- context [Z.quot ?a ?b] =>
               let v := eval vm_compute in (Z.quot a b) in
               change (Z.quot a b) with v
           end;
    cbv iota;
    (split; [intros Hne; try reflexivity; exfalso; apply Hne; reflexivity
            |reflexivity]).
Qed.

Lemma distr_split_of_pair_witness :
  let player_total := fst (kelly_pyx.get_player 8 8) in
  let player_aces := snd (kelly_pyx.get_player 8 8) in
  (8 <> 1 -> player_total = 2 * kelly_pyx.get_value 8) /\
  distr_split example_rules 200 player_total player_aces 6
  = (if 8 =? 1 then distr_split_aces example_rules 200 6
     else if 10 <=? 8 then distr_split_tens example_rules 200 6
     else distr_split_general example_rules 200 (kelly_pyx.get_value 8) 6).
Proof.
  apply (distr_split_of_pair example_rules 200 8 8 6); [lia|lia|reflexivity].
Defined.

(** ** The strategist and the test wrapper *)

(** X9: [WrappedRewardDistribution.free_mem] calls itself and nothing
    else: no depth of recursion lets it return, and the solver's cache is
    never freed through it. *)
Theorem wrapped_free_mem_never_returns (fuel : nat)
    (self : strategist_pyx.WrappedRewardDistribution) :
  strategist_pyx.wrapped_free_mem fuel self = None.
Proof.
  induction fuel as [|fuel IH]; [reflexivity|exact IH].
Qed.

Lemma wp_on_reward_distribution {A} (m : M RewardDistribution A) self
    (post : A -> strategist_pyx.OptimalStrategist -> Prop) :
  wp m (strategist_pyx.reward_distribution self)
     (fun a r => post a {| strategist_pyx.reward_distribution := r |}) ->
  wp (strategist_pyx.on_reward_distribution m) self post.
Proof.
  intros (a & r & Hm & Hp). eexists a, _. split; [|exact Hp].
  unfold strategist_pyx.on_reward_distribution. rewrite Hm. reflexivity.
Qed.

Section StrategistProofs.

Variable rules : rule_variation.

(** What [carray_from_py_int] accepts. *)
Lemma carray_from_py_int_fits o n :
  length o = n -> (forall item, In item o -> int_range item) ->
  carray_from_py_int o n = Some o.
Proof.
  intros Hlen Hr. unfold carray_from_py_int.
  rewrite (proj2 (Nat.eqb_eq _ _) Hlen). cbn [andb].
  assert (E : forallb (fun item => (- 2 ^ 31 <=? item) && (item <? 2 ^ 31)) o = true).
  { apply forallb_forall. intros x Hx. specialize (Hr x Hx).
    unfold int_range in Hr. apply andb_true_iff. lia. }
  rewrite E. reflexivity.
Qed.

(** X10: the three queries of the strategist return.  Each hands
    [card_distribution] to [set_card_distribution] first, which installs
    it when it is fourteen C ints and leaves the solver as it was when it
    is not.  From the solver [st0] that this call leaves, on a shoe of
    non-negative counts, the query returns and leaves a solver with the
    shoe, utility table and constants of [st0]: only the cache has
    grown. *)
Theorem strategist_queries_return (fuel : nat)
    (player_total player_aces dealer_total : Z) (card_distribution : list Z)
    (self : strategist_pyx.OptimalStrategist) (st0 : RewardDistribution) :
  set_card_distribution card_distribution
    (strategist_pyx.reward_distribution self) = Some (tt, st0) ->
  shoe_wf (card_distr st0) -> int_range player_aces ->
  (fuel_for (card_distr st0) player_aces <= fuel)%nat ->
  let post := fun (_ : bool) self' =>
                frame st0 (strategist_pyx.reward_distribution self') in
  (length card_distribution = 14%nat ->
   (forall count, In count card_distribution -> int_range count) ->
   st0 = with_card_distr (strategist_pyx.reward_distribution self)
           card_distribution) /\
  (carray_from_py_int card_distribution 14 = None ->
   st0 = strategist_pyx.reward_distribution self) /\
  wp (strategist_pyx.should_split rules fuel player_total player_aces
        dealer_total card_distribution) self post /\
  wp (strategist_pyx.should_double rules fuel player_total player_aces
        dealer_total card_distribution) self post /\
  wp (strategist_pyx.should_hit rules fuel player_total player_aces
        dealer_total card_distribution) self post.
Proof.
  intros Hset Hwf0 Hpa Hfuel post. apply fuel_for_le in Hfuel.
  remember (Z.to_nat (shoe_total (card_distr st0))) as n eqn:En.
  assert (En0 : Z.to_nat (shoe_total (card_distr st0)) = n)
    by (symmetry; exact En).
  clear En.
  destruct (set_card_distribution_run card_distribution
              (strategist_pyx.reward_distribution self))
    as (st' & Hrun & _ & _ & _ & Hsome & Hnone).
  rewrite Hset in Hrun. injection Hrun as <-.
  split; [|split; [exact Hnone|]].
  { intros Hlen Hr. apply Hsome. apply carray_from_py_int_fits; assumption. }
  assert (Hinstall : forall post',
            post' tt st0 ->
            wp (set_card_distribution card_distribution)
               (strategist_pyx.reward_distribution self) post').
  { intros post' H. exists tt, st0. split; [exact Hset|exact H]. }
  split; [|split].
  - unfold strategist_pyx.should_split.
    apply wp_on_reward_distribution, wp_bind, Hinstall.
    apply wp_bind. eapply wp_mono.
    { apply (distr_split_frames rules fuel); [exact Hwf0|rewrite En0; lia]. }
    intros d1 st1 Hfr1. cbv beta.
    pose proof (frame_card_distr _ _ Hfr1) as Hcd1.
    apply wp_bind. eapply wp_mono.
    { apply (distr_hit_stand_double_frames rules fuel);
        [rewrite Hcd1; exact Hwf0|exact Hpa|rewrite Hcd1, En0; lia]. }
    intros d2 st2 Hfr2. cbv beta.
    apply wp_bind, wp_gets, wp_ret. unfold post.
    cbn [strategist_pyx.reward_distribution].
    exact (frame_trans _ _ _ Hfr1 Hfr2).
  - unfold strategist_pyx.should_double.
    apply wp_on_reward_distribution, wp_bind, Hinstall.
    apply wp_bind. eapply wp_mono.
    { apply (distr_double_frames rules fuel); [exact Hwf0|rewrite En0; lia]. }
    intros d1 st1 Hfr1. cbv beta.
    pose proof (frame_card_distr _ _ Hfr1) as Hcd1.
    apply wp_bind. eapply wp_mono.
    { apply (distr_hit_stand_frames rules fuel);
        [rewrite Hcd1; exact Hwf0|exact Hpa|rewrite Hcd1, En0; lia]. }
    intros d2 st2 Hfr2. cbv beta.
    apply wp_bind, wp_gets, wp_ret. unfold post.
    cbn [strategist_pyx.reward_distribution].
    exact (frame_trans _ _ _ Hfr1 Hfr2).
  - unfold strategist_pyx.should_hit.
    apply wp_on_reward_distribution, wp_bind, Hinstall.
    apply wp_bind. eapply wp_mono.
    { apply (distr_hit_frames rules fuel); [exact Hwf0|exact Hpa|rewrite En0; lia]. }
    intros d1 st1 Hfr1. cbv beta.
    pose proof (frame_card_distr _ _ Hfr1) as Hcd1.
    apply wp_bind. eapply wp_mono.
    { apply (distr_stand_first_frames rules fuel);
        [rewrite Hcd1; exact Hwf0|rewrite Hcd1, En0; lia]. }
    intros d2 st2 Hfr2. cbv beta.
    apply wp_bind, wp_gets, wp_ret. unfold post.
    cbn [strategist_pyx.reward_distribution].
    exact (frame_trans _ _ _ Hfr1 Hfr2).
Qed.


End StrategistProofs.

(** A single deck handed to a fresh solver is installed. *)
Lemma strategist_queries_return_witness :
  let self := {| strategist_pyx.reward_distribution := example_solver empty_shoe |} in
  let st0 := example_solver single_deck in
  let post := fun (_ : bool) self' =>
                frame st0 (strategist_pyx.reward_distribution self') in
  wp (strategist_pyx.should_split example_rules 200 16 0 10 single_deck) self post /\
  wp (strategist_pyx.should_double example_rules 200 16 0 10 single_deck) self post /\
  wp (strategist_pyx.should_hit example_rules 200 16 0 10 single_deck) self post.
Proof.
  intros self st0.
  apply (strategist_queries_return example_rules 200 16 0 10 single_deck self st0).
  - reflexivity.
  - exact shoe_wf_single_deck.
  - exact int_range_0.
  - vm_compute. lia.
Defined.


(** X12: [get_distr] ends on [free_mem]: it returns with the solver's
    cache empty and the caller's shoe as it was, whatever the solver held
    before and whatever is read back through the view of
    [remove_cards]. *)
Theorem get_distr_frees_cache (rules : rule_variation)
    (stale : Z -> Z -> Z -> list Z) (fuel : nat) (f : kelly_pyx.run_state) :
  shoe_wf (kelly_pyx.card_distr f) ->
  (hand_fuel <= fuel)%nat ->
  wp (kelly_pyx.get_distr rules stale fuel) f
     (fun _ f' =>
        precomp_distr (kelly_pyx.rd f') = ∅ /\
        kelly_pyx.card_distr f' = kelly_pyx.card_distr f).
Proof.
  intros Hwf Hfuel. unfold kelly_pyx.get_distr.
  set (inv := fun (_ : list Q) (f' : kelly_pyx.run_state) =>
                kelly_pyx.card_distr f' = kelly_pyx.card_distr f).
  apply wp_bind.
  eapply wp_mono.
  - apply (wp_for_each_in inv); [reflexivity|].
    intros c1 acc1 f1 Hc1 Hf1. apply in_range in Hc1.
    apply (wp_for_each_in inv); [exact Hf1|].
    intros c2 acc2 f2 Hc2 Hf2. apply in_range in Hc2.
    apply (wp_for_each_in inv); [exact Hf2|].
    intros c3 acc3 f3 Hc3 Hf3. apply in_range in Hc3.
    unfold inv in *.
    eapply wp_mono.
    + apply deal_spec; rewrite ?Hf3; try assumption; lia.
    + intros acc' f' Hf'. cbv beta in Hf'. rewrite Hf'. exact Hf3.
  - intros acc f' Hf'. cbv beta.
    apply wp_bind, wp_on_rd, wp_modify, wp_ret.
    split; [|exact Hf'].
    cbn [kelly_pyx.rd]. destruct (kelly_pyx.rd f'). reflexivity.
Qed.

Lemma get_distr_frees_cache_witness :
  let f := {| kelly_pyx.card_distr := single_deck;
              kelly_pyx.rd := example_solver empty_shoe |} in
  let stale := fun _ _ _ : Z => repeat (2 ^ 40) 14 in
  wp (kelly_pyx.get_distr example_rules stale 200) f
     (fun _ f' =>
        precomp_distr (kelly_pyx.rd f') = ∅ /\
        kelly_pyx.card_distr f' = kelly_pyx.card_distr f).
Proof.
  intros f stale. apply (get_distr_frees_cache example_rules stale 200 f).
  - exact shoe_wf_single_deck.
  - vm_compute. lia.
Defined.

(** ** The probabilities of the deals *)

Lemma Qsum_shift (f : Z -> Q) l q0 :
  (fold_left (fun q c => q + f c) l q0
   == q0 + fold_left (fun q c => q + f c) l 0)%Q.
Proof.
  revert q0. induction l as [|x l IH]; intros q0; simpl.
  - ring.
  - rewrite IH. rewrite (IH (0 + f x)%Q). ring.
Qed.

Lemma Qsum_scale (a : Q) (f : Z -> Q) l :
  (fold_left (fun q c => q + a * f c) l 0
   == a * fold_left (fun q c => q + f c) l 0)%Q.
Proof.
  induction l as [|x l IH]; simpl; [ring|].
  rewrite Qsum_shift, IH, (Qsum_shift f l (0 + f x)). ring.
Qed.

Lemma Qsum_inject_acc (g : Z -> Z) l n :
  (fold_left (fun q c => q + inject_Z (g c)) l (inject_Z n)
   == inject_Z (fold_left (fun n c => (n + g c)%Z) l n))%Q.
Proof.
  revert n. induction l as [|x l IH]; intros n; simpl; [reflexivity|].
  rewrite <- IH. apply Qsum_ext; [|reflexivity].
  rewrite inject_Z_plus. reflexivity.
Qed.

Lemma Qsum_inject (g : Z -> Z) l :
  (fold_left (fun q c => q + inject_Z (g c)) l 0
   == inject_Z (fold_left (fun n c => (n + g c)%Z) l 0%Z))%Q.
Proof. apply (Qsum_inject_acc g l 0). Qed.

Lemma Qsum_weighted (a D : Q) (g : Z -> Z) l :
  (fold_left (fun q c => q + a * (inject_Z (g c) / D)) l 0
   == a * (inject_Z (fold_left (fun n c => (n + g c)%Z) l 0%Z) / D))%Q.
Proof.
  rewrite (Qsum_ext (fun c => a * (inject_Z (g c) / D))%Q
                    (fun c => (a * / D) * inject_Z (g c))%Q l 0 0);
    [|reflexivity|intros; unfold Qdiv; ring].
  rewrite Qsum_scale, Qsum_inject. unfold Qdiv. ring.
Qed.

Lemma Qsum_counts (a D : Q) (shoe : list Z) :
  (fold_left (fun q c => q + a * (inject_Z (shoe_get shoe c) / D)) (range 1 14) 0
   == a * (inject_Z (shoe_total shoe) / D))%Q.
Proof. exact (Qsum_weighted a D (fun c => shoe_get shoe c) (range 1 14)). Qed.

(** A loop nest that threads its accumulator adds up the sums of its
    inner loops. *)
Lemma Qsum_nested (F : Z -> Q -> Q) (g : Z -> Q) l q0 :
  (forall c q, In c l -> (F c q == q + g c)%Q) ->
  (fold_left (fun q c => F c q) l q0
   == q0 + fold_left (fun q c => q + g c) l 0)%Q.
Proof.
  revert q0. induction l as [|x l IH]; intros q0 HF; simpl.
  - ring.
  - rewrite IH by (intros c q Hc; apply HF; right; exact Hc).
    rewrite (HF x q0) by (left; reflexivity).
    rewrite (Qsum_shift g l (0 + g x)). ring.
Qed.

Lemma kelly_cards_left_total distr :
  (kelly_pyx.cards_left distr == inject_Z (shoe_total distr))%Q.
Proof.
  unfold kelly_pyx.cards_left, shoe_total.
  apply (Qsum_inject (fun c => shoe_get distr c)).
Qed.

Lemma long_decr_total distr card :
  length distr = 14%nat -> 1 <= card <= 13 ->
  - 2 ^ 63 < shoe_get distr card < 2 ^ 63 ->
  shoe_total (long_decr distr card) = shoe_total distr - 1.
Proof.
  intros Hlen Hc Hr.
  destruct (list14 distr Hlen) as (a0&a1&a2&a3&a4&a5&a6&a7&a8&a9&a10&a11&a12&a13&->).
  unfold long_decr.
  each_card Hc; shoe_cbv; rewrite long_wrap_id by lia; lia.
Qed.

Section DealProbability.

Variable distr : list Z.
Hypothesis Hwf : shoe_wf distr.
Hypothesis Htotal : 3 <= shoe_total distr.

Variable T : Q.
Hypothesis HT : T = inject_Z (shoe_total distr).

Lemma deal_probability_eq c1 c2 c3 :
  1 <= c1 <= 13 -> 1 <= c2 <= 13 -> 1 <= c3 <= 13 ->
  (deal_probability distr c1 c2 c3
   == inject_Z (shoe_get distr c1) / T
      * (inject_Z (shoe_get (long_decr distr c1) c2) / (T - 1))
      * (inject_Z (shoe_get (long_decr (long_decr distr c1) c2) c3) / (T - 2)))%Q.
Proof.
  intros H1 H2 H3. unfold deal_probability.
  rewrite get_probability_eq.
  assert (E : Qlt_bool (kelly_pyx.cards_left distr) 3 = false).
  { apply not_true_is_false. intros H. apply Qlt_bool_iff in H.
    rewrite kelly_cards_left_total in H.
    change 3%Q with (inject_Z 3) in H. rewrite <- Zlt_Qlt in H. lia. }
  rewrite E, kelly_cards_left_total, <- HT. reflexivity.
Qed.

Lemma T_nonzero : (~ T == 0 /\ ~ T - 1 == 0 /\ ~ T - 2 == 0)%Q.
Proof.
  rewrite HT.
  change 1%Q with (inject_Z 1). change 2%Q with (inject_Z 2).
  change 0%Q with (inject_Z 0).
  unfold Qminus. rewrite <- !inject_Z_opp, <- !inject_Z_plus.
  rewrite !inject_Z_injective. lia.
Qed.

Lemma third_card_sum c1 c2 :
  1 <= c1 <= 13 -> 1 <= c2 <= 13 ->
  shoe_total (long_decr (long_decr distr c1) c2) = shoe_total distr - 2.
Proof.
  intros H1 H2. destruct Hwf as [Hlen Hc].
  pose proof (Hc c1 H1) as B1. pose proof (Hc c2 H2) as B2.
  rewrite long_decr_total; [|rewrite long_decr_length; exact Hlen|exact H2|].
  - rewrite long_decr_total; [lia|exact Hlen|exact H1|lia].
  - rewrite long_decr_get by (rewrite ?Hlen; lia).
    destruct (c1 =? c2); lia.
Qed.

Lemma inject_Z_minus x y : (inject_Z (x - y) == inject_Z x - inject_Z y)%Q.
Proof.
  unfold Zminus, Qminus. rewrite inject_Z_plus, inject_Z_opp. reflexivity.
Qed.

Lemma deal_probability_sum_one : (deal_probability_sum distr == 1)%Q.
Proof.
  destruct T_nonzero as (N0 & N1 & N2).
  destruct Hwf as [Hlen Hc].
  unfold deal_probability_sum.
  rewrite (Qsum_nested _ (fun c1 => 1 * (inject_Z (shoe_get distr c1) / T))%Q).
  - rewrite (Qsum_counts 1 T distr). rewrite <- HT. field. exact N0.
  - intros c1 q Hc1. apply in_range in Hc1.
    set (A1 := (inject_Z (shoe_get distr c1) / T)%Q).
    rewrite (Qsum_nested _
      (fun c2 => A1 * (inject_Z (shoe_get (long_decr distr c1) c2) / (T - 1)))%Q).
    + rewrite (Qsum_counts A1 (T - 1) (long_decr distr c1)).
      rewrite long_decr_total; [|exact Hlen|lia|pose proof (Hc c1 ltac:(lia)); lia].
      rewrite inject_Z_minus, <- HT. change (inject_Z 1) with 1%Q.
      apply Qplus_inj_l. field. exact N1.
    + intros c2 q2 Hc2. apply in_range in Hc2.
      set (A2 := (A1 * (inject_Z (shoe_get (long_decr distr c1) c2) / (T - 1)))%Q).
      rewrite (Qsum_nested
        (fun c3 q => q + deal_probability distr c1 c2 c3)%Q
        (fun c3 => A2 * (inject_Z (shoe_get (long_decr (long_decr distr c1) c2) c3)
                         / (T - 2)))%Q).
      * rewrite (Qsum_counts A2 (T - 2) (long_decr (long_decr distr c1) c2)).
        rewrite third_card_sum by lia.
        rewrite inject_Z_minus, <- HT. change (inject_Z 2) with 2%Q.
        apply Qplus_inj_l. field. exact N2.
      * intros c3 q3 Hc3. apply in_range in Hc3.
        rewrite deal_probability_eq by lia. reflexivity.
Qed.

End DealProbability.

(** X13: the probabilities that [get_probability] gives to the
    [13 * 13 * 13] ordered deals of [get_distr] sum to one when the shoe
    holds at least three cards; every one of them is zero on a shorter
    shoe. *)
Theorem get_probability_sums_to_one (distr : list Z) :
  shoe_wf distr ->
  (3 <= shoe_total distr -> (deal_probability_sum distr == 1)%Q) /\
  (shoe_total distr < 3 ->
   forall card1 card2 card3,
     kelly_pyx.get_probability card1 card2 card3 distr = Some (0%Q, distr)).
Proof.
  intros Hwf. split.
  - intros Ht. apply (deal_probability_sum_one distr Hwf Ht _ eq_refl).
  - intros Ht c1 c2 c3. rewrite get_probability_eq.
    assert (E : Qlt_bool (kelly_pyx.cards_left distr) 3 = true).
    { apply Qlt_bool_iff. rewrite kelly_cards_left_total.
      change 3%Q with (inject_Z 3). rewrite <- Zlt_Qlt. exact Ht. }
    rewrite E. reflexivity.
Qed.

Lemma get_probability_sums_to_one_witness :
  (3 <= shoe_total single_deck -> (deal_probability_sum single_deck == 1)%Q) /\
  (shoe_total single_deck < 3 ->
   forall card1 card2 card3,
     kelly_pyx.get_probability card1 card2 card3 single_deck
     = Some (0%Q, single_deck)).
Proof.
  apply (get_probability_sums_to_one single_deck). exact shoe_wf_single_deck.
Defined.

(** ** Where the mass of a distribution lies *)

Lemma pc_ret {S A} (a : A) (st : S) (post : A -> S -> Prop) :
  post a st -> pc (ret a) st post.
Proof. intros H a' st' E. injection E as <- <-. exact H. Qed.

Lemma pc_gets {S A} (f : S -> A) (st : S) (post : A -> S -> Prop) :
  post (f st) st -> pc (gets f) st post.
Proof. intros H a' st' E. injection E as <- <-. exact H. Qed.

Lemma pc_modify {S} (f : S -> S) (st : S) (post : unit -> S -> Prop) :
  post tt (f st) -> pc (modify f) st post.
Proof. intros H a' st' E. injection E as <- <-. exact H. Qed.

Lemma pc_bind {S A B} (m : M S A) (k : A -> M S B) (st : S) post :
  pc m st (fun a st' => pc (k a) st' post) -> pc (bind m k) st post.
Proof.
  intros H b st' E. apply bind_inv in E. destruct E as (a & st1 & E1 & E2).
  exact (H a st1 E1 b st' E2).
Qed.

Lemma pc_mono {S A} (m : M S A) (st : S) (post post' : A -> S -> Prop) :
  pc m st post -> (forall a st', post a st' -> post' a st') -> pc m st post'.
Proof. intros H Himp a st' E. apply Himp, (H a st' E). Qed.

Lemma pc_for_each {S A B} (inv : A -> S -> Prop)
    (xs : list B) (body : B -> A -> M S A) (acc : A) (st : S) :
  inv acc st ->
  (forall x acc st, In x xs -> inv acc st -> pc (body x acc) st inv) ->
  pc (for_each xs body acc) st inv.
Proof.
  revert acc st. induction xs as [|x xs IH]; intros acc st Hinv Hbody; simpl.
  - apply pc_ret. exact Hinv.
  - apply pc_bind. eapply pc_mono.
    + apply Hbody; [left; reflexivity|exact Hinv].
    + intros acc' st' Hinv'. apply IH; [exact Hinv'|].
      intros y acc'' st'' Hy. apply Hbody. right. exact Hy.
Qed.

(** A computation that returns and whose results all satisfy [post']. *)
Lemma wp_pc {S A} (m : M S A) (st : S) (post post' : A -> S -> Prop) :
  wp m st post -> pc m st post' -> wp m st (fun a st' => post a st' /\ post' a st').
Proof.
  intros (a & st' & E & H) Hpc. exists a, st'.
  split; [exact E|]. split; [exact H|exact (Hpc a st' E)].
Qed.

Lemma add_get d1 d2 s k :
  length d1 = 17%nat -> (k < 17)%nat ->
  dget (add d1 d2 s) k = (dget d1 k + s * dget d2 k)%Q.
Proof.
  intros Hlen Hk.
  destruct (list17 d1 Hlen)
    as (a0&a1&a2&a3&a4&a5&a6&a7&a8&a9&a10&a11&a12&a13&a14&a15&a16&->).
  unfold add. generalize (dget d2). intros g.
  cases_below Hk; reflexivity.
Qed.

Lemma supported_empty buckets : supported buckets empty_distr.
Proof.
  split; [reflexivity|]. intros i Hi.
  cases_below Hi; (split; [discriminate|intros _; reflexivity]).
Qed.

Lemma supported_add buckets acc d p :
  supported buckets acc -> supported buckets d -> (0 < p)%Q ->
  supported buckets (add acc d p).
Proof.
  intros [La Ha] [Ld Hd] Hp. split; [rewrite add_length; exact La|].
  intros i Hi. rewrite add_get by assumption.
  destruct (Ha i Hi) as [A0 Az]. destruct (Hd i Hi) as [D0 Dz].
  split.
  - apply Qlt_le_weak in Hp.
    pose proof (Qmult_le_0_compat _ _ Hp D0) as M.
    apply (Qplus_le_compat 0 _ 0 _ A0) in M. exact M.
  - intros Hn. rewrite (Az Hn), (Dz Hn). ring.
Qed.

Lemma outcomes_only_shoe st v : outcomes_only st -> outcomes_only (with_card_distr st v).
Proof. intros H. exact H. Qed.

Lemma outcomes_only_store st h d :
  outcomes_only st -> supported outcome_buckets d ->
  outcomes_only (with_precomp_distr st (<[h := d]> (precomp_distr st))).
Proof.
  intros (Hc & Ht & Hl & Hw) Hd.
  split; [|exact (conj Ht (conj Hl Hw))].
  intros k d' Hk. change (<[h := d]> (precomp_distr st) !! k = Some d') in Hk.
  destruct (decide (h = k)) as [->|Hne].
  - rewrite lookup_insert_eq in Hk. injection Hk as <-. exact Hd.
  - rewrite lookup_insert_ne in Hk by exact Hne. exact (Hc k d' Hk).
Qed.

(** The draw loop keeps the accumulator on the buckets of what it adds. *)
Lemma draw_loop_supported buckets b sub cards acc st :
  supported buckets acc -> outcomes_only st ->
  (forall c s, In c cards -> outcomes_only s ->
     pc (sub c) s (fun d s' => supported buckets d /\ outcomes_only s')) ->
  pc (for_each cards (draw_body b sub) acc) st
     (fun acc' s' => supported buckets acc' /\ outcomes_only s').
Proof.
  intros Hacc Hst Hsub.
  apply (pc_for_each (fun acc' s' => supported buckets acc' /\ outcomes_only s'));
    [split; assumption|].
  intros c acc_i st_i Hc [Ha Hs]. unfold draw_body.
  apply pc_bind, pc_gets.
  destruct (Qlt_bool 0 (card_probability st_i c b)) eqn:Ep;
    [|apply pc_ret; split; assumption].
  apply Qlt_bool_iff in Ep.
  apply pc_bind, pc_modify. apply pc_bind.
  eapply pc_mono; [apply (Hsub c); [exact Hc|apply outcomes_only_shoe; exact Hs]|].
  intros d s' [Hd Hs']. cbv zeta.
  apply pc_bind, pc_modify, pc_ret.
  split; [apply supported_add; assumption|apply outcomes_only_shoe; exact Hs'].
Qed.

(** The look-up of a cached entry point, on a cache of outcome
    distributions. *)
Lemma cached_supported (hash : RewardDistribution -> Z)
    (rest : Z -> M RewardDistribution (list Q)) st
    (post : list Q -> RewardDistribution -> Prop) :
  (forall d, precomp_distr st !! hash st = Some d -> post d st) ->
  (forall h, pc (rest h) st post) ->
  pc (state_hash <- gets hash ;;
      hit <- gets (fun self => precomputed_distr self state_hash) ;;
      if (hit : bool) then gets (fun self => precomp_distr_at self state_hash)
      else rest state_hash) st post.
Proof.
  intros Hhit Hrest.
  apply pc_bind, pc_gets. apply pc_bind, pc_gets.
  generalize dependent (hash st). intros h Hhit.
  unfold precomputed_distr, precomp_distr_at.
  destruct (precomp_distr st !! h) as [d|] eqn:E.
  - apply pc_gets. rewrite E. apply Hhit. reflexivity.
  - apply Hrest.
Qed.

Section Support.

Variable rules : rule_variation.

Lemma distr_stand_supported fuel :
  forall pt da dt fc st,
    outcomes_only st ->
    pc (distr_stand rules fuel pt da dt fc) st
       (fun d s' => supported outcome_buckets d /\ outcomes_only s').
Proof.
  induction fuel as [|fuel IH]; intros pt da dt fc st Hst;
    [intros a s E; discriminate E|].
  rewrite distr_stand_S.
  destruct (pt >? 21); [apply pc_gets; split; [apply Hst|exact Hst]|].
  destruct (dt >? 21).
  { destruct (da >? 0); [apply IH; exact Hst|].
    apply pc_gets; split; [apply Hst|exact Hst]. }
  destruct ((dt >? 17) || ((dt =? 17) && ((da =? 0) || negb (HIT_SOFT_17 rules)))).
  { destruct (dt =? pt); [|destruct (dt >? pt)];
      (apply pc_gets; split; [apply Hst|exact Hst]). }
  apply cached_supported.
  - intros d E. split; [|exact Hst]. destruct Hst as [Hc _]. exact (Hc _ _ E).
  - intros h. apply pc_bind. eapply pc_mono.
    + apply draw_loop_supported; [apply supported_empty|exact Hst|].
      intros c s _ Hs. apply IH. exact Hs.
    + intros d s' [Hd Hs']. apply pc_bind, pc_modify, pc_ret.
      split; [exact Hd|apply outcomes_only_store; assumption].
Qed.

Lemma distr_hit_supported fuel :
  (forall pt pa dt st,
      outcomes_only st ->
      pc (distr_hit rules fuel pt pa dt) st
         (fun d s' => supported outcome_buckets d /\ outcomes_only s')) /\
  (forall pt pa dt st,
      outcomes_only st ->
      pc (distr_hit_stand rules fuel pt pa dt) st
         (fun d s' => supported outcome_buckets d /\ outcomes_only s')).
Proof.
  induction fuel as [|fuel [IHhit IHhs]];
    [split; intros pt pa dt st _ a s E; discriminate E|].
  split; intros pt pa dt st Hst.
  - rewrite distr_hit_S.
    destruct (pt >? 21).
    { destruct (pa >? 0); [apply IHhit; exact Hst|].
      apply pc_gets; split; [apply Hst|exact Hst]. }
    apply cached_supported.
    + intros d E. split; [|exact Hst]. destruct Hst as [Hc _]. exact (Hc _ _ E).
    + intros h. apply pc_bind. eapply pc_mono.
      * apply draw_loop_supported; [apply supported_empty|exact Hst|].
        intros c s _ Hs. apply IHhs. exact Hs.
      * intros d s' [Hd Hs']. apply pc_bind, pc_modify, pc_ret.
        split; [exact Hd|apply outcomes_only_store; assumption].
  - rewrite distr_hit_stand_S.
    destruct (if (pt >? 21) && (pa >? 0)
              then (int_sub pt 10, int_sub pa 1) else (pt, pa)) as [pt' pa'].
    apply pc_bind. eapply pc_mono; [apply IHhit; exact Hst|].
    intros dh s1 [Hdh Hs1]. cbv beta.
    apply pc_bind. eapply pc_mono; [apply distr_stand_supported; exact Hs1|].
    intros ds s2 [Hds Hs2]. cbv beta.
    apply pc_bind, pc_gets, pc_ret.
    split; [|exact Hs2].
    destruct (Qlt_bool _ _); assumption.
Qed.

End Support.

Lemma outcomes_only_example shoe : outcomes_only (example_solver shoe).
Proof.
  split; [intros k d Hk; discriminate Hk|].
  split; [|split]; (split; [reflexivity|]); intros i Hi;
    cases_below Hi; (split; [discriminate|]); intros Hn;
    try reflexivity; exfalso; apply Hn; cbn; tauto.
Defined.

Section SupportClaims.

Variable rules : rule_variation.

(** X14: hitting and standing only ever lose, tie or win the stake.  On a
    solver whose cache and constants LOSE, TIE and WIN put non-negative
    mass on the buckets of -1, 0 and +1 alone (a fresh solver for one),
    [distr_hit], [distr_stand] and [distr_hit_stand] return such a
    distribution, entries non-negative and zero on the fourteen other
    buckets, and leave such a cache. *)
Theorem single_hand_three_outcomes (fuel : nat) (e : entry_point)
    (st : RewardDistribution) :
  single_hand e = true ->
  shoe_wf (card_distr st) -> int_range (entry_aces e) ->
  (fuel_for (card_distr st) (entry_aces e) <= fuel)%nat ->
  outcomes_only st ->
  wp (call rules fuel e) st
     (fun d st' => supported outcome_buckets d /\ outcomes_only st').
Proof.
  intros He Hwf Ha Hfuel Hst.
  pose proof (call_frames rules fuel e st Hwf Ha Hfuel) as Hrun.
  eapply wp_mono.
  - apply (wp_pc _ _ _ (fun d st' => supported outcome_buckets d /\ outcomes_only st') Hrun).
    destruct e; try discriminate He; cbn [call].
    + apply (distr_hit_supported rules fuel). exact Hst.
    + apply distr_stand_supported. exact Hst.
    + apply (distr_hit_supported rules fuel). exact Hst.
  - intros d st' [_ H]. exact H.
Qed.

End SupportClaims.

Lemma single_hand_three_outcomes_witness :
  wp (call example_rules 200 (Distr_hit_stand 16 0 10)) (example_solver single_deck)
     (fun d st' => supported outcome_buckets d /\ outcomes_only st').
Proof.
  apply (single_hand_three_outcomes example_rules 200 (Distr_hit_stand 16 0 10)
           (example_solver single_deck)).
  - reflexivity.
  - exact shoe_wf_single_deck.
  - exact int_range_0.
  - vm_compute. lia.
  - apply outcomes_only_example.
Defined.

Lemma double_distr_supported d :
  supported outcome_buckets d ->
  supported doubled_buckets (double_distr d) /\
  (dsum (double_distr d) == dsum d)%Q.
Proof.
  intros [Hlen H].
  destruct (list17 d Hlen)
    as (a0&a1&a2&a3&a4&a5&a6&a7&a8&a9&a10&a11&a12&a13&a14&a15&a16&->).
  assert (Z : forall i, (i < 17)%nat -> i <> 6%nat -> i <> 8%nat -> i <> 10%nat ->
               (dget [a0; a1; a2; a3; a4; a5; a6; a7; a8; a9; a10; a11; a12; a13;
                      a14; a15; a16] i == 0)%Q).
  { intros i Hi H6 H8 H10. apply (H i Hi). cbn. intros [E|[E|[E|[]]]]; congruence. }
  pose proof (Z 0%nat ltac:(lia) ltac:(lia) ltac:(lia) ltac:(lia)) as E0.
  pose proof (Z 1%nat ltac:(lia) ltac:(lia) ltac:(lia) ltac:(lia)) as E1.
  pose proof (Z 2%nat ltac:(lia) ltac:(lia) ltac:(lia) ltac:(lia)) as E2.
  pose proof (Z 3%nat ltac:(lia) ltac:(lia) ltac:(lia) ltac:(lia)) as E3.
  pose proof (Z 4%nat ltac:(lia) ltac:(lia) ltac:(lia) ltac:(lia)) as E4.
  pose proof (Z 5%nat ltac:(lia) ltac:(lia) ltac:(lia) ltac:(lia)) as E5.
  pose proof (Z 7%nat ltac:(lia) ltac:(lia) ltac:(lia) ltac:(lia)) as E7.
  pose proof (Z 9%nat ltac:(lia) ltac:(lia) ltac:(lia) ltac:(lia)) as E9.
  pose proof (Z 11%nat ltac:(lia) ltac:(lia) ltac:(lia) ltac:(lia)) as E11.
  pose proof (Z 12%nat ltac:(lia) ltac:(lia) ltac:(lia) ltac:(lia)) as E12.
  pose proof (Z 13%nat ltac:(lia) ltac:(lia) ltac:(lia) ltac:(lia)) as E13.
  pose proof (Z 14%nat ltac:(lia) ltac:(lia) ltac:(lia) ltac:(lia)) as E14.
  pose proof (Z 15%nat ltac:(lia) ltac:(lia) ltac:(lia) ltac:(lia)) as E15.
  pose proof (Z 16%nat ltac:(lia) ltac:(lia) ltac:(lia) ltac:(lia)) as E16.
  pose proof (proj1 (H 6%nat ltac:(lia))) as P6.
  pose proof (proj1 (H 8%nat ltac:(lia))) as P8.
  pose proof (proj1 (H 10%nat ltac:(lia))) as P10.
  clear Z H. unfold dget in *. cbn [nth] in *.
  split; [split; [reflexivity|]|].
  - intros i Hi.
    cases_below Hi;
      cbv [double_distr dget fold_left seq nth insert list_insert repeat
           Nat.mul Nat.add Nat.sub];
      (split; [first [assumption
                     |match goal with E : (?a == 0)%Q |- (0 <= ?a)%Q =>
                        rewrite E; discriminate end
                     |discriminate]
              |intros Hn; first [assumption|reflexivity
                                |exfalso; apply Hn; cbn; tauto]]).
  - cbv [double_distr dsum dget fold_left seq nth insert list_insert repeat
         Nat.mul Nat.add Nat.sub].
    ring [E0 E1 E2 E3 E4 E5 E7 E9 E11 E12 E13 E14 E15 E16].
Qed.

Lemma double_enough_drawable shoe dt :
  shoe_wf shoe -> double_enough shoe dt -> 1 <= drawable shoe 0.
Proof.
  intros Hwf [Hdt He]. rewrite drawable_0.
  pose proof (drawable_le_total _ (banned_value_of true dt) Hwf).
  pose proof (is_ace_01 dt). lia.
Qed.

Lemma double_enough_stand shoe dt card :
  shoe_wf shoe -> 1 <= card <= 13 -> 1 <= shoe_get shoe card ->
  double_enough shoe dt ->
  stand_enough (shoe_set shoe card (int_sub (shoe_get shoe card) 1))
               (is_ace dt) dt true.
Proof.
  intros Hwf Hc Hg [Hdt He].
  pose proof (drawable_take_ge shoe (banned_value_of true dt) card Hwf Hc Hg).
  split.
  - unfold hand_ok, is_ace. destruct (dt =? 11) eqn:E; lia.
  - lia.
Qed.

Section DoubleProofs.

Variable rules : rule_variation.

Lemma distr_double_spec fuel pt pa dt st :
  shoe_wf (card_distr st) ->
  (2 * Z.to_nat (shoe_total (card_distr st)) + 2 <= fuel)%nat ->
  wp (distr_double rules fuel pt pa dt) st
     (fun d st' =>
        frame st st' /\
        (outcomes_only st ->
         precomp_distr st !! get_state_hash st pt pa dt 1 = None ->
         supported doubled_buckets d /\
         (unit_mass st -> double_enough (card_distr st) dt ->
          unit_mass st' /\ (dsum d == 1)%Q))).
Proof.
  intros Hwf Hfuel. unfold distr_double.
  apply wp_bind, wp_gets. apply wp_bind, wp_gets.
  unfold precomputed_distr, precomp_distr_at.
  set (h := get_state_hash st pt pa dt 1).
  destruct (precomp_distr st !! h) as [d|] eqn:Ecache.
  { apply wp_gets. split; [apply frame_refl|]. intros _ H. discriminate H. }
  apply wp_bind.
  set (E := double_enough (card_distr st) dt).
  set (sub := fun card =>
                distr_stand rules fuel
                  (if (int_add pt (get_value card) >? 21)
                      && (int_add pa (is_ace (get_value card)) >? 0)
                   then int_sub (int_add pt (get_value card)) 10
                   else int_add pt (get_value card))
                  (is_ace dt) dt true).
  eapply wp_mono.
  - apply (wp_pc (for_each (range 1 14) (draw_body 0 sub) empty_distr) st
             (fun acc' st' =>
                frame st st' /\ length acc' = 17%nat /\
                ((unit_mass st /\ E) ->
                 (unit_mass st' /\ E) /\
                 (dsum acc' == dsum empty_distr + draw_weights st 0 (range 1 14))%Q))
             (fun acc' st' =>
                outcomes_only st ->
                supported outcome_buckets acc' /\ outcomes_only st')).
    + apply (draw_loop_spec (fun s => unit_mass s /\ E)).
      * intros s v [Hu He]. split; [exact Hu|exact He].
      * exact Hwf.
      * intros c Hc. apply in_range in Hc. lia.
      * apply empty_distr_length.
      * intros c st_i Hc Hfr Hv. apply in_range in Hc.
        assert (Hg : 1 <= shoe_get (card_distr st) c).
        { pose proof (valid_count_bounds _ 0 c Hwf ltac:(lia)). lia. }
        assert (Hcd : card_distr st_i = card_distr st) by
          (apply frame_card_distr; exact Hfr).
        assert (Htot : shoe_total (card_distr (take c st_i))
                       = shoe_total (card_distr st) - 1).
        { unfold take. simpl. rewrite Hcd.
          apply shoe_take_total; [exact Hwf|lia|exact Hg]. }
        eapply wp_mono.
        -- apply distr_stand_spec.
           ++ unfold take. simpl. rewrite Hcd.
              apply shoe_take_wf; [exact Hwf|lia|exact Hg].
           ++ pose proof (is_ace_01 dt). unfold int_range. lia.
           ++ rewrite Htot.
              pose proof (is_ace_01 dt).
              pose proof (shoe_total_ge_count _ c Hwf ltac:(lia)).
              lia.
        -- intros d st' [Hfr' Hs]. split; [exact Hfr'|].
           intros [Hu He].
           destruct Hs as [Hu' Hd1].
           ++ exact Hu.
           ++ right. unfold take. simpl. rewrite Hcd.
              apply double_enough_stand; [exact Hwf|lia|exact Hg|exact He].
           ++ split; [split; [exact Hu'|exact He]|exact Hd1].
    + intros acc' st' Hrun Hst. revert acc' st' Hrun.
      apply draw_loop_supported; [apply supported_empty|exact Hst|].
      intros c s _ Hs. apply distr_stand_supported. exact Hs.
  - intros distr st' [(Hfr & Hlen & Hsum) Hsup]. cbv zeta.
    apply wp_bind, wp_modify, wp_ret.
    split; [apply frame_store; exact Hfr|].
    intros Hst _. destruct (Hsup Hst) as [Hd _].
    destruct (double_distr_supported distr Hd) as [Hdd Hmass].
    split; [exact Hdd|].
    intros Hu He.
    destruct Hsum as [[Hu' _] Hsumd]; [split; [exact Hu|exact He]|].
    assert (Hd1 : (dsum (double_distr distr) == 1)%Q).
    { rewrite Hmass, Hsumd, dsum_empty_distr, draw_weights_full;
        [reflexivity|exact Hwf|].
      apply (double_enough_drawable _ dt); assumption. }
    split; [|exact Hd1].
    apply unit_mass_store; assumption.
Qed.

(** X15: doubling loses, ties or wins twice the stake.  On a solver whose
    cache and constants hold outcome distributions, and which has not
    cached this double yet, [distr_double] returns a distribution of
    non-negative entries on the buckets of -2, 0 and +2 alone; when the
    stored masses are one and the dealer cannot run out of cards after
    the player's one card, its mass is one. *)
Theorem distr_double_doubled_outcomes (fuel : nat)
    (player_total player_aces dealer_total : Z) (st : RewardDistribution) :
  shoe_wf (card_distr st) ->
  (fuel_for (card_distr st) 0 <= fuel)%nat ->
  outcomes_only st ->
  precomp_distr st !! get_state_hash st player_total player_aces dealer_total 1
  = None ->
  wp (distr_double rules fuel player_total player_aces dealer_total) st
     (fun d st' =>
        supported doubled_buckets d /\
        (unit_mass st -> double_enough (card_distr st) dealer_total ->
         (dsum d == 1)%Q)).
Proof.
  intros Hwf Hfuel Hst Hmiss. apply fuel_for_le in Hfuel.
  eapply wp_mono.
  - apply distr_double_spec; [exact Hwf|lia].
  - intros d st' [_ H]. destruct (H Hst Hmiss) as [Hd Hm].
    split; [exact Hd|]. intros Hu He. apply (Hm Hu He).
Qed.

End DoubleProofs.

Lemma distr_double_doubled_outcomes_witness :
  wp (distr_double example_rules 200 11 0 10) (example_solver single_deck)
     (fun d st' =>
        supported doubled_buckets d /\
        (unit_mass (example_solver single_deck) ->
         double_enough (card_distr (example_solver single_deck)) 10 ->
         (dsum d == 1)%Q)).
Proof.
  apply (distr_double_doubled_outcomes example_rules 200 11 0 10
           (example_solver single_deck)).
  - exact shoe_wf_single_deck.
  - vm_compute. lia.
  - apply outcomes_only_example.
  - reflexivity.
Defined.

(** ** [distr_blackjack] *)

Lemma Qfrac_bounds n t :
  0 <= n <= t -> 1 <= t -> (0 <= inject_Z n / inject_Z t <= 1)%Q.
Proof.
  intros Hn Ht.
  assert (Hpos : (0 < inject_Z t)%Q).
  { change 0%Q with (inject_Z 0). rewrite <- Zlt_Qlt. lia. }
  split.
  - apply Qle_shift_div_l; [exact Hpos|].
    rewrite Qmult_0_l. change 0%Q with (inject_Z 0). rewrite <- Zle_Qle. lia.
  - apply Qle_shift_div_r; [exact Hpos|].
    rewrite Qmult_1_l. rewrite <- Zle_Qle. lia.
Qed.

Lemma tens_le_total shoe :
  shoe_wf shoe ->
  0 <= shoe_get shoe 10 + shoe_get shoe 11 + shoe_get shoe 12 + shoe_get shoe 13
    <= shoe_total shoe.
Proof.
  intros [Hlen Hc].
  destruct (list14 shoe Hlen) as (a0&a1&a2&a3&a4&a5&a6&a7&a8&a9&a10&a11&a12&a13&->).
  pose proof (Hc 1 ltac:(lia)). pose proof (Hc 2 ltac:(lia)).
  pose proof (Hc 3 ltac:(lia)). pose proof (Hc 4 ltac:(lia)).
  pose proof (Hc 5 ltac:(lia)). pose proof (Hc 6 ltac:(lia)).
  pose proof (Hc 7 ltac:(lia)). pose proof (Hc 8 ltac:(lia)).
  pose proof (Hc 9 ltac:(lia)). pose proof (Hc 10 ltac:(lia)).
  pose proof (Hc 11 ltac:(lia)). pose proof (Hc 12 ltac:(lia)).
  pose proof (Hc 13 ltac:(lia)).
  shoe_cbv. lia.
Qed.

Lemma card_probability_share st card :
  1 <= card ->
  (card_probability st card 0
   == inject_Z (shoe_get (card_distr st) card) / inject_Z (shoe_total (card_distr st)))%Q.
Proof.
  intros Hc. rewrite card_probability_count, valid_count_0, drawable_0 by exact Hc.
  reflexivity.
Qed.

(** The share of the shoe that gives the dealer a blackjack behind an
    upcard of total [dealer_total]: aces behind a ten, ten-valued cards
    otherwise. *)
Lemma blackjack_share_eq st dt :
  1 <= shoe_total (card_distr st) ->
  ((if dt =? 10 then card_probability st 1 0
    else card_probability st 10 0 + card_probability st 11 0
         + card_probability st 12 0 + card_probability st 13 0)
   == inject_Z (if dt =? 10 then shoe_get (card_distr st) 1
                else shoe_get (card_distr st) 10 + shoe_get (card_distr st) 11
                     + shoe_get (card_distr st) 12 + shoe_get (card_distr st) 13)
      / inject_Z (shoe_total (card_distr st)))%Q.
Proof.
  intros Ht.
  assert (Hnz : ~ (inject_Z (shoe_total (card_distr st)) == 0)%Q).
  { change 0%Q with (inject_Z 0). rewrite inject_Z_injective. lia. }
  destruct (dt =? 10).
  - apply card_probability_share. lia.
  - rewrite !card_probability_share by lia. rewrite !inject_Z_plus.
    field. exact Hnz.
Qed.

(** X16: [distr_blackjack] splits the mass between a tie and the
    blackjack payout.  Against an upcard below ten it is the constant
    BLACKJACK.  Otherwise, computed afresh on a shoe that is not empty, it
    puts on TIE the share of the cards that complete a dealer blackjack
    (aces behind a ten, ten-valued cards otherwise), the rest on the
    payout 1.5, nothing elsewhere; the share is between 0 and 1. *)
Theorem distr_blackjack_shares (dealer_total : Z) (st : RewardDistribution) :
  shoe_wf (card_distr st) -> 1 <= shoe_total (card_distr st) ->
  CONSTANT_TIE st = constant_distr 0 ->
  CONSTANT_BLACKJACK st = constant_distr 1.5 ->
  (dealer_total < 10 ->
   distr_blackjack dealer_total st = Some (CONSTANT_BLACKJACK st, st)) /\
  (10 <= dealer_total ->
   precomp_distr st !! get_state_hash st 21 1 dealer_total 5 = None ->
   let p := (inject_Z (if dealer_total =? 10 then shoe_get (card_distr st) 1
                       else shoe_get (card_distr st) 10 + shoe_get (card_distr st) 11
                            + shoe_get (card_distr st) 12 + shoe_get (card_distr st) 13)
             / inject_Z (shoe_total (card_distr st)))%Q in
   wp (distr_blackjack dealer_total) st
      (fun d st' =>
         frame st st' /\ (0 <= p <= 1)%Q /\
         (forall i, (i < 17)%nat ->
            (dget d i == if (i =? 8)%nat then p
                         else if (i =? 11)%nat then 1 - p else 0)%Q))).
Proof.
  intros Hwf Ht Htie Hbj. split.
  - intros Hdt. unfold distr_blackjack.
    destruct (dealer_total <? 10) eqn:E; [reflexivity|lia].
  - intros Hdt Hmiss p. unfold distr_blackjack.
    destruct (dealer_total <? 10) eqn:E; [lia|].
    apply wp_bind, wp_gets. apply wp_bind, wp_gets.
    unfold precomputed_distr. rewrite Hmiss.
    apply wp_bind, wp_gets. apply wp_bind, wp_gets. apply wp_bind, wp_gets.
    apply wp_bind, wp_modify, wp_ret.
    split; [apply frame_store, frame_refl|].
    split.
    { unfold p. apply Qfrac_bounds; [|exact Ht].
      destruct (dealer_total =? 10).
      - split; [apply Hwf; lia|apply shoe_total_ge_count; [exact Hwf|lia]].
      - apply tens_le_total. exact Hwf. }
    intros i Hi.
    rewrite add_get; [|rewrite add_length; reflexivity|exact Hi].
    rewrite add_get; [|reflexivity|exact Hi].
    rewrite Htie, Hbj, (blackjack_share_eq st dealer_total Ht). fold p.
    generalize p. intros q.
    cases_below Hi; cbn [Nat.eqb];
      match goal with
      | |- context [dget empty_distr ?k] =>
          let v := eval vm_compute in (dget empty_distr k) in
          change (dget empty_distr k) with v
      end;
      match goal with
      | |- context [dget (constant_distr 0) ?k] =>
          let v := eval vm_compute in (dget (constant_distr 0) k) in
          change (dget (constant_distr 0) k) with v
      end;
      match goal with
      | |- context [dget (constant_distr 1.5) ?k] =>
          let v := eval vm_compute in (dget (constant_distr 1.5) k) in
          change (dget (constant_distr 1.5) k) with v
      end;
      ring.
Qed.

Lemma distr_blackjack_shares_witness :
  let st := example_solver single_deck in
  (10 < 10 -> distr_blackjack 10 st = Some (CONSTANT_BLACKJACK st, st)) /\
  (10 <= 10 ->
   precomp_distr st !! get_state_hash st 21 1 10 5 = None ->
   let p := (inject_Z (if 10 =? 10 then shoe_get (card_distr st) 1
                       else shoe_get (card_distr st) 10 + shoe_get (card_distr st) 11
                            + shoe_get (card_distr st) 12 + shoe_get (card_distr st) 13)
             / inject_Z (shoe_total (card_distr st)))%Q in
   wp (distr_blackjack 10) st
      (fun d st' =>
         frame st st' /\ (0 <= p <= 1)%Q /\
         (forall i, (i < 17)%nat ->
            (dget d i == if (i =? 8)%nat then p
                         else if (i =? 11)%nat then 1 - p else 0)%Q))).
Proof.
  intros st. apply (distr_blackjack_shares 10 st).
  - exact shoe_wf_single_deck.
  - vm_compute. discriminate.
  - reflexivity.
  - reflexivity.
Defined.

(** ** The two conventions of [is_ace] *)

(** X17: the bettor's [is_ace] takes a card and the solver's takes a card
    value; through [get_value] they agree on every card, and the two
    copies of [get_value] and [add] are the same functions. *)
Theorem is_ace_conventions_agree (card : Z) :
  kelly_pyx.is_ace card = is_ace (get_value card) /\
  kelly_pyx.get_value card = get_value card /\
  (forall d1 d2 s, kelly_pyx.add d1 d2 s = add d1 d2 s).
Proof.
  split; [|split; [reflexivity|intros; reflexivity]].
  unfold kelly_pyx.is_ace, is_ace, get_value.
  destruct (card =? 1) eqn:E1; [reflexivity|].
  destruct (card <? 10) eqn:E2.
  - destruct (card =? 11) eqn:E3; [lia|reflexivity].
  - reflexivity.
Qed.



(** ** Modes of the cache keys *)

(** No wrap-around on the keys the solver computes: the last digit of the
    key is the mode. *)
Lemma get_state_hash_mode st pt a dt m :
  shoe_wf (card_distr st) -> int_range pt ->
  - 1000 <= a <= 1000 -> - 1000 <= dt <= 1000 -> 0 <= m < 10 ->
  get_state_hash st pt a dt m mod 10 = m.
Proof.
  intros [_ Hc] Hpt Ha Hdt Hm. unfold int_range in Hpt.
  pose proof (Hc 1 ltac:(lia)). pose proof (Hc 2 ltac:(lia)).
  pose proof (Hc 3 ltac:(lia)). pose proof (Hc 4 ltac:(lia)).
  pose proof (Hc 5 ltac:(lia)). pose proof (Hc 6 ltac:(lia)).
  pose proof (Hc 7 ltac:(lia)). pose proof (Hc 8 ltac:(lia)).
  pose proof (Hc 9 ltac:(lia)). pose proof (Hc 10 ltac:(lia)).
  pose proof (Hc 11 ltac:(lia)). pose proof (Hc 12 ltac:(lia)).
  pose proof (Hc 13 ltac:(lia)).
  clear Hc.
  unfold get_state_hash. rewrite range_1_14.
  cbv beta iota zeta delta [fold_left].
  generalize dependent (shoe_get (card_distr st)). intros c **.
  nowrap. Z.to_euclidean_division_equations. lia.
Qed.

Lemma wp_conj {S A} (m : M S A) (st : S) (post post' : A -> S -> Prop) :
  wp m st post -> wp m st post' -> wp m st (fun a st' => post a st' /\ post' a st').
Proof.
  intros (a & st' & E & H) (a' & st'' & E' & H'). exists a, st'.
  rewrite E in E'. injection E' as <- <-. auto.
Qed.

(** ** Distributions within one or two stakes *)

Lemma dget_overflow d i : (length d <= i)%nat -> dget d i = 0%Q.
Proof. intros H. unfold dget. apply nth_overflow. exact H. Qed.

Lemma within_one_two d : within_one d -> within_two d.
Proof. intros H i Hi. apply H. lia. Qed.

Lemma within_one_empty : within_one empty_distr.
Proof.
  intros i _. destruct (Nat.lt_ge_cases i 17) as [Hlt|Hge].
  - cases_below Hlt; reflexivity.
  - rewrite dget_overflow by exact Hge. reflexivity.
Qed.

Lemma within_one_add acc d p :
  length acc = 17%nat -> within_one acc -> within_one d -> within_one (add acc d p).
Proof.
  intros Hlen Ha Hd i Hi. destruct (Nat.lt_ge_cases i 17) as [Hlt|Hge].
  - rewrite add_get by assumption. rewrite (Ha i Hi), (Hd i Hi). ring.
  - rewrite dget_overflow by (rewrite add_length, Hlen; exact Hge). reflexivity.
Qed.

Lemma within_two_add acc d p :
  length acc = 17%nat -> within_two acc -> within_two d -> within_two (add acc d p).
Proof.
  intros Hlen Ha Hd i Hi. destruct (Nat.lt_ge_cases i 17) as [Hlt|Hge].
  - rewrite add_get by assumption. rewrite (Ha i Hi), (Hd i Hi). ring.
  - rewrite dget_overflow by (rewrite add_length, Hlen; exact Hge). reflexivity.
Qed.

Lemma within_two_empty : within_two empty_distr.
Proof. apply within_one_two, within_one_empty. Qed.

Lemma within_one_list a0 a1 a2 a3 a4 a5 a6 a7 a8 a9 a10 a11 a12 a13 a14 a15 a16 :
  within_one [a0; a1; a2; a3; a4; a5; a6; a7; a8; a9; a10; a11; a12; a13; a14; a15; a16] ->
  (a0 == 0 /\ a1 == 0 /\ a2 == 0 /\ a3 == 0 /\ a4 == 0 /\ a5 == 0 /\
   a11 == 0 /\ a12 == 0 /\ a13 == 0 /\ a14 == 0 /\ a15 == 0 /\ a16 == 0)%Q.
Proof.
  intros H.
  pose proof (H 0%nat ltac:(lia)). pose proof (H 1%nat ltac:(lia)).
  pose proof (H 2%nat ltac:(lia)). pose proof (H 3%nat ltac:(lia)).
  pose proof (H 4%nat ltac:(lia)). pose proof (H 5%nat ltac:(lia)).
  pose proof (H 11%nat ltac:(lia)). pose proof (H 12%nat ltac:(lia)).
  pose proof (H 13%nat ltac:(lia)). pose proof (H 14%nat ltac:(lia)).
  pose proof (H 15%nat ltac:(lia)). pose proof (H 16%nat ltac:(lia)).
  unfold dget in *. simpl in *. tauto.
Qed.

(** Doubling a distribution within one stake loses no mass and stays
    within two stakes. *)
Lemma double_distr_within d :
  length d = 17%nat -> within_one d ->
  within_two (double_distr d) /\ (dsum (double_distr d) == dsum d)%Q.
Proof.
  intros Hlen H.
  destruct (list17 d Hlen)
    as (a0&a1&a2&a3&a4&a5&a6&a7&a8&a9&a10&a11&a12&a13&a14&a15&a16&->).
  apply within_one_list in H.
  destruct H as (E0&E1&E2&E3&E4&E5&E11&E12&E13&E14&E15&E16).
  split.
  - intros i Hi. destruct (Nat.lt_ge_cases i 17) as [Hlt|Hge].
    + cases_below Hlt; try (exfalso; lia);
        cbv [double_distr dget fold_left seq nth insert list_insert repeat
             Nat.mul Nat.add Nat.sub];
        first [assumption|reflexivity].
    + rewrite dget_overflow; [reflexivity|exact Hge].
  - cbv [double_distr dsum dget fold_left seq nth insert list_insert repeat
         Nat.mul Nat.add Nat.sub].
    ring [E0 E1 E2 E3 E4 E5 E11 E12 E13 E14 E15 E16].
Qed.

(** The self-convolution of a distribution within two stakes loses no
    pair. *)
Lemma double_variable_dsum d :
  length d = 17%nat -> within_two d ->
  (dsum (double_variable d) == dsum d * dsum d)%Q.
Proof.
  intros Hlen H.
  destruct (list17 d Hlen)
    as (a0&a1&a2&a3&a4&a5&a6&a7&a8&a9&a10&a11&a12&a13&a14&a15&a16&->).
  apply within_two_list in H.
  destruct H as (E0 & E1 & E2 & E3 & E13 & E14 & E15 & E16).
  cbv [double_variable dsum fold_left seq dget nth insert list_insert repeat
       Nat.add Nat.sub Nat.ltb Nat.leb Nat.eqb andb].
  ring [E0 E1 E2 E3 E13 E14 E15 E16].
Qed.

Lemma Qadd_nonneg a b : (0 <= a -> 0 <= b -> 0 <= a + b)%Q.
Proof. intros Ha Hb. apply (Qplus_le_compat 0 a 0 b Ha Hb). Qed.

Lemma nonneg_empty : nonneg empty_distr.
Proof.
  intros i. destruct (Nat.lt_ge_cases i 17) as [Hlt|Hge].
  - cases_below Hlt; discriminate.
  - rewrite dget_overflow by exact Hge. discriminate.
Qed.

Lemma nonneg_add acc d p :
  length acc = 17%nat -> nonneg acc -> nonneg d -> (0 <= p)%Q ->
  nonneg (add acc d p).
Proof.
  intros Hlen Ha Hd Hp i. destruct (Nat.lt_ge_cases i 17) as [Hlt|Hge].
  - rewrite add_get by assumption.
    apply Qadd_nonneg; [apply Ha|apply Qmult_le_0_compat; [exact Hp|apply Hd]].
  - rewrite dget_overflow by (rewrite add_length, Hlen; exact Hge). discriminate.
Qed.

Lemma sub_one_two d : sub_one d -> sub_two d.
Proof. intros [Hn Hw]. split; [exact Hn|apply within_one_two; exact Hw]. Qed.

Lemma sub_one_empty : sub_one empty_distr.
Proof. split; [apply nonneg_empty|apply within_one_empty]. Qed.

Lemma sub_two_empty : sub_two empty_distr.
Proof. apply sub_one_two, sub_one_empty. Qed.

Lemma sub_one_add acc d p :
  length acc = 17%nat -> sub_one acc -> sub_one d -> (0 < p)%Q ->
  sub_one (add acc d p).
Proof.
  intros Hlen [Na Wa] [Nd Wd] Hp. split.
  - apply nonneg_add; [exact Hlen|exact Na|exact Nd|apply Qlt_le_weak; exact Hp].
  - apply within_one_add; assumption.
Qed.

Lemma sub_two_add acc d p :
  length acc = 17%nat -> sub_two acc -> sub_two d -> (0 <= p)%Q ->
  sub_two (add acc d p).
Proof.
  intros Hlen [Na Wa] [Nd Wd] Hp. split.
  - apply nonneg_add; assumption.
  - apply within_two_add; assumption.
Qed.

Lemma sub_two_add_pos acc d p :
  length acc = 17%nat -> sub_two acc -> sub_two d -> (0 < p)%Q ->
  sub_two (add acc d p).
Proof.
  intros Hlen Ha Hd Hp. apply sub_two_add; [exact Hlen|exact Ha|exact Hd|].
  apply Qlt_le_weak. exact Hp.
Qed.

Lemma nonneg_add_pos acc d p :
  length acc = 17%nat -> nonneg acc -> nonneg d -> (0 < p)%Q ->
  nonneg (add acc d p).
Proof.
  intros Hlen Ha Hd Hp. apply nonneg_add; [exact Hlen|exact Ha|exact Hd|].
  apply Qlt_le_weak. exact Hp.
Qed.

Lemma nonneg_list17 a0 a1 a2 a3 a4 a5 a6 a7 a8 a9 a10 a11 a12 a13 a14 a15 a16 :
  nonneg [a0; a1; a2; a3; a4; a5; a6; a7; a8; a9; a10; a11; a12; a13; a14; a15; a16] ->
  (0 <= a0 /\ 0 <= a1 /\ 0 <= a2 /\ 0 <= a3 /\ 0 <= a4 /\ 0 <= a5 /\ 0 <= a6 /\
   0 <= a7 /\ 0 <= a8 /\ 0 <= a9 /\ 0 <= a10 /\ 0 <= a11 /\ 0 <= a12 /\
   0 <= a13 /\ 0 <= a14 /\ 0 <= a15 /\ 0 <= a16)%Q.
Proof.
  intros H.
  pose proof (H 0%nat). pose proof (H 1%nat). pose proof (H 2%nat).
  pose proof (H 3%nat). pose proof (H 4%nat). pose proof (H 5%nat).
  pose proof (H 6%nat). pose proof (H 7%nat). pose proof (H 8%nat).
  pose proof (H 9%nat). pose proof (H 10%nat). pose proof (H 11%nat).
  pose proof (H 12%nat). pose proof (H 13%nat). pose proof (H 14%nat).
  pose proof (H 15%nat). pose proof (H 16%nat).
  unfold dget in *. simpl in *. tauto.
Qed.

Ltac nonneg_sum :=
  repeat first [ assumption
               | discriminate
               | apply Qadd_nonneg
               | apply Qmult_le_0_compat ].

Lemma double_distr_nonneg d :
  length d = 17%nat -> nonneg d -> nonneg (double_distr d).
Proof.
  intros Hlen H.
  destruct (list17 d Hlen)
    as (a0&a1&a2&a3&a4&a5&a6&a7&a8&a9&a10&a11&a12&a13&a14&a15&a16&->).
  apply nonneg_list17 in H.
  destruct H as (P0&P1&P2&P3&P4&P5&P6&P7&P8&P9&P10&P11&P12&P13&P14&P15&P16).
  intros i. destruct (Nat.lt_ge_cases i 17) as [Hlt|Hge].
  - cases_below Hlt;
      cbv [double_distr dget fold_left seq nth insert list_insert repeat
           Nat.mul Nat.add Nat.sub];
      first [assumption|discriminate].
  - rewrite dget_overflow; [discriminate|exact Hge].
Qed.

Lemma double_variable_nonneg d :
  length d = 17%nat -> nonneg d -> nonneg (double_variable d).
Proof.
  intros Hlen H.
  destruct (list17 d Hlen)
    as (a0&a1&a2&a3&a4&a5&a6&a7&a8&a9&a10&a11&a12&a13&a14&a15&a16&->).
  apply nonneg_list17 in H.
  destruct H as (P0&P1&P2&P3&P4&P5&P6&P7&P8&P9&P10&P11&P12&P13&P14&P15&P16).
  intros i. destruct (Nat.lt_ge_cases i 17) as [Hlt|Hge].
  - cases_below Hlt;
      cbv [double_variable dget fold_left seq nth insert list_insert repeat
           Nat.add Nat.sub Nat.ltb Nat.leb Nat.eqb andb];
      nonneg_sum.
  - rewrite dget_overflow; [discriminate|exact Hge].
Qed.

Lemma cache_nonneg_shoe st v : cache_nonneg st -> cache_nonneg (with_card_distr st v).
Proof. intros H. exact H. Qed.

Lemma cache_nonneg_store st h d :
  cache_nonneg st -> nonneg d ->
  cache_nonneg (with_precomp_distr st (<[h := d]> (precomp_distr st))).
Proof.
  intros (Hc & Hrest) Hd.
  split; [|exact Hrest].
  intros k d' Hk. change (<[h := d]> (precomp_distr st) !! k = Some d') in Hk.
  destruct (decide (h = k)) as [->|Hne].
  - rewrite lookup_insert_eq in Hk. injection Hk as <-. exact Hd.
  - rewrite lookup_insert_ne in Hk by exact Hne. exact (Hc k d' Hk).
Qed.

Lemma cache_modes_shoe st v : cache_modes st -> cache_modes (with_card_distr st v).
Proof. intros H. exact H. Qed.

Lemma good_shoe st v : good st -> good (with_card_distr st v).
Proof. intros H. exact H. Qed.

Lemma cache_modes_store st h d :
  cache_modes st ->
  (h mod 10 <> 0 -> within_two d) -> (2 <= h mod 10 <= 4 -> within_one d) ->
  cache_modes (with_precomp_distr st (<[h := d]> (precomp_distr st))).
Proof.
  intros (Hc & Hrest) H2 H1.
  split; [|exact Hrest].
  intros k d' Hk. change (<[h := d]> (precomp_distr st) !! k = Some d') in Hk.
  destruct (decide (h = k)) as [->|Hne].
  - rewrite lookup_insert_eq in Hk. injection Hk as <-. split; assumption.
  - rewrite lookup_insert_ne in Hk by exact Hne. exact (Hc k d' Hk).
Qed.

(** ** The draw loop, for a property of the distributions it adds up *)

Section DrawLoopInv.

Variable J : RewardDistribution -> Prop.
Hypothesis J_shoe : forall st v, J st -> J (with_card_distr st v).

Variable P : list Q -> Prop.
Hypothesis P_add :
  forall acc d p,
    length acc = 17%nat -> P acc -> P d -> (0 < p)%Q -> P (add acc d p).

Variable b : Z.
Variable sub : Z -> M RewardDistribution (list Q).

Lemma draw_loop_inv cards acc st :
  shoe_wf (card_distr st) ->
  (forall c, In c cards -> 1 <= c <= 13) ->
  length acc = 17%nat ->
  (forall c st_i,
      In c cards -> frame st st_i ->
      1 <= valid_count (card_distr st) b c ->
      wp (sub c) (take c st_i)
         (fun d st' => frame (take c st_i) st' /\ (J st_i -> J st' /\ P d))) ->
  wp (for_each cards (draw_body b sub) acc) st
     (fun acc' st' =>
        frame st st' /\ length acc' = 17%nat /\
        (J st -> P acc -> J st' /\ P acc')).
Proof.
  intros Hwf Hcards Hlen Hsub.
  apply (wp_for_each
    (fun (rest : list Z) acc_i st_i =>
       (forall c, In c rest -> In c cards) /\ frame st st_i /\
       length acc_i = 17%nat /\
       (J st -> P acc -> J st_i /\ P acc_i))).
  - split; [auto|]. split; [apply frame_refl|]. split; [exact Hlen|]. auto.
  - intros x rest acc_i st_i (Hin & Hfr & Hlen_i & HJ).
    assert (Hx : In x cards) by (apply Hin; left; reflexivity).
    pose proof (Hcards x Hx) as Hxr.
    unfold draw_body. apply wp_bind, wp_gets.
    rewrite (card_probability_frame _ _ _ _ Hfr).
    destruct (Qlt_bool 0 (card_probability st x b)) eqn:Ep.
    + assert (Hv : 1 <= valid_count (card_distr st) b x).
      { apply card_probability_pos; [exact Hwf|exact Hxr|].
        apply Qlt_bool_iff. exact Ep. }
      assert (Hg : 1 <= shoe_get (card_distr st_i) x).
      { rewrite (frame_card_distr _ _ Hfr).
        pose proof (valid_count_bounds _ b x Hwf Hxr). lia. }
      apply wp_bind, wp_modify. fold (take x st_i).
      apply wp_bind. eapply wp_mono; [apply (Hsub x st_i Hx Hfr Hv)|].
      intros d st' [Hfr' Hd]. cbv zeta.
      apply wp_bind, wp_modify, wp_ret.
      split; [intros c Hc; apply Hin; right; exact Hc|].
      split.
      { eapply frame_trans; [exact Hfr|].
        apply frame_take_back; [|exact Hxr|exact Hg|exact Hfr'].
        rewrite (frame_card_distr _ _ Hfr). exact Hwf. }
      split; [rewrite add_length; exact Hlen_i|].
      intros HJ0 HP0. destruct (HJ HJ0 HP0) as [HJi HPi].
      destruct (Hd HJi) as [HJ' HPd].
      split; [apply J_shoe; exact HJ'|].
      apply P_add; [exact Hlen_i|exact HPi|exact HPd|].
      apply Qlt_bool_iff. exact Ep.
    + apply wp_ret.
      split; [intros c Hc; apply Hin; right; exact Hc|].
      split; [exact Hfr|]. split; [exact Hlen_i|exact HJ].
  - intros acc' st' (_ & Hfr & Hlen' & HJ). auto.
Qed.

End DrawLoopInv.

Lemma hand_ok_draw t a card :
  hand_ok t a -> t <= 21 -> 1 <= card <= 13 ->
  hand_ok (int_add t (get_value card)) (int_add a (is_ace (get_value card))).
Proof.
  intros (Ha & Ht & Hr) H21 Hc.
  unfold int_add.
  destruct (is_ace_get_value card Hc) as [(_ & Ev & Ea)|(_ & Ev & Ea)];
    rewrite Ea; rewrite !int_wrap_id by (unfold int_range; lia);
    unfold hand_ok; lia.
Qed.

Lemma hand_ok_soft t a :
  hand_ok t a -> 0 < a -> hand_ok (int_sub t 10) (int_sub a 1).
Proof.
  intros (Ha & Ht & Hr) Hpos. unfold int_sub.
  rewrite !int_wrap_id by (unfold int_range; lia).
  unfold hand_ok; lia.
Qed.

Lemma hand_ok_int_range t a : hand_ok t a -> int_range t.
Proof. intros (Ha & Ht & Hr). unfold int_range. lia. Qed.

Lemma hand_ok_dealer dt : 2 <= dt <= 11 -> hand_ok dt (is_ace dt).
Proof.
  intros H. unfold hand_ok, is_ace. destruct (dt =? 11) eqn:E; lia.
Qed.

Section ModesProofs.

Variable rules : rule_variation.

Lemma distr_stand_modes fuel :
  forall player_total dealer_aces dealer_total first_call st,
    shoe_wf (card_distr st) -> int_range dealer_aces ->
    (2 * Z.to_nat (shoe_total (card_distr st)) + Z.to_nat dealer_aces + 1
     <= fuel)%nat ->
    wp (distr_stand rules fuel player_total dealer_aces dealer_total first_call)
       st
       (fun d st' =>
          frame st st' /\
          (cache_modes st ->
           21 < player_total
           \/ (hand_ok dealer_total dealer_aces /\ int_range player_total) ->
           cache_modes st' /\ within_one d)).
Proof.
  induction fuel as [|fuel IH]; intros pt da dt fc st Hwf Hda Hfuel; [lia|].
  rewrite distr_stand_S.
  destruct (pt >? 21) eqn:Ept.
  { apply wp_gets. split; [apply frame_refl|].
    intros Hm _. split; [exact Hm|apply Hm]. }
  destruct (dt >? 21) eqn:Edt.
  { destruct (da >? 0) eqn:Eda.
    - assert (Hda' : int_sub da 1 = da - 1).
      { apply int_wrap_id. unfold int_range in *. lia. }
      eapply wp_mono.
      + apply IH; [exact Hwf|apply int_wrap_range|rewrite Hda'; lia].
      + intros d st' [Hfr Hs]. split; [exact Hfr|].
        intros Hm [Hp|[Hh Hpt]]; [lia|].
        apply Hs; [exact Hm|]. right.
        split; [apply hand_ok_soft; [exact Hh|lia]|exact Hpt].
    - apply wp_gets. split; [apply frame_refl|].
      intros Hm _. split; [exact Hm|apply Hm]. }
  destruct ((dt >? 17) || ((dt =? 17) && ((da =? 0) || negb (HIT_SOFT_17 rules))))
    eqn:Estand.
  { destruct (dt =? pt); [|destruct (dt >? pt)];
      (apply wp_gets; split; [apply frame_refl|];
       intros Hm _; split; [exact Hm|apply Hm]). }
  assert (Hdt17 : dt <= 17).
  { apply orb_false_iff in Estand. lia. }
  assert (Hkey : hand_ok dt da /\ int_range pt ->
                 2 <= get_state_hash st pt da dt (if fc then 3 else 4) mod 10 <= 4).
  { intros [(Ha & Ht & _) Hpt].
    rewrite get_state_hash_mode; [destruct fc; lia|exact Hwf|exact Hpt|lia|lia|].
    destruct fc; lia. }
  apply wp_bind, wp_gets. apply wp_bind, wp_gets.
  unfold precomputed_distr, precomp_distr_at.
  generalize dependent (get_state_hash st pt da dt (if fc then 3 else 4)).
  intros h Hkey.
  destruct (precomp_distr st !! h) as [d|] eqn:Ecache.
  { apply wp_gets. cbv beta. rewrite Ecache. split; [apply frame_refl|].
    intros Hm [Hp|Hok]; [lia|]. split; [exact Hm|].
    destruct Hm as [Hc _]. apply (Hc h d Ecache). apply Hkey. exact Hok. }
  apply wp_bind.
  set (A := hand_ok dt da /\ int_range pt).
  eapply wp_mono.
  - apply (draw_loop_inv (fun s => cache_modes s /\ A) ltac:(auto)
             within_one
             (fun acc d p Hl Ha Hd _ => within_one_add acc d p Hl Ha Hd)).
    + exact Hwf.
    + intros c Hc. apply in_range in Hc. lia.
    + apply empty_distr_length.
    + intros c st_i Hc Hfr Hv. apply in_range in Hc.
      assert (Hg : 1 <= shoe_get (card_distr st) c).
      { pose proof (valid_count_bounds _ (banned_value_of fc dt) c Hwf
                      ltac:(lia)). lia. }
      assert (Hcd : card_distr st_i = card_distr st) by
        (apply frame_card_distr; exact Hfr).
      assert (Htot : shoe_total (card_distr (take c st_i))
                     = shoe_total (card_distr st) - 1).
      { unfold take. simpl. rewrite Hcd. apply shoe_take_total; [exact Hwf|lia|exact Hg]. }
      eapply wp_mono.
      * apply IH.
        -- unfold take. simpl. rewrite Hcd. apply shoe_take_wf; [exact Hwf|lia|exact Hg].
        -- apply int_wrap_range.
        -- rewrite Htot.
           pose proof (to_nat_int_add da (is_ace (get_value c)) Hda (is_ace_01 _)).
           pose proof (shoe_total_ge_count _ c Hwf ltac:(lia)).
           lia.
      * intros d st' [Hfr' Hs]. split; [exact Hfr'|].
        intros [Hm [Hh Hpt]].
        destruct Hs as [Hm' Hd].
        -- exact Hm.
        -- right. split; [apply hand_ok_draw; [exact Hh|lia|lia]|exact Hpt].
        -- split; [split; [exact Hm'|split; assumption]|exact Hd].
  - intros distr st' (Hfr & Hlen & Hinv).
    apply wp_bind, wp_modify, wp_ret.
    split; [apply frame_store; exact Hfr|].
    intros Hm [Hp|Hok]; [lia|].
    destruct Hinv as [[Hm' _] Hd]; [split; [exact Hm|exact Hok]|apply within_one_empty|].
    split; [|exact Hd].
    apply cache_modes_store; [exact Hm'| |]; intros _;
      [apply within_one_two|]; exact Hd.
Qed.

Lemma distr_hit_modes fuel :
  (forall player_total player_aces dealer_total st,
      shoe_wf (card_distr st) -> int_range player_aces ->
      (3 * Z.to_nat (shoe_total (card_distr st)) + Z.to_nat player_aces + 2
       <= fuel)%nat ->
      wp (distr_hit rules fuel player_total player_aces dealer_total) st
         (fun d st' =>
            frame st st' /\
            (cache_modes st ->
             hand_ok player_total player_aces /\ 2 <= dealer_total <= 11 ->
             cache_modes st' /\ within_one d))) /\
  (forall player_total player_aces dealer_total st,
      shoe_wf (card_distr st) -> int_range player_aces ->
      (3 * Z.to_nat (shoe_total (card_distr st)) + Z.to_nat player_aces + 3
       <= fuel)%nat ->
      wp (distr_hit_stand rules fuel player_total player_aces dealer_total) st
         (fun d st' =>
            frame st st' /\
            (cache_modes st ->
             hand_ok player_total player_aces /\ 2 <= dealer_total <= 11 ->
             cache_modes st' /\ within_one d))).
Proof.
  induction fuel as [|fuel [IHhit IHhs]].
  { split; intros; lia. }
  split.
  - intros pt pa dt st Hwf Hpa Hfuel.
    rewrite distr_hit_S.
    destruct (pt >? 21) eqn:Ept.
    { destruct (pa >? 0) eqn:Epa.
      - assert (Hpa' : int_sub pa 1 = pa - 1).
        { apply int_wrap_id. unfold int_range in *. lia. }
        eapply wp_mono.
        + apply IHhit; [exact Hwf|apply int_wrap_range|rewrite Hpa'; lia].
        + intros d st' [Hfr Hs]. split; [exact Hfr|].
          intros Hm [Hh Hdt]. apply Hs; [exact Hm|].
          split; [apply hand_ok_soft; [exact Hh|lia]|exact Hdt].
      - apply wp_gets. split; [apply frame_refl|].
        intros Hm _. split; [exact Hm|apply Hm]. }
    assert (Hkey : hand_ok pt pa /\ 2 <= dt <= 11 ->
                   get_state_hash st pt pa dt 2 mod 10 = 2).
    { intros [(Ha & Ht & Hr) Hdt].
      apply get_state_hash_mode; [exact Hwf|unfold int_range; lia|lia|lia|lia]. }
    apply wp_bind, wp_gets. apply wp_bind, wp_gets.
    unfold precomputed_distr, precomp_distr_at.
    generalize dependent (get_state_hash st pt pa dt 2). intros h Hkey.
    destruct (precomp_distr st !! h) as [d|] eqn:Ecache.
    { apply wp_gets. cbv beta. rewrite Ecache. split; [apply frame_refl|].
      intros Hm Hok. split; [exact Hm|].
      destruct Hm as [Hc _]. apply (Hc h d Ecache). rewrite (Hkey Hok). lia. }
    apply wp_bind.
    set (A := hand_ok pt pa /\ 2 <= dt <= 11).
    eapply wp_mono.
    + apply (draw_loop_inv (fun s => cache_modes s /\ A) ltac:(auto)
               within_one
             (fun acc d p Hl Ha Hd _ => within_one_add acc d p Hl Ha Hd)).
      * exact Hwf.
      * intros c Hc. apply in_range in Hc. lia.
      * apply empty_distr_length.
      * intros c st_i Hc Hfr Hv. apply in_range in Hc.
        assert (Hg : 1 <= shoe_get (card_distr st) c).
        { pose proof (valid_count_bounds _ 0 c Hwf ltac:(lia)). lia. }
        assert (Hcd : card_distr st_i = card_distr st) by
          (apply frame_card_distr; exact Hfr).
        assert (Htot : shoe_total (card_distr (take c st_i))
                       = shoe_total (card_distr st) - 1).
        { unfold take. simpl. rewrite Hcd.
          apply shoe_take_total; [exact Hwf|lia|exact Hg]. }
        eapply wp_mono.
        -- apply IHhs.
           ++ unfold take. simpl. rewrite Hcd.
              apply shoe_take_wf; [exact Hwf|lia|exact Hg].
           ++ apply int_wrap_range.
           ++ rewrite Htot.
              pose proof (to_nat_int_add pa (is_ace (get_value c)) Hpa (is_ace_01 _)).
              pose proof (shoe_total_ge_count _ c Hwf ltac:(lia)).
              lia.
        -- intros d st' [Hfr' Hs]. split; [exact Hfr'|].
           intros [Hm [Hh Hdt]].
           destruct Hs as [Hm' Hd].
           ++ exact Hm.
           ++ split; [apply hand_ok_draw; [exact Hh|lia|lia]|exact Hdt].
           ++ split; [split; [exact Hm'|split; assumption]|exact Hd].
    + intros distr st' (Hfr & Hlen & Hinv).
      apply wp_bind, wp_modify, wp_ret.
      split; [apply frame_store; exact Hfr|].
      intros Hm Hok.
      destruct Hinv as [[Hm' _] Hd]; [split; [exact Hm|exact Hok]|apply within_one_empty|].
      split; [|exact Hd].
      apply cache_modes_store; [exact Hm'| |]; intros _;
        [apply within_one_two|]; exact Hd.
  - intros pt pa dt st Hwf Hpa Hfuel.
    rewrite distr_hit_stand_S.
    set (norm := if (pt >? 21) && (pa >? 0)
                 then (int_sub pt 10, int_sub pa 1) else (pt, pa)).
    assert (Hnorm : int_range (snd norm) /\
                    (Z.to_nat (snd norm) <= Z.to_nat pa)%nat /\
                    (hand_ok pt pa -> hand_ok (fst norm) (snd norm))).
    { unfold norm. destruct ((pt >? 21) && (pa >? 0)) eqn:En; simpl.
      - apply andb_true_iff in En as [E1 E2].
        assert (Hpa' : int_sub pa 1 = pa - 1).
        { apply int_wrap_id. unfold int_range in *. lia. }
        split; [apply int_wrap_range|]. split; [lia|].
        intros Hh. apply hand_ok_soft; [exact Hh|lia].
      - auto. }
    destruct norm as [pt' pa']. simpl in Hnorm.
    destruct Hnorm as (Hpa' & Hle & Hen).
    apply wp_bind. eapply wp_mono.
    { apply IHhit; [exact Hwf|exact Hpa'|lia]. }
    intros dh st1 [Hfr1 Hs1].
    assert (Hcd1 : card_distr st1 = card_distr st) by
      (apply frame_card_distr; exact Hfr1).
    apply wp_bind. eapply wp_mono.
    { apply distr_stand_modes.
      - rewrite Hcd1. exact Hwf.
      - pose proof (is_ace_01 dt). unfold int_range. lia.
      - rewrite Hcd1. pose proof (is_ace_01 dt). lia. }
    intros ds st2 [Hfr2 Hs2].
    apply wp_bind, wp_gets, wp_ret.
    split; [eapply frame_trans; eassumption|].
    intros Hm [Hh Hdt]. specialize (Hen Hh).
    destruct (Hs1 Hm (conj Hen Hdt)) as [Hm1 Hdh].
    destruct Hs2 as [Hm2 Hds].
    + exact Hm1.
    + right. split; [apply hand_ok_dealer; exact Hdt|].
      apply (hand_ok_int_range _ _ Hen).
    + split; [exact Hm2|].
      destruct (Qlt_bool _ _); assumption.
Qed.

Lemma distr_stand_nonneg fuel :
  forall player_total dealer_aces dealer_total first_call st,
    shoe_wf (card_distr st) -> int_range dealer_aces ->
    (2 * Z.to_nat (shoe_total (card_distr st)) + Z.to_nat dealer_aces + 1
     <= fuel)%nat ->
    wp (distr_stand rules fuel player_total dealer_aces dealer_total first_call)
       st
       (fun d st' =>
          frame st st' /\ (cache_nonneg st -> cache_nonneg st' /\ nonneg d)).
Proof.
  induction fuel as [|fuel IH]; intros pt da dt fc st Hwf Hda Hfuel; [lia|].
  rewrite distr_stand_S.
  destruct (pt >? 21) eqn:Ept.
  { apply wp_gets. split; [apply frame_refl|].
    intros Hm. split; [exact Hm|apply Hm]. }
  destruct (dt >? 21) eqn:Edt.
  { destruct (da >? 0) eqn:Eda.
    - assert (Hda' : int_sub da 1 = da - 1).
      { apply int_wrap_id. unfold int_range in *. lia. }
      apply IH; [exact Hwf|apply int_wrap_range|rewrite Hda'; lia].
    - apply wp_gets. split; [apply frame_refl|].
      intros Hm. split; [exact Hm|apply Hm]. }
  destruct ((dt >? 17) || ((dt =? 17) && ((da =? 0) || negb (HIT_SOFT_17 rules))))
    eqn:Estand.
  { destruct (dt =? pt); [|destruct (dt >? pt)];
      (apply wp_gets; split; [apply frame_refl|];
       intros Hm; split; [exact Hm|apply Hm]). }
  apply wp_bind, wp_gets. apply wp_bind, wp_gets.
  unfold precomputed_distr, precomp_distr_at.
  generalize (get_state_hash st pt da dt (if fc then 3 else 4)). intros h.
  destruct (precomp_distr st !! h) as [d|] eqn:Ecache.
  { apply wp_gets. cbv beta. rewrite Ecache. split; [apply frame_refl|].
    intros Hm. split; [exact Hm|].
    destruct Hm as [Hc _]. apply (Hc h d Ecache). }
  apply wp_bind.
  eapply wp_mono.
  - apply (draw_loop_inv cache_nonneg cache_nonneg_shoe nonneg nonneg_add_pos).
    + exact Hwf.
    + intros c Hc. apply in_range in Hc. lia.
    + apply empty_distr_length.
    + intros c st_i Hc Hfr Hv. apply in_range in Hc.
      assert (Hg : 1 <= shoe_get (card_distr st) c).
      { pose proof (valid_count_bounds _ (banned_value_of fc dt) c Hwf
                      ltac:(lia)). lia. }
      destruct (take_facts st st_i c Hfr Hwf ltac:(lia) Hg) as (Hwf' & Htot & Hpos).
      eapply wp_mono.
      * apply IH; [exact Hwf'|apply int_wrap_range|].
        rewrite Htot.
        pose proof (to_nat_int_add da (is_ace (get_value c)) Hda (is_ace_01 _)).
        lia.
      * intros d st' [Hfr' Hs]. split; [exact Hfr'|].
        intros Hm. apply Hs. apply cache_nonneg_shoe. exact Hm.
  - intros distr st' (Hfr & Hlen & Hinv).
    apply wp_bind, wp_modify, wp_ret.
    split; [apply frame_store; exact Hfr|].
    intros Hm.
    destruct (Hinv Hm nonneg_empty) as [Hm' Hd].
    split; [|exact Hd].
    apply cache_nonneg_store; assumption.
Qed.

Lemma distr_hit_nonneg fuel :
  (forall player_total player_aces dealer_total st,
      shoe_wf (card_distr st) -> int_range player_aces ->
      (3 * Z.to_nat (shoe_total (card_distr st)) + Z.to_nat player_aces + 2
       <= fuel)%nat ->
      wp (distr_hit rules fuel player_total player_aces dealer_total) st
         (fun d st' =>
            frame st st' /\ (cache_nonneg st -> cache_nonneg st' /\ nonneg d))) /\
  (forall player_total player_aces dealer_total st,
      shoe_wf (card_distr st) -> int_range player_aces ->
      (3 * Z.to_nat (shoe_total (card_distr st)) + Z.to_nat player_aces + 3
       <= fuel)%nat ->
      wp (distr_hit_stand rules fuel player_total player_aces dealer_total) st
         (fun d st' =>
            frame st st' /\ (cache_nonneg st -> cache_nonneg st' /\ nonneg d))).
Proof.
  induction fuel as [|fuel [IHhit IHhs]].
  { split; intros; lia. }
  split.
  - intros pt pa dt st Hwf Hpa Hfuel.
    rewrite distr_hit_S.
    destruct (pt >? 21) eqn:Ept.
    { destruct (pa >? 0) eqn:Epa.
      - assert (Hpa' : int_sub pa 1 = pa - 1).
        { apply int_wrap_id. unfold int_range in *. lia. }
        apply IHhit; [exact Hwf|apply int_wrap_range|rewrite Hpa'; lia].
      - apply wp_gets. split; [apply frame_refl|].
        intros Hm. split; [exact Hm|apply Hm]. }
    apply wp_bind, wp_gets. apply wp_bind, wp_gets.
    unfold precomputed_distr, precomp_distr_at.
    generalize (get_state_hash st pt pa dt 2). intros h.
    destruct (precomp_distr st !! h) as [d|] eqn:Ecache.
    { apply wp_gets. cbv beta. rewrite Ecache. split; [apply frame_refl|].
      intros Hm. split; [exact Hm|].
      destruct Hm as [Hc _]. apply (Hc h d Ecache). }
    apply wp_bind.
    eapply wp_mono.
    + apply (draw_loop_inv cache_nonneg cache_nonneg_shoe nonneg nonneg_add_pos).
      * exact Hwf.
      * intros c Hc. apply in_range in Hc. lia.
      * apply empty_distr_length.
      * intros c st_i Hc Hfr Hv. apply in_range in Hc.
        assert (Hg : 1 <= shoe_get (card_distr st) c).
        { pose proof (valid_count_bounds _ 0 c Hwf ltac:(lia)). lia. }
        destruct (take_facts st st_i c Hfr Hwf ltac:(lia) Hg) as (Hwf' & Htot & Hpos).
        eapply wp_mono.
        -- apply IHhs; [exact Hwf'|apply int_wrap_range|].
           rewrite Htot.
           pose proof (to_nat_int_add pa (is_ace (get_value c)) Hpa (is_ace_01 _)).
           lia.
        -- intros d st' [Hfr' Hs]. split; [exact Hfr'|].
           intros Hm. apply Hs. apply cache_nonneg_shoe. exact Hm.
    + intros distr st' (Hfr & Hlen & Hinv).
      apply wp_bind, wp_modify, wp_ret.
      split; [apply frame_store; exact Hfr|].
      intros Hm.
      destruct (Hinv Hm nonneg_empty) as [Hm' Hd].
      split; [|exact Hd].
      apply cache_nonneg_store; assumption.
  - intros pt pa dt st Hwf Hpa Hfuel.
    rewrite distr_hit_stand_S.
    set (norm := if (pt >? 21) && (pa >? 0)
                 then (int_sub pt 10, int_sub pa 1) else (pt, pa)).
    assert (Hnorm : int_range (snd norm) /\
                    (Z.to_nat (snd norm) <= Z.to_nat pa)%nat).
    { unfold norm. destruct ((pt >? 21) && (pa >? 0)) eqn:En; simpl.
      - apply andb_true_iff in En as [E1 E2].
        assert (Hpa' : int_sub pa 1 = pa - 1).
        { apply int_wrap_id. unfold int_range in *. lia. }
        split; [apply int_wrap_range|]. lia.
      - auto. }
    destruct norm as [pt' pa']. simpl in Hnorm.
    destruct Hnorm as (Hpa' & Hle).
    apply wp_bind. eapply wp_mono.
    { apply IHhit; [exact Hwf|exact Hpa'|lia]. }
    intros dh st1 [Hfr1 Hs1].
    assert (Hcd1 : card_distr st1 = card_distr st) by
      (apply frame_card_distr; exact Hfr1).
    apply wp_bind. eapply wp_mono.
    { apply distr_stand_nonneg.
      - rewrite Hcd1. exact Hwf.
      - pose proof (is_ace_01 dt). unfold int_range. lia.
      - rewrite Hcd1. pose proof (is_ace_01 dt). lia. }
    intros ds st2 [Hfr2 Hs2].
    apply wp_bind, wp_gets, wp_ret.
    split; [eapply frame_trans; eassumption|].
    intros Hm.
    destruct (Hs1 Hm) as [Hm1 Hdh].
    destruct (Hs2 Hm1) as [Hm2 Hds].
    split; [exact Hm2|].
    destruct (Qlt_bool _ _); assumption.
Qed.

End ModesProofs.

(** ** Mass and modes together *)

Section DrawLoopGood.

Variable E : Prop.
Variable P : list Q -> Prop.
Hypothesis P_add :
  forall acc d p,
    length acc = 17%nat -> P acc -> P d -> (0 < p)%Q -> P (add acc d p).

Variable b : Z.
Variable sub : Z -> M RewardDistribution (list Q).

Lemma draw_loop_good cards acc st :
  shoe_wf (card_distr st) ->
  (forall c, In c cards -> 1 <= c <= 13) ->
  length acc = 17%nat ->
  (forall c st_i,
      In c cards -> frame st st_i ->
      1 <= valid_count (card_distr st) b c ->
      wp (sub c) (take c st_i)
         (fun d st' =>
            frame (take c st_i) st' /\
            (good st_i -> E -> good st' /\ (dsum d == 1)%Q /\ P d))) ->
  wp (for_each cards (draw_body b sub) acc) st
     (fun acc' st' =>
        frame st st' /\ length acc' = 17%nat /\
        (good st -> E -> P acc ->
         good st' /\
         (dsum acc' == dsum acc + draw_weights st b cards)%Q /\ P acc')).
Proof.
  intros Hwf Hcards Hlen Hsub.
  eapply wp_mono.
  - apply wp_conj.
    + apply (draw_loop_spec (fun s => good s /\ E) ltac:(auto) b sub cards acc st
               Hwf Hcards Hlen).
      intros c st_i Hc Hfr Hv.
      eapply wp_mono; [apply (Hsub c st_i Hc Hfr Hv)|].
      intros d st' [Hfr' H]. split; [exact Hfr'|].
      intros [Hg He]. destruct (H Hg He) as (Hg' & Hd & _). auto.
    + apply (draw_loop_inv (fun s => good s /\ E) ltac:(auto) P P_add b sub
               cards acc st Hwf Hcards Hlen).
      intros c st_i Hc Hfr Hv.
      eapply wp_mono; [apply (Hsub c st_i Hc Hfr Hv)|].
      intros d st' [Hfr' H]. split; [exact Hfr'|].
      intros [Hg He]. destruct (H Hg He) as (Hg' & _ & Hp). auto.
  - intros acc' st' [(Hfr & Hlen' & Hmass) (_ & _ & Hinv)].
    split; [exact Hfr|]. split; [exact Hlen'|].
    intros Hg He Hp.
    destruct (Hmass (conj Hg He)) as [[Hg' _] Hsum].
    destruct (Hinv (conj Hg He) Hp) as [_ Hp'].
    auto.
Qed.

End DrawLoopGood.

Lemma good_store st h d :
  good st -> (dsum d == 1)%Q -> nonneg d ->
  (h mod 10 <> 0 -> within_two d) -> (2 <= h mod 10 <= 4 -> within_one d) ->
  good (with_precomp_distr st (<[h := d]> (precomp_distr st))).
Proof.
  intros (Hu & Hm & Hn) Hd Hd0 H2 H1.
  split; [apply unit_mass_store; assumption|].
  split; [apply cache_modes_store; assumption|].
  apply cache_nonneg_store; assumption.
Qed.

Section GoodProofs.

Variable rules : rule_variation.

Lemma distr_stand_good fuel pt da dt fc st :
  shoe_wf (card_distr st) -> int_range da ->
  (2 * Z.to_nat (shoe_total (card_distr st)) + Z.to_nat da + 1 <= fuel)%nat ->
  wp (distr_stand rules fuel pt da dt fc) st
     (fun d st' =>
        frame st st' /\
        (good st ->
         21 < pt \/ (stand_enough (card_distr st) da dt fc /\ int_range pt) ->
         good st' /\ (dsum d == 1)%Q /\ sub_one d)).
Proof.
  intros Hwf Hda Hfuel.
  eapply wp_mono.
  - apply wp_conj; [apply wp_conj|].
    + apply (distr_stand_spec rules fuel pt da dt fc st Hwf Hda Hfuel).
    + apply (distr_stand_modes rules fuel pt da dt fc st Hwf Hda Hfuel).
    + apply (distr_stand_nonneg rules fuel pt da dt fc st Hwf Hda Hfuel).
  - intros d st' [[[Hfr Hmass] [_ Hmodes]] [_ Hnn]]. split; [exact Hfr|].
    intros (Hu & Hm & Hn) He.
    destruct Hmass as [Hu' Hd]; [exact Hu|destruct He as [H|[H _]]; auto|].
    destruct Hmodes as [Hm' Hw];
      [exact Hm|destruct He as [H|[[H _] Hr]]; auto|].
    destruct (Hnn Hn) as [Hn' Hd0].
    split; [split; [exact Hu'|split; assumption]|].
    split; [exact Hd|split; assumption].
Qed.

Lemma distr_hit_stand_good fuel pt pa dt st :
  shoe_wf (card_distr st) -> int_range pa ->
  (3 * Z.to_nat (shoe_total (card_distr st)) + Z.to_nat pa + 3 <= fuel)%nat ->
  wp (distr_hit_stand rules fuel pt pa dt) st
     (fun d st' =>
        frame st st' /\
        (good st -> hit_enough (card_distr st) pt pa dt ->
         good st' /\ (dsum d == 1)%Q /\ sub_one d)).
Proof.
  intros Hwf Hpa Hfuel.
  eapply wp_mono.
  - apply wp_conj; [apply wp_conj|].
    + apply (proj2 (distr_hit_spec rules fuel) pt pa dt st Hwf Hpa Hfuel).
    + apply (proj2 (distr_hit_modes rules fuel) pt pa dt st Hwf Hpa Hfuel).
    + apply (proj2 (distr_hit_nonneg rules fuel) pt pa dt st Hwf Hpa Hfuel).
  - intros d st' [[[Hfr Hmass] [_ Hmodes]] [_ Hnn]]. split; [exact Hfr|].
    intros (Hu & Hm & Hn) He.
    destruct (Hmass Hu He) as [Hu' Hd].
    destruct He as (Hh & Hdt & _).
    destruct (Hmodes Hm (conj Hh Hdt)) as [Hm' Hw].
    destruct (Hnn Hn) as [Hn' Hd0].
    split; [split; [exact Hu'|split; assumption]|].
    split; [exact Hd|split; assumption].
Qed.

Lemma distr_double_good fuel pt pa dt st :
  shoe_wf (card_distr st) ->
  (2 * Z.to_nat (shoe_total (card_distr st)) + 2 <= fuel)%nat ->
  wp (distr_double rules fuel pt pa dt) st
     (fun d st' =>
        frame st st' /\
        (good st ->
         double_enough (card_distr st) dt /\ int_range pt /\ - 1000 <= pa <= 1000 ->
         good st' /\ (dsum d == 1)%Q /\ sub_two d)).
Proof.
  intros Hwf Hfuel. unfold distr_double.
  assert (Hkey : double_enough (card_distr st) dt /\ int_range pt
                 /\ - 1000 <= pa <= 1000 ->
                 get_state_hash st pt pa dt 1 mod 10 = 1).
  { intros ([Hdt _] & Hpt & Hpa).
    apply get_state_hash_mode; [exact Hwf|exact Hpt|lia|lia|lia]. }
  apply wp_bind, wp_gets. apply wp_bind, wp_gets.
  unfold precomputed_distr, precomp_distr_at.
  generalize dependent (get_state_hash st pt pa dt 1). intros h Hkey.
  destruct (precomp_distr st !! h) as [d|] eqn:Ecache.
  { apply wp_gets. cbv beta. rewrite Ecache. split; [apply frame_refl|].
    intros Hg He. split; [exact Hg|].
    destruct Hg as ([Hu _] & [Hc _] & [Hn _]).
    split; [apply (Hu h d Ecache)|].
    split; [apply (Hn h d Ecache)|].
    apply (Hc h d Ecache). rewrite (Hkey He). lia. }
  apply wp_bind.
  set (E := double_enough (card_distr st) dt /\ int_range pt /\ - 1000 <= pa <= 1000).
  eapply wp_mono.
  - apply (draw_loop_good E sub_one sub_one_add 0
             (fun card =>
                distr_stand rules fuel
                  (if (int_add pt (get_value card) >? 21)
                      && (int_add pa (is_ace (get_value card)) >? 0)
                   then int_sub (int_add pt (get_value card)) 10
                   else int_add pt (get_value card))
                  (is_ace dt) dt true)).
    + exact Hwf.
    + intros c Hc. apply in_range in Hc. lia.
    + apply empty_distr_length.
    + intros c st_i Hc Hfr Hv. apply in_range in Hc.
      assert (Hg : 1 <= shoe_get (card_distr st) c).
      { pose proof (valid_count_bounds _ 0 c Hwf ltac:(lia)). lia. }
      destruct (take_facts st st_i c Hfr Hwf ltac:(lia) Hg) as (Hwf' & Htot & Hpos).
      assert (Hcd : card_distr st_i = card_distr st) by
        (apply frame_card_distr; exact Hfr).
      eapply wp_mono.
      * apply distr_stand_good; [exact Hwf'| |].
        -- pose proof (is_ace_01 dt). unfold int_range. lia.
        -- rewrite Htot. pose proof (is_ace_01 dt). lia.
      * intros d st' [Hfr' Hs]. split; [exact Hfr'|].
        intros Hgood (He & Hpt & Hpa).
        apply Hs; [apply good_shoe; exact Hgood|].
        right. split.
        -- unfold take. simpl. rewrite Hcd.
           apply double_enough_stand; [exact Hwf|lia|exact Hg|exact He].
        -- destruct ((int_add pt (get_value c) >? 21)
                     && (int_add pa (is_ace (get_value c)) >? 0));
             apply int_wrap_range.
  - intros distr st' (Hfr & Hlen & Hinv). cbv zeta.
    apply wp_bind, wp_modify, wp_ret.
    split; [apply frame_store; exact Hfr|].
    intros Hgood He.
    destruct (Hinv Hgood He sub_one_empty) as (Hg' & Hsum & Hn & Hw).
    destruct (double_distr_within distr Hlen Hw) as [Hw2 Hmass].
    pose proof (double_distr_nonneg distr Hlen Hn) as Hn2.
    assert (Hd1 : (dsum (double_distr distr) == 1)%Q).
    { rewrite Hmass, Hsum, dsum_empty_distr, draw_weights_full;
        [reflexivity|exact Hwf|].
      apply (double_enough_drawable _ dt); [exact Hwf|apply He]. }
    split; [|split; [exact Hd1|split; assumption]].
    apply good_store; [exact Hg'|exact Hd1|exact Hn2|intros _; exact Hw2|].
    rewrite (Hkey He). lia.
Qed.

Lemma distr_blackjack_good dt st :
  shoe_wf (card_distr st) ->
  wp (distr_blackjack dt) st
     (fun d st' =>
        frame st st' /\
        (good st -> - 1000 <= dt <= 1000 /\ 1 <= shoe_total (card_distr st) ->
         good st' /\ (dsum d == 1)%Q /\ sub_two d)).
Proof.
  intros Hwf. unfold distr_blackjack.
  destruct (dt <? 10).
  { apply wp_gets. split; [apply frame_refl|]. intros Hg _.
    split; [exact Hg|].
    destruct Hg as (_ & (_ & _ & _ & _ & Hw & Hd) & (_ & _ & _ & _ & Hn)).
    split; [exact Hd|split; assumption]. }
  assert (Hkey : - 1000 <= dt <= 1000 -> get_state_hash st 21 1 dt 5 mod 10 = 5).
  { intros Hdt.
    apply get_state_hash_mode; [exact Hwf|unfold int_range; lia|lia|lia|lia]. }
  apply wp_bind, wp_gets. apply wp_bind, wp_gets.
  unfold precomputed_distr, precomp_distr_at.
  generalize dependent (get_state_hash st 21 1 dt 5). intros h Hkey.
  destruct (precomp_distr st !! h) as [d|] eqn:Ecache.
  { apply wp_gets. cbv beta. rewrite Ecache. split; [apply frame_refl|].
    intros Hg [He _]. split; [exact Hg|].
    destruct Hg as ([Hu _] & [Hc _] & [Hn _]).
    split; [apply (Hu h d Ecache)|].
    split; [apply (Hn h d Ecache)|].
    apply (Hc h d Ecache). rewrite (Hkey He). lia. }
  apply wp_bind, wp_gets. apply wp_bind, wp_gets. apply wp_bind, wp_gets.
  apply wp_bind, wp_modify, wp_ret.
  split; [apply frame_store, frame_refl|].
  intros Hg [He Ht].
  pose proof (blackjack_share_eq st dt Ht) as Hshare.
  set (p := if dt =? 10 then card_probability st 1 0
            else (card_probability st 10 0 + card_probability st 11 0
                  + card_probability st 12 0 + card_probability st 13 0)%Q) in *.
  assert (Hp : (0 <= p <= 1)%Q).
  { rewrite Hshare. apply Qfrac_bounds; [|exact Ht].
    destruct (dt =? 10).
    - split; [apply Hwf; lia|apply shoe_total_ge_count; [exact Hwf|lia]].
    - apply tens_le_total. exact Hwf. }
  assert (Hq : (0 <= 1 - p)%Q).
  { destruct Hp as [_ Hp1]. unfold Qminus. rewrite <- (Qplus_opp_r p).
    apply Qplus_le_compat; [exact Hp1|apply Qle_refl]. }
  pose proof Hg as ((_ & Ht1 & _) & (_ & Htw & _ & _ & Hbw & Hb1)
                    & (_ & Htn & _ & _ & Hbn)).
  assert (Hd1 : (dsum (add (add empty_distr (CONSTANT_TIE st) p)
                           (CONSTANT_BLACKJACK st) (1 - p)) == 1)%Q).
  { rewrite dsum_add by (rewrite add_length; apply empty_distr_length).
    rewrite dsum_add by apply empty_distr_length.
    rewrite dsum_empty_distr, Ht1, Hb1. ring. }
  assert (Hw : sub_two (add (add empty_distr (CONSTANT_TIE st) p)
                            (CONSTANT_BLACKJACK st) (1 - p))).
  { apply sub_two_add;
      [rewrite add_length; apply empty_distr_length| |split; assumption|exact Hq].
    apply sub_two_add; [apply empty_distr_length|apply sub_two_empty| |apply Hp].
    split; [exact Htn|apply within_one_two; exact Htw]. }
  split; [|split; assumption].
  apply good_store; [exact Hg|exact Hd1|apply Hw|intros _; apply Hw|].
  rewrite (Hkey He). lia.
Qed.

Lemma distr_hit_stand_double_good fuel pt pa dt st :
  shoe_wf (card_distr st) -> int_range pa ->
  (3 * Z.to_nat (shoe_total (card_distr st)) + Z.to_nat pa + 3 <= fuel)%nat ->
  wp (distr_hit_stand_double rules fuel pt pa dt) st
     (fun d st' =>
        frame st st' /\
        (good st -> hit_stand_double_enough (card_distr st) pt pa dt ->
         good st' /\ (dsum d == 1)%Q /\ sub_two d)).
Proof.
  intros Hwf Hpa Hfuel. unfold distr_hit_stand_double.
  set (norm := if (pt >? 21) && (pa >? 0)
               then (int_sub pt 10, int_sub pa 1) else (pt, pa)).
  assert (Hnorm : int_range (snd norm) /\
                  (Z.to_nat (snd norm) <= Z.to_nat pa)%nat /\
                  (hit_stand_double_enough (card_distr st) pt pa dt ->
                   hit_stand_double_enough (card_distr st) (fst norm) (snd norm) dt)).
  { unfold norm. destruct ((pt >? 21) && (pa >? 0)) eqn:En; simpl.
    - apply andb_true_iff in En as [E1 E2].
      assert (Hpa' : int_sub pa 1 = pa - 1).
      { apply int_wrap_id. unfold int_range in *. lia. }
      split; [apply int_wrap_range|]. split; [lia|].
      intros (Hh & Hd & Hle). split; [apply hit_enough_soft; [lia|lia|exact Hh]|].
      split; [exact Hd|].
      destruct Hh as [(_ & _ & Hr) _]. unfold int_sub.
      rewrite int_wrap_id by (unfold int_range; lia). lia.
    - auto. }
  destruct norm as [pt' pa']. simpl in Hnorm.
  destruct Hnorm as (Hpa' & Hle & Hen).
  destruct (pt' =? 21).
  { eapply wp_mono; [apply distr_blackjack_good; exact Hwf|].
    intros d st' [Hfr H]. split; [exact Hfr|].
    intros Hg He. apply H; [exact Hg|].
    destruct (Hen He) as (_ & Hd & _).
    pose proof (double_enough_drawable _ dt Hwf Hd) as Hdr.
    rewrite drawable_0 in Hdr. destruct Hd as [Hdt _].
    split; [lia|exact Hdr]. }
  apply wp_bind. eapply wp_mono.
  { apply distr_hit_stand_good; [exact Hwf|exact Hpa'|lia]. }
  intros dhs st1 [Hfr1 Hs1]. cbv beta.
  assert (Hcd1 : card_distr st1 = card_distr st) by
    (apply frame_card_distr; exact Hfr1).
  apply wp_bind. eapply wp_mono.
  { apply distr_double_good; [rewrite Hcd1; exact Hwf|rewrite Hcd1; lia]. }
  intros dd st2 [Hfr2 Hs2]. cbv beta.
  apply wp_bind, wp_gets, wp_ret.
  split; [eapply frame_trans; eassumption|].
  intros Hg He. destruct (Hen He) as (Hh & Hd & Hle31).
  destruct (Hs1 Hg Hh) as (Hg1 & Hm1 & Hw1).
  destruct Hs2 as (Hg2 & Hm2 & Hw2).
  - exact Hg1.
  - rewrite Hcd1. split; [exact Hd|].
    destruct Hh as [(Ha & Ht & Hr) _].
    split; [unfold int_range; lia|lia].
  - split; [exact Hg2|].
    destruct (Qlt_bool _ _); [|split; assumption].
    split; [exact Hm1|apply sub_one_two; exact Hw1].
Qed.

End GoodProofs.

(** ** The splits *)

Lemma cached_wp st pt a dt m (rest : Z -> M RewardDistribution (list Q))
    (post : list Q -> RewardDistribution -> Prop) :
  (forall h d, precomp_distr st !! h = Some d ->
     h mod 10 = get_state_hash st pt a dt m mod 10 -> post d st) ->
  (forall h, h mod 10 = get_state_hash st pt a dt m mod 10 ->
     wp (rest h) st post) ->
  wp (state_hash <- gets (fun self => get_state_hash self pt a dt m) ;;
      hit <- gets (fun self => precomputed_distr self state_hash) ;;
      if (hit : bool) then gets (fun self => precomp_distr_at self state_hash)
      else rest state_hash) st post.
Proof.
  intros Hhit Hmiss.
  apply wp_bind, wp_gets. apply wp_bind, wp_gets.
  unfold precomputed_distr, precomp_distr_at.
  generalize dependent (get_state_hash st pt a dt m). intros h Hhit Hmiss.
  destruct (precomp_distr st !! h) as [d|] eqn:Ecache.
  - apply wp_gets. cbv beta. rewrite Ecache. apply (Hhit h d Ecache eq_refl).
  - apply Hmiss. reflexivity.
Qed.

Lemma draw_weights_frame st st' b cards :
  frame st st' -> draw_weights st' b cards = draw_weights st b cards.
Proof.
  intros Hfr. unfold draw_weights.
  assert (Hw : forall c, draw_weight st' b c = draw_weight st b c).
  { intros c. unfold draw_weight. rewrite (card_probability_frame _ _ _ _ Hfr).
    reflexivity. }
  enough (H : forall q,
             fold_left (fun q card => (q + draw_weight st' b card)%Q) cards q
             = fold_left (fun q card => (q + draw_weight st b card)%Q) cards q)
    by apply H.
  induction cards as [|c cards IH]; intros q; simpl; [reflexivity|].
  rewrite Hw. apply IH.
Qed.

Lemma draw_weights_app st b l1 l2 :
  (draw_weights st b (l1 ++ l2) == draw_weights st b l1 + draw_weights st b l2)%Q.
Proof.
  unfold draw_weights. rewrite fold_left_app.
  rewrite (Qsum_shift (draw_weight st b) l2). reflexivity.
Qed.

Lemma range_1_10_14 : range 1 14 = range 1 10 ++ range 10 14.
Proof. reflexivity. Qed.

Lemma draw_weights_tens st b :
  (draw_weights st b (range 2 14) + draw_weight st b 1
   == draw_weights st b (range 1 14))%Q.
Proof.
  change (range 1 14) with ([1] ++ range 2 14).
  rewrite draw_weights_app. unfold draw_weights at 2. simpl. ring.
Qed.

Lemma split_enough_hand shoe dt card pt pa :
  shoe_wf shoe -> 1 <= card <= 13 -> 1 <= shoe_get shoe card ->
  split_enough shoe dt ->
  hand_ok pt pa -> 1 <= pt - 10 * pa -> pt <= 31 ->
  hit_stand_double_enough
    (shoe_set shoe card (int_sub (shoe_get shoe card) 1)) pt pa dt.
Proof.
  intros Hwf Hc Hg [Hdt He] Hh Hhard H31.
  pose proof (drawable_take_ge shoe (banned_value_of true dt) card Hwf Hc Hg).
  assert (Hd : 1 <= dt - 10 * is_ace dt).
  { unfold is_ace. destruct (dt =? 11) eqn:E; lia. }
  split; [|split; [|exact H31]].
  - split; [exact Hh|]. split; [exact Hdt|lia].
  - split; [exact Hdt|lia].
Qed.

Lemma split_enough_stand shoe dt card :
  shoe_wf shoe -> 1 <= card <= 13 -> 1 <= shoe_get shoe card ->
  split_enough shoe dt ->
  stand_enough (shoe_set shoe card (int_sub (shoe_get shoe card) 1))
               (is_ace dt) dt true.
Proof.
  intros Hwf Hc Hg [Hdt He].
  apply double_enough_stand; [exact Hwf|exact Hc|exact Hg|].
  split; [exact Hdt|].
  assert (Hd : 1 <= dt - 10 * is_ace dt).
  { unfold is_ace. destruct (dt =? 11) eqn:E; lia. }
  lia.
Qed.

Lemma split_enough_drawable shoe dt :
  shoe_wf shoe -> split_enough shoe dt -> 1 <= drawable shoe 0.
Proof.
  intros Hwf [Hdt He]. rewrite drawable_0.
  pose proof (drawable_le_total _ (banned_value_of true dt) Hwf). lia.
Qed.

Section SplitProofs.

Variable rules : rule_variation.

(** The hand played after a split, with or without the right to double. *)
Lemma after_split_good fuel pt pa dt st :
  shoe_wf (card_distr st) -> 0 <= pa <= 1 ->
  (3 * Z.to_nat (shoe_total (card_distr st)) + 4 <= fuel)%nat ->
  wp (if DOUBLE_AFTER_SPLIT rules
      then distr_hit_stand_double rules fuel pt pa dt
      else distr_hit_stand rules fuel pt pa dt) st
     (fun d st' =>
        frame st st' /\
        (good st -> hit_stand_double_enough (card_distr st) pt pa dt ->
         good st' /\ (dsum d == 1)%Q /\ sub_two d)).
Proof.
  intros Hwf Hpa Hfuel.
  destruct (DOUBLE_AFTER_SPLIT rules).
  - apply distr_hit_stand_double_good; [exact Hwf|unfold int_range; lia|lia].
  - eapply wp_mono.
    + apply distr_hit_stand_good; [exact Hwf|unfold int_range; lia|lia].
    + intros d st' [Hfr H]. split; [exact Hfr|].
      intros Hg (Hh & _). destruct (H Hg Hh) as (Hg' & Hd & Hw).
      split; [exact Hg'|]. split; [exact Hd|apply sub_one_two; exact Hw].
Qed.

Lemma distr_split_general_good fuel pc dt st :
  shoe_wf (card_distr st) ->
  (3 * Z.to_nat (shoe_total (card_distr st)) + 1 <= fuel)%nat ->
  wp (distr_split_general rules fuel pc dt) st
     (fun d st' =>
        frame st st' /\
        (good st -> split_enough (card_distr st) dt /\ 0 <= pc <= 11 ->
         good st' /\ (dsum d == 1)%Q /\ nonneg d)).
Proof.
  intros Hwf Hfuel. unfold distr_split_general.
  set (E := split_enough (card_distr st) dt /\ 0 <= pc <= 11).
  assert (Hkey : E -> get_state_hash st pc 0 dt 0 mod 10 = 0).
  { intros [[Hdt _] Hpc].
    apply get_state_hash_mode; [exact Hwf|unfold int_range; lia|lia|lia|lia]. }
  apply cached_wp.
  { intros h d Ecache _. split; [apply frame_refl|].
    intros Hg _. split; [exact Hg|]. destruct Hg as ([Hu _] & _ & [Hn _]).
    split; [apply (Hu h d Ecache)|apply (Hn h d Ecache)]. }
  intros h Hh. apply wp_bind.
  eapply wp_mono.
  - apply (draw_loop_good E sub_two sub_two_add_pos 0
             (fun card =>
                if DOUBLE_AFTER_SPLIT rules
                then distr_hit_stand_double rules fuel
                       (int_add pc (get_value card)) (is_ace (get_value card)) dt
                else distr_hit_stand rules fuel
                       (int_add pc (get_value card)) (is_ace (get_value card)) dt)).
    + exact Hwf.
    + intros c Hc. apply in_range in Hc. lia.
    + apply empty_distr_length.
    + intros c st_i Hc Hfr Hv. apply in_range in Hc.
      assert (Hg : 1 <= shoe_get (card_distr st) c).
      { pose proof (valid_count_bounds _ 0 c Hwf ltac:(lia)). lia. }
      destruct (take_facts st st_i c Hfr Hwf ltac:(lia) Hg) as (Hwf' & Htot & Hpos).
      assert (Hcd : card_distr st_i = card_distr st) by
        (apply frame_card_distr; exact Hfr).
      eapply wp_mono.
      * apply after_split_good; [exact Hwf'|apply is_ace_01|]. rewrite Htot. lia.
      * intros d st' [Hfr' Hs]. split; [exact Hfr'|].
        intros Hgood [He Hpc].
        apply Hs; [apply good_shoe; exact Hgood|].
        unfold take. simpl. rewrite Hcd.
        assert (Hadd : int_add pc (get_value c) = pc + get_value c).
        { pose proof (get_value_bounds c ltac:(lia)).
          apply int_wrap_id. unfold int_range. lia. }
        rewrite Hadd.
        destruct (is_ace_get_value c ltac:(lia)) as [(_ & Ev & Ea)|(_ & Ev & Ea)];
          rewrite Ea;
          (apply split_enough_hand;
           [exact Hwf|lia|exact Hg|exact He|unfold hand_ok; lia|lia|lia]).
  - intros distr st' (Hfr & Hlen & Hinv). cbv zeta.
    apply wp_bind, wp_modify, wp_ret.
    split; [apply frame_store; exact Hfr|].
    intros Hgood He.
    destruct (Hinv Hgood He sub_two_empty) as (Hg' & Hsum & Hn & Hw).
    assert (Hd1 : (dsum (double_variable distr) == 1)%Q).
    { rewrite double_variable_dsum by assumption.
      rewrite Hsum, dsum_empty_distr, draw_weights_full; [ring|exact Hwf|].
      apply (split_enough_drawable _ dt); [exact Hwf|apply He]. }
    pose proof (double_variable_nonneg distr Hlen Hn) as Hn2.
    split; [|split; assumption].
    apply good_store; [exact Hg'|exact Hd1|exact Hn2| |];
      rewrite Hh, (Hkey He); lia.
Qed.

Lemma distr_split_tens_good fuel dt st :
  shoe_wf (card_distr st) ->
  (3 * Z.to_nat (shoe_total (card_distr st)) + 1 <= fuel)%nat ->
  wp (distr_split_tens rules fuel dt) st
     (fun d st' =>
        frame st st' /\
        (good st -> split_enough (card_distr st) dt ->
         good st' /\ (dsum d == 1)%Q /\ nonneg d)).
Proof.
  intros Hwf Hfuel. unfold distr_split_tens.
  set (E := split_enough (card_distr st) dt).
  assert (Hkey : E -> get_state_hash st 10 0 dt 0 mod 10 = 0).
  { intros [Hdt _].
    apply get_state_hash_mode; [exact Hwf|unfold int_range; lia|lia|lia|lia]. }
  apply cached_wp.
  { intros h d Ecache _. split; [apply frame_refl|].
    intros Hg _. split; [exact Hg|]. destruct Hg as ([Hu _] & _ & [Hn _]).
    split; [apply (Hu h d Ecache)|apply (Hn h d Ecache)]. }
  intros h Hh. apply wp_bind.
  eapply wp_mono.
  - apply (draw_loop_good E sub_two sub_two_add_pos 0
             (fun card =>
                if DOUBLE_AFTER_SPLIT rules
                then distr_hit_stand_double rules fuel
                       (int_add 10 (get_value card)) 0 dt
                else distr_hit_stand rules fuel
                       (int_add 10 (get_value card)) 0 dt)).
    + exact Hwf.
    + intros c Hc. apply in_range in Hc. lia.
    + apply empty_distr_length.
    + intros c st_i Hc Hfr Hv. apply in_range in Hc.
      assert (Hg : 1 <= shoe_get (card_distr st) c).
      { pose proof (valid_count_bounds _ 0 c Hwf ltac:(lia)). lia. }
      destruct (take_facts st st_i c Hfr Hwf ltac:(lia) Hg) as (Hwf' & Htot & Hpos).
      assert (Hcd : card_distr st_i = card_distr st) by
        (apply frame_card_distr; exact Hfr).
      eapply wp_mono.
      * apply after_split_good; [exact Hwf'|lia|]. rewrite Htot. lia.
      * intros d st' [Hfr' Hs]. split; [exact Hfr'|].
        intros Hgood He.
        apply Hs; [apply good_shoe; exact Hgood|].
        unfold take. simpl. rewrite Hcd.
        assert (Hadd : int_add 10 (get_value c) = 10 + get_value c).
        { pose proof (get_value_bounds c ltac:(lia)).
          apply int_wrap_id. unfold int_range. lia. }
        rewrite Hadd. pose proof (get_value_bounds c ltac:(lia)).
        apply split_enough_hand;
          [exact Hwf|lia|exact Hg|exact He|unfold hand_ok; lia|lia|lia].
  - intros distr st' (Hfr & Hlen & Hinv). cbv zeta.
    apply wp_bind, wp_gets. apply wp_bind, wp_gets.
    apply wp_bind, wp_modify, wp_ret.
    split; [apply frame_store; exact Hfr|].
    intros Hgood He.
    destruct (Hinv Hgood He sub_two_empty) as (Hg' & Hsum & Hw).
    pose proof Hg' as (_ & (_ & _ & _ & _ & Hbw & Hb1) & (_ & _ & _ & _ & Hbn)).
    rewrite (card_probability_frame _ _ _ _ Hfr).
    set (p := card_probability st 1 0).
    assert (Hfin : (dsum (if Qlt_bool 0 p
                          then add distr (CONSTANT_BLACKJACK st') p else distr)
                    == 1)%Q /\
                   sub_two (if Qlt_bool 0 p
                            then add distr (CONSTANT_BLACKJACK st') p else distr) /\
                   length (if Qlt_bool 0 p
                           then add distr (CONSTANT_BLACKJACK st') p else distr)
                   = 17%nat).
    { assert (Hall : (dsum distr + draw_weight st 0 1 == 1)%Q).
      { rewrite Hsum, dsum_empty_distr.
        rewrite <- (draw_weights_full st 0 Hwf
                      (split_enough_drawable _ dt Hwf He)).
        rewrite <- draw_weights_tens. ring. }
      unfold draw_weight in Hall. cbv zeta in Hall. fold p in Hall.
      destruct (Qlt_bool 0 p) eqn:Ep.
      - split; [|split; [|rewrite add_length; exact Hlen]].
        + rewrite dsum_add by exact Hlen. rewrite Hb1, Qmult_1_r. exact Hall.
        + apply sub_two_add_pos; [exact Hlen|exact Hw|split; assumption|].
          apply Qlt_bool_iff. exact Ep.
      - split; [|split; assumption]. rewrite <- (Qplus_0_r (dsum distr)). exact Hall. }
    destruct Hfin as (Hm & Hw' & Hlen').
    assert (Hd1 : (dsum (double_variable
                           (if Qlt_bool 0 p
                            then add distr (CONSTANT_BLACKJACK st') p else distr))
                   == 1)%Q).
    { rewrite double_variable_dsum by (try assumption; apply Hw'). rewrite Hm. ring. }
    pose proof (double_variable_nonneg _ Hlen' (proj1 Hw')) as Hn2.
    split; [|split; assumption].
    apply good_store; [exact Hg'|exact Hd1|exact Hn2| |];
      rewrite Hh, (Hkey He); lia.
Qed.

(** The second loop of [distr_split_aces] when a ten on a split ace pays
    as a blackjack: no card is taken. *)
Lemma blackjack_loop_good cards acc st :
  length acc = 17%nat ->
  wp (for_each cards
        (fun card distr =>
           p <- gets (fun self => card_probability self card 0) ;;
           if Qlt_bool 0 p then
             blackjack <- gets CONSTANT_BLACKJACK ;;
             ret (add distr blackjack p)
           else ret distr)
        acc) st
     (fun acc' st' =>
        st' = st /\ length acc' = 17%nat /\
        ((dsum (CONSTANT_BLACKJACK st) == 1)%Q ->
         (dsum acc' == dsum acc + draw_weights st 0 cards)%Q) /\
        (sub_two (CONSTANT_BLACKJACK st) -> sub_two acc -> sub_two acc')).
Proof.
  intros Hlen.
  apply (wp_for_each
    (fun rest acc_i st_i =>
       exists done, cards = done ++ rest /\ st_i = st /\
         length acc_i = 17%nat /\
         ((dsum (CONSTANT_BLACKJACK st) == 1)%Q ->
          (dsum acc_i == dsum acc + draw_weights st 0 done)%Q) /\
         (sub_two (CONSTANT_BLACKJACK st) -> sub_two acc -> sub_two acc_i))).
  - exists []. split; [reflexivity|]. split; [reflexivity|].
    split; [exact Hlen|]. split; [|auto].
    intros _. unfold draw_weights. simpl. ring.
  - intros x rest acc_i st_i (done & Hsplit & -> & Hlen_i & Hm & Hw).
    assert (Hsnoc : cards = (done ++ [x]) ++ rest).
    { rewrite <- app_assoc. exact Hsplit. }
    apply wp_bind, wp_gets.
    destruct (Qlt_bool 0 (card_probability st x 0)) eqn:Ep.
    + apply wp_bind, wp_gets, wp_ret.
      exists (done ++ [x]). split; [exact Hsnoc|]. split; [reflexivity|].
      split; [rewrite add_length; exact Hlen_i|]. split.
      * intros Hb. rewrite dsum_add by exact Hlen_i.
        rewrite draw_weights_snoc, (Hm Hb), Hb.
        unfold draw_weight. cbv zeta. rewrite Ep. ring.
      * intros Hb Ha. apply sub_two_add_pos; [exact Hlen_i|auto|exact Hb|].
        apply Qlt_bool_iff. exact Ep.
    + apply wp_ret.
      exists (done ++ [x]). split; [exact Hsnoc|]. split; [reflexivity|].
      split; [exact Hlen_i|]. split; [|exact Hw].
      intros Hb. rewrite draw_weights_snoc, (Hm Hb).
      unfold draw_weight. cbv zeta. rewrite Ep. ring.
  - intros acc' st' (done & Hsplit & -> & Hlen' & Hm & Hw).
    rewrite app_nil_r in Hsplit. subst done. auto.
Qed.

Lemma distr_split_aces_good fuel dt st :
  shoe_wf (card_distr st) ->
  (3 * Z.to_nat (shoe_total (card_distr st)) + 1 <= fuel)%nat ->
  wp (distr_split_aces rules fuel dt) st
     (fun d st' =>
        frame st st' /\
        (good st -> split_enough (card_distr st) dt ->
         good st' /\ (dsum d == 1)%Q /\ nonneg d)).
Proof.
  intros Hwf Hfuel. unfold distr_split_aces.
  set (E := split_enough (card_distr st) dt).
  assert (Hkey : E -> get_state_hash st 11 1 dt 0 mod 10 = 0).
  { intros [Hdt _].
    apply get_state_hash_mode; [exact Hwf|unfold int_range; lia|lia|lia|lia]. }
  apply cached_wp.
  { intros h d Ecache _. split; [apply frame_refl|].
    intros Hg _. split; [exact Hg|]. destruct Hg as ([Hu _] & _ & [Hn _]).
    split; [apply (Hu h d Ecache)|apply (Hn h d Ecache)]. }
  intros h Hh. apply wp_bind.
  eapply wp_mono.
  - apply (draw_loop_good E sub_two sub_two_add_pos 0
             (fun card =>
                if HIT_AFTER_SPLIT_ACES rules then
                  if DOUBLE_AFTER_SPLIT rules
                  then distr_hit_stand_double rules fuel (int_add 11 card) 1 dt
                  else distr_hit_stand rules fuel (int_add 11 card) 1 dt
                else distr_stand rules fuel (int_add 11 card) (is_ace dt) dt true)).
    + exact Hwf.
    + intros c Hc. apply in_range in Hc. lia.
    + apply empty_distr_length.
    + intros c st_i Hc Hfr Hv. apply in_range in Hc.
      assert (Hg : 1 <= shoe_get (card_distr st) c).
      { pose proof (valid_count_bounds _ 0 c Hwf ltac:(lia)). lia. }
      destruct (take_facts st st_i c Hfr Hwf ltac:(lia) Hg) as (Hwf' & Htot & Hpos).
      assert (Hcd : card_distr st_i = card_distr st) by
        (apply frame_card_distr; exact Hfr).
      assert (Hadd : int_add 11 c = 11 + c).
      { apply int_wrap_id. unfold int_range. lia. }
      destruct (HIT_AFTER_SPLIT_ACES rules).
      * eapply wp_mono.
        -- apply after_split_good; [exact Hwf'|lia|]. rewrite Htot. lia.
        -- intros d st' [Hfr' Hs]. split; [exact Hfr'|].
           intros Hgood He.
           apply Hs; [apply good_shoe; exact Hgood|].
           unfold take. simpl. rewrite Hcd, Hadd.
           apply split_enough_hand;
             [exact Hwf|lia|exact Hg|exact He|unfold hand_ok; lia|lia|lia].
      * eapply wp_mono.
        -- apply distr_stand_good; [exact Hwf'| |].
           ++ pose proof (is_ace_01 dt). unfold int_range. lia.
           ++ rewrite Htot. pose proof (is_ace_01 dt). lia.
        -- intros d st' [Hfr' Hs]. split; [exact Hfr'|].
           intros Hgood He.
           destruct Hs as (Hg' & Hd & Hw).
           ++ apply good_shoe; exact Hgood.
           ++ right. split; [|apply int_wrap_range].
              unfold take. simpl. rewrite Hcd.
              apply split_enough_stand; [exact Hwf|lia|exact Hg|exact He].
           ++ split; [exact Hg'|]. split; [exact Hd|apply sub_one_two; exact Hw].
  - intros acc1 st1 (Hfr1 & Hlen1 & Hinv1).
    pose proof (frame_card_distr _ _ Hfr1) as Hcd1.
    assert (Hwf1 : shoe_wf (card_distr st1)) by (rewrite Hcd1; exact Hwf).
    assert (Hfinish :
      forall acc2 st2,
        frame st st2 -> length acc2 = 17%nat ->
        (good st -> E ->
         good st2 /\ sub_two acc2 /\
         (dsum acc2 == dsum acc1 + draw_weights st 0 (range 10 14))%Q) ->
        wp (precomp_distr_store h (double_variable acc2) ;;;
            ret (double_variable acc2)) st2
           (fun d st' =>
              frame st st' /\
              (good st -> E -> good st' /\ (dsum d == 1)%Q /\ nonneg d))).
    { intros acc2 st2 Hfr2 Hlen2 H2.
      apply wp_bind, wp_modify, wp_ret.
      split; [apply frame_store; exact Hfr2|].
      intros Hgood He.
      destruct (Hinv1 Hgood He sub_two_empty) as (_ & Hsum1 & _).
      destruct (H2 Hgood He) as (Hg2 & [Hn2 Hw2] & Hsum2).
      assert (Hd1 : (dsum (double_variable acc2) == 1)%Q).
      { rewrite double_variable_dsum by assumption.
        rewrite Hsum2, Hsum1, dsum_empty_distr.
        assert (Hall : (draw_weights st 0 (range 1 10)
                        + draw_weights st 0 (range 10 14) == 1)%Q).
        { rewrite <- draw_weights_app, <- range_1_10_14.
          apply draw_weights_full; [exact Hwf|].
          apply (split_enough_drawable _ dt); [exact Hwf|exact He]. }
        assert (Hs : (0 + draw_weights st 0 (range 1 10)
                      + draw_weights st 0 (range 10 14) == 1)%Q).
        { rewrite Qplus_0_l. exact Hall. }
        rewrite Hs. ring. }
      pose proof (double_variable_nonneg acc2 Hlen2 Hn2) as Hn3.
      split; [|split; assumption].
      apply good_store; [exact Hg2|exact Hd1|exact Hn3| |];
        rewrite Hh, (Hkey He); lia. }
    destruct (BLACKJACK_WITH_SPLIT_ACES rules).
    + apply wp_bind. eapply wp_mono; [apply (blackjack_loop_good _ _ _ Hlen1)|].
      intros acc2 st2 (-> & Hlen2 & Hm2 & Hw2). cbv zeta.
      apply Hfinish; [exact Hfr1|exact Hlen2|].
      intros Hgood He.
      destruct (Hinv1 Hgood He sub_two_empty) as (Hg1 & _ & Hw1).
      pose proof Hg1 as (_ & (_ & _ & _ & _ & Hbw & Hb1) & (_ & _ & _ & _ & Hbn)).
      split; [exact Hg1|]. split; [apply Hw2; [split; assumption|exact Hw1]|].
      rewrite (Hm2 Hb1), (draw_weights_frame _ _ _ _ Hfr1). reflexivity.
    + apply wp_bind. eapply wp_mono.
      * apply (draw_loop_good E sub_two sub_two_add_pos 0
                 (fun _ => distr_stand rules fuel 21 (is_ace dt) dt true)).
        -- exact Hwf1.
        -- intros c Hc. apply in_range in Hc. lia.
        -- exact Hlen1.
        -- intros c st_i Hc Hfr Hv. apply in_range in Hc.
           assert (Hg : 1 <= shoe_get (card_distr st1) c).
           { pose proof (valid_count_bounds _ 0 c Hwf1 ltac:(lia)). lia. }
           destruct (take_facts st1 st_i c Hfr Hwf1 ltac:(lia) Hg)
             as (Hwf' & Htot & Hpos).
           assert (Hcd : card_distr st_i = card_distr st1) by
             (apply frame_card_distr; exact Hfr).
           eapply wp_mono.
           ++ apply distr_stand_good; [exact Hwf'| |].
              ** pose proof (is_ace_01 dt). unfold int_range. lia.
              ** rewrite Htot. rewrite Hcd1 in *. pose proof (is_ace_01 dt). lia.
           ++ intros d st' [Hfr' Hs]. split; [exact Hfr'|].
              intros Hgood He.
              destruct Hs as (Hg' & Hd & Hw).
              ** apply good_shoe; exact Hgood.
              ** right. split; [|unfold int_range; lia].
                 unfold take. simpl. rewrite Hcd, Hcd1.
                 apply split_enough_stand; [exact Hwf|lia| |exact He].
                 rewrite <- Hcd1. exact Hg.
              ** split; [exact Hg'|]. split; [exact Hd|apply sub_one_two; exact Hw].
      * intros acc2 st2 (Hfr2 & Hlen2 & Hinv2). cbv zeta.
        apply Hfinish; [eapply frame_trans; eassumption|exact Hlen2|].
        intros Hgood He.
        destruct (Hinv1 Hgood He sub_two_empty) as (Hg1 & _ & Hw1).
        destruct (Hinv2 Hg1 He Hw1) as (Hg2 & Hsum2 & Hw2).
        split; [exact Hg2|]. split; [exact Hw2|].
        rewrite Hsum2, (draw_weights_frame _ _ _ _ Hfr1). reflexivity.
Qed.

End SplitProofs.

(** ** The weights of a deal *)

Lemma ratio_nonneg n t k :
  0 <= n -> k < t -> (0 <= inject_Z n / (inject_Z t - inject_Z k))%Q.
Proof.
  intros Hn Ht. rewrite <- inject_Z_minus.
  apply Qle_shift_div_l.
  - change 0%Q with (inject_Z 0). rewrite <- Zlt_Qlt. lia.
  - rewrite Qmult_0_l. change 0%Q with (inject_Z 0). rewrite <- Zle_Qle. exact Hn.
Qed.

(** No deal has a negative probability. *)
Lemma get_probability_nonneg distr c1 c2 c3 p distr' :
  shoe_wf distr -> 1 <= c1 <= 13 -> 1 <= c2 <= 13 -> 1 <= c3 <= 13 ->
  kelly_pyx.get_probability c1 c2 c3 distr = Some (p, distr') ->
  (0 <= p)%Q.
Proof.
  intros Hwf H1 H2 H3 Hp.
  destruct (get_probability_spec c1 c2 c3 distr Hwf H1 H2 H3) as (p' & Hp' & Hpos).
  rewrite Hp in Hp'. injection Hp' as <- _.
  destruct (Qeq_bool p 0) eqn:E0.
  { apply Qeq_bool_iff in E0. rewrite E0. discriminate. }
  destruct (Hpos eq_refl) as (G1 & G2 & G3).
  rewrite get_probability_eq in Hp.
  destruct (Qlt_bool (kelly_pyx.cards_left distr) 3) eqn:E3.
  { injection Hp as <- _. discriminate E0. }
  injection Hp as <- _.
  assert (Ht : 3 <= shoe_total distr).
  { destruct (Z_lt_le_dec (shoe_total distr) 3) as [Hlt|Hge]; [|exact Hge].
    exfalso. apply not_true_iff_false in E3. apply E3.
    apply Qlt_bool_iff. rewrite kelly_cards_left_total.
    change 3%Q with (inject_Z 3). rewrite <- Zlt_Qlt. exact Hlt. }
  rewrite kelly_cards_left_total.
  pose proof (ratio_nonneg (shoe_get distr c1) (shoe_total distr) 0
                ltac:(lia) ltac:(lia)) as R1.
  pose proof (ratio_nonneg (shoe_get (long_decr distr c1) c2) (shoe_total distr) 1
                ltac:(lia) ltac:(lia)) as R2.
  pose proof (ratio_nonneg (shoe_get (long_decr (long_decr distr c1) c2) c3)
                (shoe_total distr) 2 ltac:(lia) ltac:(lia)) as R3.
  change (inject_Z 0) with 0%Q in R1. change (inject_Z 1) with 1%Q in R2.
  change (inject_Z 2) with 2%Q in R3.
  unfold Qminus in R1. rewrite Qplus_0_r in R1.
  apply Qmult_le_0_compat; [apply Qmult_le_0_compat|]; assumption.
Qed.

(** The share of the shoe that [get_distr] takes for the dealer's
    blackjack is a probability. *)
Lemma dealer_blackjack_bounds shoe dt :
  shoe_wf shoe -> 1 <= shoe_total shoe ->
  (0 <= (if dt <? 10 then 0
         else kelly_pyx.get_dealer_blackjack_probability shoe dt) <= 1)%Q.
Proof.
  intros Hwf Ht. destruct (dt <? 10); [split; discriminate|].
  unfold kelly_pyx.get_dealer_blackjack_probability. cbv zeta.
  destruct (dt =? 10); rewrite kelly_cards_left_total;
    (apply Qfrac_bounds; [|exact Ht]).
  - split; [apply Hwf; lia|apply shoe_total_ge_count; [exact Hwf|lia]].
  - apply tens_le_total. exact Hwf.
Qed.

Lemma good_free st : good st -> good (with_precomp_distr st ∅).
Proof.
  intros ((_ & Hmass) & (_ & Hmodes) & (_ & Hnn)).
  split; [|split].
  - split; [|exact Hmass]. intros k d Hk. discriminate Hk.
  - split; [|exact Hmodes]. intros k d Hk. discriminate Hk.
  - split; [|exact Hnn]. intros k d Hk. discriminate Hk.
Qed.

Lemma Qsum_nat_ge (f : nat -> Q) l q0 :
  (forall j, 0 <= f j)%Q ->
  (q0 <= fold_left (fun q j => q + f j) l q0)%Q.
Proof.
  intros Hf. revert q0. induction l as [|x l IH]; intros q0; simpl.
  - apply Qle_refl.
  - eapply Qle_trans; [|apply IH].
    rewrite <- (Qplus_0_r q0) at 1.
    apply Qplus_le_compat; [apply Qle_refl|apply Hf].
Qed.

Lemma Qsum_nat_member (f : nat -> Q) l q0 i :
  (forall j, 0 <= f j)%Q -> (0 <= q0)%Q -> In i l ->
  (f i <= fold_left (fun q j => q + f j) l q0)%Q.
Proof.
  intros Hf. revert q0. induction l as [|x l IH]; intros q0 Hq Hi; simpl.
  - destruct Hi.
  - destruct Hi as [->|Hi].
    + eapply Qle_trans; [|apply Qsum_nat_ge; exact Hf].
      rewrite <- (Qplus_0_l (f i)) at 1.
      apply Qplus_le_compat; [exact Hq|apply Qle_refl].
    + apply IH; [|exact Hi]. apply Qadd_nonneg; [exact Hq|apply Hf].
Qed.

(** Non-negative entries of sum one are probabilities. *)
Lemma probabilities_of d : (dsum d == 1)%Q -> nonneg d -> probabilities d.
Proof.
  intros Hd Hn. split; [exact Hd|]. intros i Hi. split; [apply Hn|].
  rewrite <- Hd. unfold dsum.
  apply (Qsum_nat_member (dget d)); [exact Hn|discriminate|].
  apply in_seq. lia.
Qed.

Lemma good_constants (u : list Q) shoe :
  good {| utility := u; card_distr := shoe; precomp_distr := ∅;
          CONSTANT_TIE := constant_distr 0;
          CONSTANT_LOSE := constant_distr (-1);
          CONSTANT_WIN := constant_distr 1;
          CONSTANT_BLACKJACK := constant_distr 1.5 |}.
Proof.
  assert (N : forall v : Q,
             length (constant_distr v) = 17%nat ->
             (forall i, (i < 17)%nat -> (0 <= dget (constant_distr v) i)%Q) ->
             nonneg (constant_distr v)).
  { intros v Hlen H i. destruct (Nat.lt_ge_cases i 17) as [Hlt|Hge].
    - apply H. exact Hlt.
    - rewrite dget_overflow; [discriminate|rewrite Hlen; exact Hge]. }
  assert (W : forall v : Q,
             length (constant_distr v) = 17%nat ->
             (forall i, (i < 17)%nat -> (i < 6 \/ 10 < i)%nat ->
                        (dget (constant_distr v) i == 0)%Q) ->
             within_one (constant_distr v)).
  { intros v Hlen H i Hi. destruct (Nat.lt_ge_cases i 17) as [Hlt|Hge].
    - apply H; assumption.
    - rewrite dget_overflow; [reflexivity|rewrite Hlen; exact Hge]. }
  split; [|split].
  - split; [|repeat split].
    intros k d H. simpl in H. rewrite lookup_empty in H. discriminate H.
  - split; [intros k d Hk; discriminate Hk|].
    split; [|split; [|split; [|split]]].
    + apply W; [reflexivity|]. intros i Hi Ho.
      cases_below Hi; try reflexivity; exfalso; lia.
    + apply W; [reflexivity|]. intros i Hi Ho.
      cases_below Hi; try reflexivity; exfalso; lia.
    + apply W; [reflexivity|]. intros i Hi Ho.
      cases_below Hi; try reflexivity; exfalso; lia.
    + intros i Hi. destruct (Nat.lt_ge_cases i 17) as [Hlt|Hge].
      * cases_below Hlt; try reflexivity; exfalso; lia.
      * rewrite dget_overflow; [reflexivity|exact Hge].
    + reflexivity.
  - split; [intros k d Hk; discriminate Hk|].
    split; [|split; [|split]];
      (apply N; [reflexivity|]; intros i Hi; cases_below Hi; discriminate).
Defined.

Lemma good_example shoe : good (example_solver shoe).
Proof. apply good_constants. Defined.

Lemma shoe_wf_double_deck : shoe_wf double_deck.
Proof.
  split; [reflexivity|]. intros card H.
  unfold double_deck. each_card H; shoe_cbv; lia.
Defined.

(** ** Further claims on masses *)

(** X19: the keys of different actions never collide.  On shoes of
    non-negative [int] counts, with the player total in [int] range and
    the ace count and dealer total within a thousand, the last decimal
    digit of [get_state_hash] is the mode, so two keys of different modes
    differ whatever the shoes and the hands. *)
Theorem get_state_hash_modes_apart (st st' : RewardDistribution)
    (pt pt' a a' dt dt' m m' : Z) :
  shoe_wf (card_distr st) -> shoe_wf (card_distr st') ->
  int_range pt -> int_range pt' ->
  - 1000 <= a <= 1000 -> - 1000 <= a' <= 1000 ->
  - 1000 <= dt <= 1000 -> - 1000 <= dt' <= 1000 ->
  0 <= m < 10 -> 0 <= m' < 10 ->
  get_state_hash st pt a dt m mod 10 = m /\
  (m <> m' -> get_state_hash st pt a dt m <> get_state_hash st' pt' a' dt' m').
Proof.
  intros Hwf Hwf' Hpt Hpt' Ha Ha' Hdt Hdt' Hm Hm'.
  pose proof (get_state_hash_mode st pt a dt m Hwf Hpt Ha Hdt Hm) as E.
  pose proof (get_state_hash_mode st' pt' a' dt' m' Hwf' Hpt' Ha' Hdt' Hm') as E'.
  split; [exact E|].
  intros Hne Heq. apply Hne. rewrite <- E, <- E', Heq. reflexivity.
Qed.

Lemma get_state_hash_modes_apart_witness :
  let st := example_solver single_deck in
  let st' := example_solver double_deck in
  get_state_hash st 16 0 10 2 mod 10 = 2 /\
  (2 <> 3 -> get_state_hash st 16 0 10 2 <> get_state_hash st' 16 0 10 3).
Proof.
  intros st st'.
  apply (get_state_hash_modes_apart st st' 16 16 0 0 10 10 2 3);
    first [exact shoe_wf_single_deck|exact shoe_wf_double_deck
          |unfold int_range; lia|lia].
Defined.

Section MassClaims.

Variable rules : rule_variation.

(** X20: with enough cards, the better of hitting, standing and doubling
    is a probability distribution within two stakes.  On a solver in good
    order (stored masses one, nothing negative, modes kept apart: a fresh
    or freed solver for one), [distr_hit_stand_double] returns a
    distribution whose entries lie in [0, 1], sum to one and vanish
    outside the payouts -2 .. +2, and leaves the solver in good order. *)
Theorem distr_hit_stand_double_unit_mass (fuel : nat)
    (player_total player_aces dealer_total : Z) (st : RewardDistribution) :
  shoe_wf (card_distr st) -> int_range player_aces ->
  (fuel_for (card_distr st) player_aces <= fuel)%nat ->
  good st ->
  hit_stand_double_enough (card_distr st) player_total player_aces dealer_total ->
  wp (distr_hit_stand_double rules fuel player_total player_aces dealer_total) st
     (fun d st' => probabilities d /\ within_two d /\ good st').
Proof.
  intros Hwf Hpa Hfuel Hgood He. apply fuel_for_le in Hfuel.
  eapply wp_mono.
  - apply distr_hit_stand_double_good; [exact Hwf|exact Hpa|lia].
  - intros d st' [_ H]. destruct (H Hgood He) as (Hg & Hd & Hn & Hw).
    split; [apply probabilities_of; assumption|]. split; assumption.
Qed.

(** X21: with enough cards, every split is a probability distribution.
    On a solver in good order and a shoe with at least 39 cards that the
    dealer may draw, [distr_split_general] (on a card value in 0..11),
    [distr_split_tens] and [distr_split_aces] return distributions whose
    entries lie in [0, 1] and sum to one, and leave the solver in good
    order. *)
Theorem distr_split_unit_mass (fuel : nat) (player_card dealer_total : Z)
    (st : RewardDistribution) :
  shoe_wf (card_distr st) ->
  (fuel_for (card_distr st) 0 <= fuel)%nat ->
  good st -> split_enough (card_distr st) dealer_total ->
  0 <= player_card <= 11 ->
  wp (distr_split_general rules fuel player_card dealer_total) st
     (fun d st' => probabilities d /\ good st') /\
  wp (distr_split_tens rules fuel dealer_total) st
     (fun d st' => probabilities d /\ good st') /\
  wp (distr_split_aces rules fuel dealer_total) st
     (fun d st' => probabilities d /\ good st').
Proof.
  intros Hwf Hfuel Hgood He Hpc. apply fuel_for_le in Hfuel.
  split; [|split].
  - eapply wp_mono.
    + apply distr_split_general_good; [exact Hwf|lia].
    + intros d st' [_ H]. destruct (H Hgood (conj He Hpc)) as (Hg & Hd & Hn).
      split; [apply probabilities_of; assumption|exact Hg].
  - eapply wp_mono.
    + apply distr_split_tens_good; [exact Hwf|lia].
    + intros d st' [_ H]. destruct (H Hgood He) as (Hg & Hd & Hn).
      split; [apply probabilities_of; assumption|exact Hg].
  - eapply wp_mono.
    + apply distr_split_aces_good; [exact Hwf|lia].
    + intros d st' [_ H]. destruct (H Hgood He) as (Hg & Hd & Hn).
      split; [apply probabilities_of; assumption|exact Hg].
Qed.

End MassClaims.

Lemma hit_stand_double_enough_example :
  hit_stand_double_enough single_deck 16 0 10.
Proof.
  split; [|split; [|lia]].
  - split; [unfold hand_ok; lia|]. split; [lia|]. vm_compute. discriminate.
  - split; [lia|]. vm_compute. discriminate.
Defined.

Lemma distr_hit_stand_double_unit_mass_witness :
  wp (distr_hit_stand_double example_rules 200 16 0 10) (example_solver single_deck)
     (fun d st' => probabilities d /\ within_two d /\ good st').
Proof.
  apply (distr_hit_stand_double_unit_mass example_rules 200 16 0 10
           (example_solver single_deck)).
  - exact shoe_wf_single_deck.
  - exact int_range_0.
  - vm_compute. lia.
  - apply good_example.
  - exact hit_stand_double_enough_example.
Defined.

Lemma split_enough_example : split_enough single_deck 6.
Proof. split; [lia|]. vm_compute. discriminate. Defined.

Lemma distr_split_unit_mass_witness :
  wp (distr_split_general example_rules 200 8 6) (example_solver single_deck)
     (fun d st' => probabilities d /\ good st') /\
  wp (distr_split_tens example_rules 200 6) (example_solver single_deck)
     (fun d st' => probabilities d /\ good st') /\
  wp (distr_split_aces example_rules 200 6) (example_solver single_deck)
     (fun d st' => probabilities d /\ good st').
Proof.
  apply (distr_split_unit_mass example_rules 200 8 6 (example_solver single_deck)).
  - exact shoe_wf_single_deck.
  - vm_compute. lia.
  - apply good_example.
  - exact split_enough_example.
  - lia.
Defined.

(** ** Termination whatever the shoe *)

Lemma hand_ok_16 : hand_ok 16 0.
Proof. unfold hand_ok. lia. Defined.

(** X24: the recursion of the solver is bounded by the hands, not by the
    shoe.  On a player hand and a dealer hand of non-negative hard total
    with two soft aces at most, every method that plays a hand returns
    within [hand_fuel] levels of recursion from any solver: whatever its
    shoe holds (negative counts included), and whatever its cache and
    constants. *)
Theorem solver_returns_on_any_shoe (rules : rule_variation) (fuel : nat)
    (player_total player_aces dealer_aces dealer_total : Z) (first_call : bool)
    (st : RewardDistribution) :
  hand_ok player_total player_aces -> player_aces <= 2 ->
  hand_ok dealer_total dealer_aces -> dealer_aces <= 2 ->
  (hand_fuel <= fuel)%nat ->
  returns (distr_stand rules fuel player_total dealer_aces dealer_total
             first_call) st /\
  returns (distr_hit rules fuel player_total player_aces dealer_total) st /\
  returns (distr_hit_stand rules fuel player_total player_aces dealer_total) st /\
  returns (distr_double rules fuel player_total player_aces dealer_total) st /\
  returns (distr_hit_stand_double rules fuel player_total player_aces
             dealer_total) st /\
  (player_total <= 21 ->
   returns (distr_split_general rules fuel player_total dealer_total) st) /\
  returns (distr_split_tens rules fuel dealer_total) st /\
  returns (distr_split_aces rules fuel dealer_total) st /\
  (player_total <= 43 ->
   returns (distr_split rules fuel player_total player_aces dealer_total) st).
Proof.
  intros Hp Hpa Hd Hda Hfuel. unfold hand_fuel in Hfuel.
  assert (Hdt : 0 <= dealer_total < 2 ^ 31).
  { destruct Hd as (H0 & H1 & H2). lia. }
  assert (Hpt : 0 <= player_total).
  { destruct Hp as (H0 & H1 & H2). lia. }
  split.
  { apply distr_stand_returns; [exact Hd|].
    destruct Hd as (H0 & H1 & H2). unfold stand_fuel. lia. }
  split.
  { apply (proj1 (distr_hit_returns rules fuel)); [exact Hp|exact Hdt|].
    pose proof (hit_fuel_bound _ _ Hp Hpa). lia. }
  split; [apply distr_hit_stand_returns; assumption || lia|].
  split; [apply distr_double_returns; [exact Hdt|lia]|].
  split; [apply distr_hit_stand_double_returns; assumption || lia|].
  split.
  { intros H21. apply distr_split_general_returns; [lia|exact Hdt|lia]. }
  split; [apply distr_split_tens_returns; [exact Hdt|lia]|].
  split; [apply distr_split_aces_returns; [exact Hdt|lia]|].
  intros H43. apply distr_split_returns; [lia|exact Hdt|lia].
Qed.

(** A hard 16 against a ten on a shoe that is none: negative counts, and
    one count at the top of the C [int]. *)
Lemma solver_returns_on_any_shoe_witness :
  let st := example_solver
              [0; -3; 5; 2 ^ 31 - 1; 0; -1; 0; 0; 2; 0; -7; 1; 0; 4] in
  returns (distr_stand example_rules 200 16 0 10 true) st /\
  returns (distr_hit example_rules 200 16 0 10) st /\
  returns (distr_hit_stand example_rules 200 16 0 10) st /\
  returns (distr_double example_rules 200 16 0 10) st /\
  returns (distr_hit_stand_double example_rules 200 16 0 10) st /\
  (16 <= 21 -> returns (distr_split_general example_rules 200 16 10) st) /\
  returns (distr_split_tens example_rules 200 10) st /\
  returns (distr_split_aces example_rules 200 10) st /\
  (16 <= 43 -> returns (distr_split example_rules 200 16 0 10) st).
Proof.
  intros st.
  apply (solver_returns_on_any_shoe example_rules 200 16 0 0 10 true st).
  - exact hand_ok_16.
  - lia.
  - unfold hand_ok. lia.
  - lia.
  - vm_compute. lia.
Defined.

(** ** The weights that [get_distr] gives to a deal *)

(** X22: the two scalars that [get_distr] hands to [add] for a deal are
    shares of its probability.  On a shoe of non-negative counts no deal
    has a negative probability [p]; when [p] is not zero the shoe holds a
    card, the dealer-blackjack probability [q] lies in [0, 1], and so
    [p (1 - q)] and [p q] are non-negative and add up to [p]. *)
Theorem deal_weights_are_shares (distr distr' : list Z) (card1 card2 card3 : Z)
    (p : Q) :
  shoe_wf distr ->
  1 <= card1 <= 13 -> 1 <= card2 <= 13 -> 1 <= card3 <= 13 ->
  kelly_pyx.get_probability card1 card2 card3 distr = Some (p, distr') ->
  let dealer_total := kelly_pyx.get_value card3 in
  let q := if dealer_total <? 10 then 0%Q
           else kelly_pyx.get_dealer_blackjack_probability distr dealer_total in
  (0 <= p)%Q /\
  (Qeq_bool p 0 = false ->
   (0 <= q <= 1)%Q /\ (0 <= p * (1 - q))%Q /\ (0 <= p * q)%Q /\
   (p * (1 - q) + p * q == p)%Q).
Proof.
  intros Hwf H1 H2 H3 Hrun dealer_total q.
  pose proof (get_probability_nonneg distr card1 card2 card3 p distr'
                Hwf H1 H2 H3 Hrun) as Hp.
  split; [exact Hp|]. intros Hne.
  assert (Ht : 1 <= shoe_total distr).
  { destruct (Z_lt_le_dec (shoe_total distr) 3) as [Hlt|Hge]; [|lia].
    exfalso. rewrite get_probability_eq in Hrun.
    assert (E3 : Qlt_bool (kelly_pyx.cards_left distr) 3 = true).
    { apply Qlt_bool_iff. rewrite kelly_cards_left_total.
      change 3%Q with (inject_Z 3). rewrite <- Zlt_Qlt. exact Hlt. }
    rewrite E3 in Hrun. injection Hrun as <-. discriminate Hne. }
  pose proof (dealer_blackjack_bounds distr dealer_total Hwf Ht) as Hq.
  fold q in Hq. destruct Hq as [Hq0 Hq1].
  split; [split; assumption|].
  split; [|split; [|ring]].
  - apply Qmult_le_0_compat; [exact Hp|].
    unfold Qminus. rewrite <- (Qplus_opp_r q).
    apply Qplus_le_compat; [exact Hq1|apply Qle_refl].
  - apply Qmult_le_0_compat; assumption.
Qed.

(** An ace, a five and a ten from a single deck: behind the ten the
    dealer holds an ace with probability 4/52. *)
Lemma deal_weights_are_shares_witness :
  let p := deal_probability single_deck 1 5 10 in
  let q := kelly_pyx.get_dealer_blackjack_probability single_deck 10 in
  (q == 4 # 52)%Q /\
  (0 <= p)%Q /\
  (Qeq_bool p 0 = false ->
   (0 <= q <= 1)%Q /\ (0 <= p * (1 - q))%Q /\ (0 <= p * q)%Q /\
   (p * (1 - q) + p * q == p)%Q).
Proof.
  intros p q. split; [vm_compute; reflexivity|].
  apply (deal_weights_are_shares single_deck single_deck 1 5 10 p);
    [exact shoe_wf_single_deck|lia|lia|lia|vm_compute; reflexivity].
Defined.

(** ** Construction *)

Lemma carray_from_py_int_some o n v :
  carray_from_py_int o n = Some v ->
  v = o /\ length o = n /\ forall item, In item o -> int_range item.
Proof.
  unfold carray_from_py_int.
  destruct (length o =? n)%nat eqn:El; [|discriminate].
  destruct (forallb _ o) eqn:Ef; [|discriminate].
  cbn [andb]. intros [= <-]. split; [reflexivity|].
  split; [apply Nat.eqb_eq; exact El|].
  intros x Hx. rewrite forallb_forall in Ef. specialize (Ef x Hx).
  apply andb_true_iff in Ef. unfold int_range. lia.
Qed.

(** X23: a solver is in good order as [__cinit__] builds it, whatever the
    rules and the utility function: the masses of its constants are one,
    nothing is negative, LOSE, TIE and WIN lie within one stake and
    BLACKJACK within two, the cache is empty and the shoe holds no card.
    [set_card_distribution] keeps a solver in good order whatever it is
    given: it installs a sequence of fourteen C ints and nothing else,
    and leaves the solver as it was when what it is given is not one.
    [free_mem] keeps it in good order and empties the cache. *)
Theorem constructed_solver_in_good_order (rules : rule_variation)
    (utility_function : Q -> Q) (st : RewardDistribution) :
  snd (__cinit__ rules utility_function) = Returned st ->
  (good st /\ precomp_distr st = ∅ /\ shoe_total (card_distr st) = 0) /\
  (forall st0 card_distribution,
     good st0 ->
     wp (set_card_distribution card_distribution) st0
        (fun _ st' =>
           good st' /\
           (length card_distribution = 14%nat /\
            (forall count, In count card_distribution -> int_range count) /\
            st' = with_card_distr st0 card_distribution
            \/ ~ (length card_distribution = 14%nat /\
                  (forall count, In count card_distribution -> int_range count)) /\
               st' = st0))) /\
  (forall st0,
     good st0 ->
     wp free_mem st0 (fun _ st' => good st' /\ precomp_distr st' = ∅)).
Proof.
  intros Hst. unfold __cinit__ in Hst. cbn [snd] in Hst. injection Hst as <-.
  split; [split; [apply good_constants|split; reflexivity]|]. split.
  - intros st0 cd Hg. unfold set_card_distribution. apply wp_modify.
    destruct (carray_from_py_int cd 14) as [v|] eqn:E.
    + apply carray_from_py_int_some in E as (-> & Hlen & Hr).
      split; [exact Hg|]. left. auto.
    + split; [exact Hg|]. right. split; [|reflexivity].
      intros [Hlen Hr].
      rewrite (carray_from_py_int_fits cd 14 Hlen Hr) in E. discriminate E.
  - intros st0 Hg.
    apply wp_modify. split; [apply good_free; exact Hg|].
    destruct st0; reflexivity.
Qed.

(** The solver of the Kelly bettor, built on the identity utility. *)
Lemma constructed_solver_in_good_order_witness :
  let st := example_solver (repeat 0 14) in
  (good st /\ precomp_distr st = ∅ /\ shoe_total (card_distr st) = 0) /\
  wp (set_card_distribution single_deck) st
     (fun _ st' => good st' /\ st' = example_solver single_deck) /\
  wp (set_card_distribution (2 ^ 40 :: tl single_deck)) st
     (fun _ st' => good st' /\ st' = st).
Proof.
  intros st.
  destruct (constructed_solver_in_good_order example_rules (fun x => x) st
              eq_refl) as (Hnew & Hset & _).
  split; [exact Hnew|]. split.
  - eapply wp_mono; [apply (Hset st single_deck), Hnew|].
    intros [] st' [Hg [(_ & _ & ->)|[Hno _]]]; [split; [exact Hg|reflexivity]|].
    exfalso. apply Hno. split; [reflexivity|].
    intros c Hc. pose proof shoe_wf_single_deck as [_ Hw].
    unfold int_range. simpl in Hc.
    repeat (destruct Hc as [<-|Hc]; [lia|]). destruct Hc.
  - eapply wp_mono; [apply (Hset st (2 ^ 40 :: tl single_deck)), Hnew|].
    intros [] st' [Hg [(_ & Hr & _)|[_ ->]]]; [|split; [exact Hg|reflexivity]].
    exfalso. specialize (Hr (2 ^ 40) (or_introl eq_refl)).
    unfold int_range in Hr. lia.
Defined.
